(** * make-mo: a PO catalog parser and GNU MO encoder

    Shallow embedding of [tools/make-mo.py] and the properties of its three
    functions [unescape], [parse_po] and [make_mo].

    Conventions of the embedding:
    - a Python [str] is a list of Unicode code points ([char := N]);
    - a Python [bytes] is a [list Byte.byte];
    - Python integers that the program computes are non-negative and are
      modelled in [N]; list indices are [nat];
    - a Python exception is a value of [exn]; code that may raise returns
      [res A := exn + A];
    - the output file is a byte buffer threaded through the [io] monad, so
      that what is left on disk after an exception is part of the result. *)

From Stdlib Require Import List NArith ZArith Lia Bool Ascii.
From Stdlib Require Import Permutation Sorted.
From Stdlib Require Strings.Byte Strings.String.
From Stdlib Require DecimalString.
Import ListNotations.
Import String.StringSyntax.
Delimit Scope string_scope with string.

Local Open Scope N_scope.

(* ================================================================== *)
(** * Part I: the embedding *)
(* ================================================================== *)

(** ** Exceptions and the error monad *)

Inductive exn : Type :=
| IndexError          (* s[i] out of range *)
| TypeError           (* None += str *)
| UnicodeEncodeError  (* str.encode('utf-8') on an unencodable character *)
| StructError         (* struct.pack('<I', v) with v outside 0 .. 2^32-1 *)
| LoopBound.          (* not a Python exception: the iteration bound that the
                         model gives to a [while] loop was exhausted *)

Definition res (A : Type) : Type := (exn + A)%type.
Definition Ok {A : Type} (a : A) : res A := inr a.
Definition Err {A : Type} (e : exn) : res A := inl e.

Definition rbind {A B : Type} (m : res A) (k : A -> res B) : res B :=
  match m with
  | inl e => inl e
  | inr a => k a
  end.

Notation "x <- m ;; k" := (rbind m (fun x => k))
  (at level 61, m at next level, right associativity).
Notation "' p <- m ;; k" := (rbind m (fun x => let p := x in k))
  (at level 61, p pattern, m at next level, right associativity).

(** ** Characters, strings and bytes *)

Definition char : Type := N.
Definition str : Type := list char.
Definition byte : Type := Byte.byte.
Definition bytes : Type := list byte.

(** An ASCII literal as a Python string. *)
Definition py (x : String.string) : str :=
  map N_of_ascii (String.list_ascii_of_string x).
Arguments py x%_string.

Definition LF : char := 10.
Definition TAB : char := 9.
Definition CR : char := 13.
Definition DQUOTE : char := 34.
Definition HASH : char := 35.
Definition BACKSLASH : char := 92.
Definition CH_n : char := 110.
Definition CH_r : char := 114.
Definition CH_t : char := 116.

Definition NUL : byte := Byte.x00.

(** [len(x)] as a Python integer. *)
Definition len {A : Type} (l : list A) : N := N.of_nat (length l).

(** Truthiness of a sequence: non-empty. *)
Definition truthy {A : Type} (l : list A) : bool :=
  match l with
  | [] => false
  | _ :: _ => true
  end.

Definition str_eqb (a b : str) : bool :=
  if list_eq_dec N.eq_dec a b then true else false.

(** [s[i]] for a non-negative index. *)
Definition getitem (s : str) (i : nat) : res char :=
  match nth_error s i with
  | Some c => Ok c
  | None => Err IndexError
  end.

(** Python's index normalisation for slices: a negative index counts from
    the end, and the result is clamped to [0 .. len]. *)
Definition slice_index (n : nat) (i : Z) : nat :=
  let l := Z.of_nat n in
  let j := if (i <? 0)%Z then (i + l)%Z else i in
  Z.to_nat (Z.min l (Z.max 0 j)).

(** [s[start:stop]]. *)
Definition slice {A : Type} (s : list A) (start stop : Z) : list A :=
  let a := slice_index (length s) start in
  let b := slice_index (length s) stop in
  firstn (b - a) (skipn a s).

Fixpoint startswith (prefix s : str) : bool :=
  match prefix, s with
  | [], _ => true
  | _ :: _, [] => false
  | p :: prefix', c :: s' => (p =? c) && startswith prefix' s'
  end.

Definition endswith (suffix s : str) : bool :=
  startswith (rev suffix) (rev s).

Fixpoint dropwhile {A : Type} (p : A -> bool) (l : list A) : list A :=
  match l with
  | [] => []
  | x :: l' => if p x then dropwhile p l' else l
  end.

Definition mem (c : char) (cs : str) : bool := existsb (N.eqb c) cs.

(** [s.rstrip(chars)]. *)
Definition rstrip (chars s : str) : str :=
  rev (dropwhile (fun c => mem c chars) (rev s)).

(** The characters that [str.strip()] without argument removes
    (CPython's [_PyUnicode_IsWhitespace]). *)
Definition isspace (c : char) : bool :=
  ((0x09 <=? c) && (c <=? 0x0D)) || ((0x1C <=? c) && (c <=? 0x20))
  || (c =? 0x85) || (c =? 0xA0) || (c =? 0x1680)
  || ((0x2000 <=? c) && (c <=? 0x200A))
  || (c =? 0x2028) || (c =? 0x2029) || (c =? 0x202F) || (c =? 0x205F)
  || (c =? 0x3000).

(** [s.strip()]. *)
Definition strip (s : str) : str :=
  rev (dropwhile isspace (rev (dropwhile isspace s))).

(** ** [unescape] *)

(** The [while i < len(s)] loop of [unescape]; [fuel] bounds the number of
    iterations. *)
Fixpoint unescape_loop (fuel : nat) (s : str) (result : list char) (i : nat)
  : res str :=
  if (i <? length s)%nat then
    match fuel with
    | O => Err LoopBound
    | S fuel' =>
        c0 <- getitem s i ;;
        if (c0 =? BACKSLASH) && (i + 1 <? length s)%nat then
          c <- getitem s (i + 1) ;;
          let result :=
            if c =? CH_n then result ++ [LF]
            else if c =? CH_t then result ++ [TAB]
            else if c =? CH_r then result ++ [CR]
            else if c =? DQUOTE then result ++ [DQUOTE]
            else if c =? BACKSLASH then result ++ [BACKSLASH]
            else (result ++ [BACKSLASH]) ++ [c] in
          unescape_loop fuel' s result (i + 2)
        else
          c1 <- getitem s i ;;
          unescape_loop fuel' s (result ++ [c1]) (i + 1)
    end
  else Ok result.

(** Every iteration advances [i], so [len(s)] iterations are enough (this is
    proved below as [unescape_loop_spec]). *)
Definition unescape (s : str) : res str :=
  unescape_loop (length s) s [] 0.

(** ** [parse_po] *)

(** The local variables of [parse_po]. *)
Record po_state : Type := mk_po_state {
  pairs  : list (str * str);
  cur_id : option str;
  cur_str : option str;
  in_id  : bool;
  in_str : bool
}.

Definition po_init : po_state :=
  {| pairs := []; cur_id := None; cur_str := None;
     in_id := false; in_str := false |}.

(** The nested function [save]. *)
Definition save (st : po_state) : po_state :=
  match cur_id st, cur_str st with
  | Some k, Some v =>
      {| pairs := pairs st ++ [(k, v)]; cur_id := cur_id st;
         cur_str := cur_str st; in_id := in_id st; in_str := in_str st |}
  | _, _ => st
  end.

(** [x += val] where [x] may be [None]. *)
Definition iadd (x : option str) (val : str) : res (option str) :=
  match x with
  | Some s => Ok (Some (s ++ val))
  | None => Err TypeError
  end.

(** The body of [for line in f]. *)
Definition parse_line (st : po_state) (line : str) : res po_state :=
  let line := rstrip [CR; LF] line in
  if startswith (py "#") line || negb (truthy (strip line)) then
    Ok st
  else if startswith (py "msgid ") line then
    let st := save st in
    v <- unescape (slice line 7 (-1)) ;;
    Ok {| pairs := pairs st; cur_id := Some v; cur_str := None;
          in_id := true; in_str := false |}
  else if startswith (py "msgstr ") line then
    v <- unescape (slice line 8 (-1)) ;;
    Ok {| pairs := pairs st; cur_id := cur_id st; cur_str := Some v;
          in_id := false; in_str := true |}
  else if startswith [DQUOTE] line && endswith [DQUOTE] line then
    val <- unescape (slice line 1 (-1)) ;;
    if in_id st then
      x <- iadd (cur_id st) val ;;
      Ok {| pairs := pairs st; cur_id := x; cur_str := cur_str st;
            in_id := in_id st; in_str := in_str st |}
    else if in_str st then
      x <- iadd (cur_str st) val ;;
      Ok {| pairs := pairs st; cur_id := cur_id st; cur_str := x;
            in_id := in_id st; in_str := in_str st |}
    else Ok st
  else Ok st.

Fixpoint parse_lines (st : po_state) (f : list str) : res po_state :=
  match f with
  | [] => Ok st
  | line :: f' => st' <- parse_line st line ;; parse_lines st' f'
  end.

(** [parse_po], on the lines that iterating over the opened file yields. *)
Definition parse_po (f : list str) : res (list (str * str)) :=
  st <- parse_lines po_init f ;;
  Ok (pairs (save st)).

(** The lines that a file opened in text mode (universal newlines) yields:
    each of CR LF, CR and LF ends a line and is delivered as LF. *)
Fixpoint text_lines_aux (cur : str) (text : str) : list str :=
  match text with
  | [] => match cur with [] => [] | _ => [rev cur] end
  | c :: text' =>
      if c =? LF then rev (LF :: cur) :: text_lines_aux [] text'
      else if c =? CR then
        match text' with
        | d :: text'' =>
            if d =? LF then rev (LF :: cur) :: text_lines_aux [] text''
            else rev (LF :: cur) :: text_lines_aux [] text'
        | [] => [rev (LF :: cur)]
        end
      else text_lines_aux (c :: cur) text'
  end.

Definition text_lines (text : str) : list str := text_lines_aux [] text.

(** ** UTF-8 encoding, [struct.pack] and byte order *)

Definition byte_of_N (n : N) : byte :=
  match Byte.of_N (n mod 256) with
  | Some b => b
  | None => Byte.x00
  end.

(** The UTF-8 encoding of one code point.  Surrogates cannot be encoded;
    values from 0x110000 on are not code points (no Python string holds
    them) and are rejected in the same way. *)
Definition encode_char (c : char) : res bytes :=
  if c <? 0x80 then
    Ok [byte_of_N c]
  else if c <? 0x800 then
    Ok [byte_of_N (0xC0 + c / 64); byte_of_N (0x80 + c mod 64)]
  else if (0xD800 <=? c) && (c <=? 0xDFFF) then
    Err UnicodeEncodeError
  else if c <? 0x10000 then
    Ok [byte_of_N (0xE0 + c / 4096); byte_of_N (0x80 + (c / 64) mod 64);
        byte_of_N (0x80 + c mod 64)]
  else if c <? 0x110000 then
    Ok [byte_of_N (0xF0 + c / 262144); byte_of_N (0x80 + (c / 4096) mod 64);
        byte_of_N (0x80 + (c / 64) mod 64); byte_of_N (0x80 + c mod 64)]
  else Err UnicodeEncodeError.

(** [s.encode('utf-8')]. *)
Fixpoint encode (s : str) : res bytes :=
  match s with
  | [] => Ok []
  | c :: s' => b <- encode_char c ;; bs <- encode s' ;; Ok (b ++ bs)
  end.

(** One [I] field of [struct.pack('<...I', ...)]: four bytes, least
    significant first; a value that does not fit raises [struct.error]. *)
Definition pack_u32 (v : N) : res bytes :=
  if v <? 2 ^ 32 then
    Ok [byte_of_N v; byte_of_N (v / 256); byte_of_N (v / 65536);
        byte_of_N (v / 16777216)]
  else Err StructError.

(** [struct.pack('<nI', v1, ..., vn)]. *)
Fixpoint pack_I (vs : list N) : res bytes :=
  match vs with
  | [] => Ok []
  | v :: vs' => b <- pack_u32 v ;; bs <- pack_I vs' ;; Ok (b ++ bs)
  end.

(** Comparison of [bytes] objects: lexicographic on the unsigned values. *)
Fixpoint bytes_ltb (a b : bytes) : bool :=
  match a, b with
  | _, [] => false
  | [], _ :: _ => true
  | x :: a', y :: b' =>
      (Byte.to_N x <? Byte.to_N y)
      || ((Byte.to_N x =? Byte.to_N y) && bytes_ltb a' b')
  end.

Definition bytes_leb (a b : bytes) : bool := negb (bytes_ltb b a).

Definition bytes_eqb (a b : bytes) : bool :=
  if list_eq_dec Byte.byte_eq_dec a b then true else false.

(** ** [list.sort(key=...)] *)

(** [list.sort] is stable and compares keys with [<] only.  It is modelled
    by the insertion sort that puts an element in front of the first element
    whose key is not smaller: elements with equal keys keep their order. *)
Section Sort.
Context {A : Type}.

Fixpoint insert_keyed (x : bytes * A) (l : list (bytes * A))
  : list (bytes * A) :=
  match l with
  | [] => [x]
  | y :: l' =>
      if bytes_ltb (fst y) (fst x) then y :: insert_keyed x l'
      else x :: l
  end.

Fixpoint sort_keyed (l : list (bytes * A)) : list (bytes * A) :=
  match l with
  | [] => []
  | x :: l' => insert_keyed x (sort_keyed l')
  end.

(** The keys are computed first, for all elements, in list order. *)
Fixpoint keyed (key : A -> res bytes) (l : list A)
  : res (list (bytes * A)) :=
  match l with
  | [] => Ok []
  | x :: l' => k <- key x ;; r <- keyed key l' ;; Ok ((k, x) :: r)
  end.

Definition sort_by (key : A -> res bytes) (l : list A) : res (list A) :=
  d <- keyed key l ;;
  Ok (map snd (sort_keyed d)).
End Sort.

(** ** The output file *)

(** A computation that writes to the opened file: it takes the bytes
    written so far and returns the bytes written after it, also when it
    raises. *)
Definition io (A : Type) : Type := bytes -> bytes * res A.

Definition io_ret {A : Type} (a : A) : io A := fun f => (f, Ok a).

Definition io_bind {A B : Type} (m : io A) (k : A -> io B) : io B :=
  fun f =>
    match m f with
    | (f', inl e) => (f', inl e)
    | (f', inr a) => k a f'
    end.

(** Evaluating an argument may raise before anything is written. *)
Definition io_lift {A : Type} (r : res A) : io A := fun f => (f, r).

(** [f.write(b)]. *)
Definition write (b : bytes) : io unit := fun f => (f ++ b, Ok tt).

Notation "x <~ m ;; k" := (io_bind m (fun x => k))
  (at level 61, m at next level, right associativity).
Notation "m ;;; k" := (io_bind m (fun _ => k))
  (at level 61, right associativity).

(** [for x in l: body(x)]. *)
Fixpoint for_each {A : Type} (l : list A) (body : A -> io unit) : io unit :=
  match l with
  | [] => io_ret tt
  | x :: l' => body x ;;; for_each l' body
  end.

(** ** [make_mo]

    The locals [N], [O], [T], [S], [H] are written [N_], [O_], [T_], [S_],
    [H_]: [O] and [S] are the constructors of [nat]. *)

(** What a call of [make_mo] leaves behind: the content of the output file
    ([None] when the file was never opened) and either the exception raised
    or the two numbers of the printed summary. *)
Record outcome : Type := mk_outcome {
  out_file : option bytes;
  out_result : res (N * N)
}.

(** The loops that fill [orig_meta] and [trans_meta]. *)
Fixpoint meta_loop (strs : list str) (meta : list (N * N)) (pos : N)
  : res (list (N * N) * N) :=
  match strs with
  | [] => Ok (meta, pos)
  | k :: strs' =>
      b <- encode k ;;
      meta_loop strs' (meta ++ [(len b, pos)]) (pos + (len b + 1))
  end.

Definition MAGIC : N := 0x950412de.

(** The condition of the list comprehension at the head of [make_mo]. *)
Definition keep (p : str * str) : bool :=
  let '(k, v) := p in truthy v || str_eqb k [].

Definition make_mo (pairs : list (str * str)) : outcome :=
  let pairs := filter keep pairs in
  match
    pairs <- sort_by (fun x => encode (fst x)) pairs ;;
    let N_ := len pairs in
    let O_ := 28 in
    let T_ := O_ + N_ * 8 in
    let S_ := 0 in
    let H_ := T_ + N_ * 8 in
    '(orig_meta, pos) <- meta_loop (map fst pairs) [] H_ ;;
    '(trans_meta, pos) <- meta_loop (map snd pairs) [] pos ;;
    Ok (pairs, (N_, O_, T_, S_, H_), (orig_meta, trans_meta, pos))
  with
  | inl e => {| out_file := None; out_result := Err e |}
  | inr (pairs, (N_, O_, T_, S_, H_), (orig_meta, trans_meta, pos)) =>
      let body : io unit :=
        (h <~ io_lift (pack_I [MAGIC; 0; N_; O_; T_; S_; H_]) ;; write h) ;;;
        for_each orig_meta (fun '(length, offset) =>
          b <~ io_lift (pack_I [length; offset]) ;; write b) ;;;
        for_each trans_meta (fun '(length, offset) =>
          b <~ io_lift (pack_I [length; offset]) ;; write b) ;;;
        for_each pairs (fun '(k, _) =>
          b <~ io_lift (encode k) ;; write (b ++ [NUL])) ;;;
        for_each pairs (fun '(_, v) =>
          b <~ io_lift (encode v) ;; write (b ++ [NUL])) in
      let '(f, r) := body [] in
      {| out_file := Some f; out_result := _ <- r ;; Ok (N_, pos) |}
  end.

(** [make_mo pairs] returned normally and left [file] behind. *)
Definition produces (pairs : list (str * str)) (file : bytes) : Prop :=
  exists summary,
    make_mo pairs = {| out_file := Some file; out_result := Ok summary |}.

(* ================================================================== *)
(** * Part II: definitions used to state the properties *)
(* ================================================================== *)

(** ** The function that the loop of [unescape] computes

    [unescape_chars] is the result of the loop by recursion on the part of
    the string that is still to be scanned; [unescape_loop_spec] proves that
    the loop computes it. *)
Fixpoint unescape_chars (s : str) : str :=
  match s with
  | [] => []
  | c0 :: s' =>
      if c0 =? BACKSLASH then
        match s' with
        | [] => [c0]
        | c :: s'' =>
            if c =? CH_n then LF :: unescape_chars s''
            else if c =? CH_t then TAB :: unescape_chars s''
            else if c =? CH_r then CR :: unescape_chars s''
            else if c =? DQUOTE then DQUOTE :: unescape_chars s''
            else if c =? BACKSLASH then BACKSLASH :: unescape_chars s''
            else BACKSLASH :: c :: unescape_chars s''
        end
      else c0 :: unescape_chars s'
  end.

(** The scan of [s] ends on a backslash that has no character to pair
    with. *)
Fixpoint dangling (s : str) : bool :=
  match s with
  | [] => false
  | c0 :: s' =>
      if c0 =? BACKSLASH then
        match s' with
        | [] => true
        | _ :: s'' => dangling s''
        end
      else dangling s'
  end.

(** The five characters that form an escape after a backslash. *)
Definition is_escape_letter (c : char) : bool :=
  (c =? CH_n) || (c =? CH_t) || (c =? CH_r) || (c =? DQUOTE)
  || (c =? BACKSLASH).

(** The strings that do not end in a backslash. *)
Definition no_final_backslash (p : str) : Prop :=
  p = [] \/ exists q c, p = q ++ [c] /\ c <> BACKSLASH.

(** ** Quoted payload, in the words of the specification

    Everything between the first and the last quote character of a line
    (empty when the line has fewer than two quote characters). *)
Definition between_quotes (line : str) : str :=
  match dropwhile (fun c => negb (c =? DQUOTE)) line with
  | [] => []
  | _ :: after_first =>
      match dropwhile (fun c => negb (c =? DQUOTE)) (rev after_first) with
      | [] => []
      | _ :: before_last => rev before_last
      end
  end.

(** A string in double quotes. *)
Definition quoted (p : str) : str := DQUOTE :: p ++ [DQUOTE].

(** Classification of a line as [parse_line] sees it, after the line end
    is removed. *)
Definition chomp (line : str) : str := rstrip [CR; LF] line.

Definition is_skipped (line : str) : bool :=
  startswith (py "#") (chomp line) || negb (truthy (strip (chomp line))).

Definition is_msgid (line : str) : bool :=
  negb (is_skipped line) && startswith (py "msgid ") (chomp line).

Definition is_msgstr (line : str) : bool :=
  negb (is_skipped line) && negb (startswith (py "msgid ") (chomp line))
  && startswith (py "msgstr ") (chomp line).

(** The state that a [msgid] line leaves. *)
Definition fresh (ps : list (str * str)) (k : str) : po_state :=
  {| pairs := ps; cur_id := Some k; cur_str := None;
     in_id := true; in_str := false |}.

(** The state with [cur_str] set, as a [msgstr] line leaves it. *)
Definition with_str (st : po_state) (v : str) : po_state :=
  {| pairs := pairs st; cur_id := cur_id st; cur_str := Some v;
     in_id := false; in_str := true |}.

(** [ps] in front of the entries saved so far. *)
Definition add_pairs (ps : list (str * str)) (st : po_state) : po_state :=
  {| pairs := ps ++ pairs st; cur_id := cur_id st; cur_str := cur_str st;
     in_id := in_id st; in_str := in_str st |}.

(** The field that a mode flag points to has been set. *)
Definition po_inv (st : po_state) : Prop :=
  (in_id st = true -> cur_id st <> None) /\
  (in_str st = true -> cur_str st <> None).

(** What a continuation line does with its unescaped content [val]. *)
Definition append_current (st : po_state) (val : str) : res po_state :=
  if in_id st then
    x <- iadd (cur_id st) val ;;
    Ok {| pairs := pairs st; cur_id := x; cur_str := cur_str st;
          in_id := in_id st; in_str := in_str st |}
  else if in_str st then
    x <- iadd (cur_str st) val ;;
    Ok {| pairs := pairs st; cur_id := cur_id st; cur_str := x;
          in_id := in_id st; in_str := in_str st |}
  else Ok st.

(** A bare quoted string: the line, without its line end, starts and ends
    with a quote character. *)
Definition is_bare_quoted (line : str) : bool :=
  startswith [DQUOTE] (chomp line) && endswith [DQUOTE] (chomp line).

(** A line end: any number of CR and LF characters. *)
Definition is_eol (eol : str) : bool := forallb (fun c => mem c [CR; LF]) eol.

Definition is_some {A : Type} (x : option A) : bool :=
  match x with
  | Some _ => true
  | None => false
  end.

(** ** The byte order and the layout, for the statements *)

Definition bytes_le (a b : bytes) : Prop := bytes_leb a b = true.

(** [[s.encode('utf-8') for s in l]]. *)
Fixpoint encode_all (l : list str) : res (list bytes) :=
  match l with
  | [] => Ok []
  | s :: l' => b <- encode s ;; bs <- encode_all l' ;; Ok (b :: bs)
  end.

(** The bytes that a list of strings takes in the file, each with its
    NUL. *)
Definition data (bs : list bytes) : bytes :=
  flat_map (fun b => b ++ [NUL]) bs.

(** The size of [data bs], as a Python integer. *)
Fixpoint data_size (bs : list bytes) : N :=
  match bs with
  | [] => 0
  | b :: bs' => (len b + 1) + data_size bs'
  end.

(** Four bytes, least significant first. *)
Definition u32le (v : N) : bytes :=
  [byte_of_N v; byte_of_N (v / 256); byte_of_N (v / 65536);
   byte_of_N (v / 16777216)].

(** The (length, offset) entries of strings stored one after the other
    from position [pos] on. *)
Fixpoint metas (pos : N) (bs : list bytes) : list (N * N) :=
  match bs with
  | [] => []
  | b :: bs' => (len b, pos) :: metas (pos + (len b + 1)) bs'
  end.

Definition table (m : list (N * N)) : bytes :=
  flat_map (fun e => u32le (fst e) ++ u32le (snd e)) m.

(** The position where the string data starts in a file of [n] entries. *)
Definition data_start (n : N) : N := 28 + n * 8 + n * 8.

Definition header (n : N) : bytes :=
  flat_map u32le [MAGIC; 0; n; 28; 28 + n * 8; 0; data_start n].

(** The file for the encoded originals [ks] and translations [vs]. *)
Definition image (ks vs : list bytes) : bytes :=
  let h := data_start (len ks) in
  header (len ks) ++ table (metas h ks)
  ++ table (metas (h + data_size ks) vs) ++ data ks ++ data vs.

(** Every number that is packed fits in 32 bits. *)
Definition fit (v : N) : bool := v <? 2 ^ 32.

Definition fit2 (e : N * N) : bool := fit (fst e) && fit (snd e).

Definition all_fit (ks vs : list bytes) : bool :=
  let n := len ks in
  let h := data_start n in
  forallb fit [MAGIC; 0; n; 28; 28 + n * 8; 0; h]
  && forallb fit2 (metas h ks)
  && forallb fit2 (metas (h + data_size ks) vs).

(** The bodies of the four writing loops of [make_mo]. *)
Definition write_entry (e : N * N) : io unit :=
  let '(length, offset) := e in
  b <~ io_lift (pack_I [length; offset]) ;; write b.

Definition write_string {A : Type} (proj : A -> str) (p : A) : io unit :=
  b <~ io_lift (encode (proj p)) ;; write (b ++ [NUL]).

Definition write_orig (p : str * str) : io unit :=
  let '(k, _) := p in b <~ io_lift (encode k) ;; write (b ++ [NUL]).

Definition write_trans (p : str * str) : io unit :=
  let '(_, v) := p in b <~ io_lift (encode v) ;; write (b ++ [NUL]).

(** Everything that [make_mo] does once the file is open. *)
Definition write_all (hdr : list N) (orig_meta trans_meta : list (N * N))
           (pairs : list (str * str)) : io unit :=
  (h <~ io_lift (pack_I hdr) ;; write h) ;;;
  for_each orig_meta write_entry ;;;
  for_each trans_meta write_entry ;;;
  for_each pairs write_orig ;;;
  for_each pairs write_trans.

(** ** A reference reader of MO files

    The program only writes MO files.  The reader below is the independent
    reader that the properties of the encoder refer to: it follows the
    layout of the format (magic number, entry count, the offsets of the two
    tables, length and offset of every string, NUL after every string) and
    looks at nothing but the bytes of the file. *)

Definition obind {A B : Type} (m : option A) (k : A -> option B) : option B :=
  match m with
  | Some a => k a
  | None => None
  end.

Notation "x <-? m ;; k" := (obind m (fun x => k))
  (at level 61, m at next level, right associativity).

(** The unsigned little-endian 32-bit integer at byte offset [off]. *)
Definition u32_at (file : bytes) (off : nat) : option N :=
  match firstn 4 (skipn off file) with
  | [b0; b1; b2; b3] =>
      Some (Byte.to_N b0 + 256 * Byte.to_N b1 + 65536 * Byte.to_N b2
            + 16777216 * Byte.to_N b3)
  | _ => None
  end.

(** The [n] bytes at offset [off], which must lie inside the file and be
    followed by a NUL byte. *)
Definition string_at (file : bytes) (off n : nat) : option bytes :=
  let s := firstn n (skipn off file) in
  if (length s =? n)%nat then
    match nth_error file (off + n) with
    | Some b => if Byte.eqb b NUL then Some s else None
    | None => None
    end
  else None.

(** The strings of the [n] entries of the table that starts at [base]. *)
Fixpoint read_table (file : bytes) (base n : nat) : option (list bytes) :=
  match n with
  | O => Some []
  | S n' =>
      l <-? u32_at file base ;;
      o <-? u32_at file (base + 4) ;;
      s <-? string_at file (N.to_nat o) (N.to_nat l) ;;
      r <-? read_table file (base + 8) n' ;;
      Some (s :: r)
  end.

(** The byte strings of the catalog, in table order. *)
Definition mo_read_bytes (file : bytes) : option (list (bytes * bytes)) :=
  magic <-? u32_at file 0 ;;
  revision <-? u32_at file 4 ;;
  n <-? u32_at file 8 ;;
  o <-? u32_at file 12 ;;
  t <-? u32_at file 16 ;;
  if (magic =? MAGIC) && (revision =? 0) then
    ks <-? read_table file (N.to_nat o) (N.to_nat n) ;;
    vs <-? read_table file (N.to_nat t) (N.to_nat n) ;;
    Some (combine ks vs)
  else None.

(** The table entry [e] = (length, offset) points to the string [b] of the
    file, which is followed by NUL. *)
Definition points_to (file : bytes) (e : N * N) (b : bytes) : Prop :=
  fst e = len b /\
  string_at file (N.to_nat (snd e)) (N.to_nat (fst e)) = Some b.

(** The characters that UTF-8 can encode: the code points that are not
    surrogates. *)
Definition is_scalar (c : char) : bool :=
  (c <? 0xD800) || ((0xDFFF <? c) && (c <? 0x110000)).

Definition encodable (s : str) : bool := forallb is_scalar s.

Definition pair_encodable (p : str * str) : Prop :=
  encodable (fst p) = true /\ encodable (snd p) = true.

(** Every string that the parser holds can be encoded. *)
Definition state_encodable (st : po_state) : Prop :=
  Forall pair_encodable (pairs st) /\
  (forall k, cur_id st = Some k -> encodable k = true) /\
  (forall v, cur_str st = Some v -> encodable v = true).

(** A strict UTF-8 decoder: shortest form only, no surrogates, nothing
    above U+10FFFF. *)
Definition is_cont (b : byte) : bool :=
  (0x80 <=? Byte.to_N b) && (Byte.to_N b <? 0xC0).

Fixpoint decode (bs : bytes) : option str :=
  match bs with
  | [] => Some []
  | b0 :: r0 =>
      let n0 := Byte.to_N b0 in
      if n0 <? 0x80 then option_map (cons n0) (decode r0)
      else if n0 <? 0xC0 then None
      else if n0 <? 0xE0 then
        match r0 with
        | b1 :: r1 =>
            let c := (n0 - 0xC0) * 64 + (Byte.to_N b1 - 0x80) in
            if is_cont b1 && (0x80 <=? c) then
              option_map (cons c) (decode r1)
            else None
        | _ => None
        end
      else if n0 <? 0xF0 then
        match r0 with
        | b1 :: b2 :: r2 =>
            let c := (n0 - 0xE0) * 4096 + (Byte.to_N b1 - 0x80) * 64
                     + (Byte.to_N b2 - 0x80) in
            if is_cont b1 && is_cont b2 && (0x800 <=? c)
               && negb ((0xD800 <=? c) && (c <=? 0xDFFF)) then
              option_map (cons c) (decode r2)
            else None
        | _ => None
        end
      else if n0 <? 0xF8 then
        match r0 with
        | b1 :: b2 :: b3 :: r3 =>
            let c := (n0 - 0xF0) * 262144 + (Byte.to_N b1 - 0x80) * 4096
                     + (Byte.to_N b2 - 0x80) * 64 + (Byte.to_N b3 - 0x80) in
            if is_cont b1 && is_cont b2 && is_cont b3 && (0x10000 <=? c)
               && (c <? 0x110000) then
              option_map (cons c) (decode r3)
            else None
        | _ => None
        end
      else None
  end.

Fixpoint decode_pairs (l : list (bytes * bytes)) : option (list (str * str)) :=
  match l with
  | [] => Some []
  | (k, v) :: l' =>
      k' <-? decode k ;;
      v' <-? decode v ;;
      r <-? decode_pairs l' ;;
      Some ((k', v') :: r)
  end.

(** The catalog that the reader finds in a file. *)
Definition mo_read (file : bytes) : option (list (str * str)) :=
  raw <-? mo_read_bytes file ;;
  decode_pairs raw.

(** The entries that [make_mo] encodes: the value of its local [pairs]
    after the list comprehension and the sort. *)
Definition kept (pairs : list (str * str)) : res (list (str * str)) :=
  sort_by (fun x => encode (fst x)) (filter keep pairs).

(* ================================================================== *)
(** * Part II, continued: the command line and the text of a catalog *)
(* ================================================================== *)

(** ** The main block

    The program is run with the argument vector [argv] in a world that
    says which paths can be opened for reading, with which content, which
    can be opened for writing, which lines [print] takes, and whether the
    standard streams can be flushed when the interpreter exits.  A file
    that has been opened for writing takes every write. *)

Record world : Type := mk_world {
  readable : str -> option bytes;   (* [None]: [open(path)] raises *)
  writable : str -> bool;           (* [false]: [open(path, 'wb')] raises *)
  printable : str -> bool;          (* [false]: [print(line)] raises *)
  flushable : bool                  (* [false]: the flush at exit fails *)
}.

(** The exceptions that reach the top level. *)
Inductive failure : Type :=
| OSError                 (* a file cannot be opened *)
| UnicodeDecodeError      (* the input is not UTF-8 *)
| PrintError              (* raised by [print]: the line cannot be encoded
                             for standard output, or cannot be written *)
| Raised (e : exn).       (* raised by [parse_po] or [make_mo] *)

(** How the script ends. *)
Inductive ending : Type :=
| Finished                (* the end of the script *)
| SysExit (status : N)    (* [sys.exit(status)] *)
| Traceback (f : failure). (* an uncaught exception *)

(** The exit status of the process: the interpreter flushes the standard
    streams when it exits, and reports 120 when that fails, whatever the
    way the script ended; otherwise 0 at the end of the script, the
    argument of [sys.exit], and 1 after an uncaught exception. *)
Definition exit_status (w : world) (e : ending) : N :=
  if flushable w then
    match e with
    | Finished => 0
    | SysExit status => status
    | Traceback _ => 1
    end
  else 120.

(** What a run leaves: the lines that [print] took, the file written (its
    path and content, [None] when no file was opened for writing) and the
    ending. *)
Record run : Type := mk_run {
  stdout : list str;
  dest : option (str * bytes);
  ending_of : ending
}.

(** [str(n)] for a non-negative integer. *)
Definition decimal (n : N) : str :=
  py (DecimalString.NilZero.string_of_uint (N.to_uint n)).

Definition usage : str := py "Usage: make-mo.py <input.po> <output.mo>".

(** The line that [make_mo] prints. *)
Definition generated (out_path : str) (summary : N * N) : str :=
  let '(N_, pos) := summary in
  py "Generated: " ++ out_path ++ py "  (" ++ decimal N_ ++ py " entries, "
  ++ decimal pos ++ py " bytes)".

(** [make_mo(pairs, out_path)] in a world: the exceptions of the encoding
    come before the file is opened, [struct.error] while it is written,
    and the summary is printed after it has been closed. *)
Definition make_mo_at (w : world) (pairs : list (str * str)) (out_path : str)
  : run :=
  let o := make_mo pairs in
  match out_file o with
  | None =>
      match out_result o with
      | inl e => {| stdout := []; dest := None; ending_of := Traceback (Raised e) |}
      | inr _ => {| stdout := []; dest := None; ending_of := Finished |}
      end
  | Some f =>
      if writable w out_path then
        match out_result o with
        | inl e =>
            {| stdout := []; dest := Some (out_path, f);
               ending_of := Traceback (Raised e) |}
        | inr summary =>
            if printable w (generated out_path summary) then
              {| stdout := [generated out_path summary];
                 dest := Some (out_path, f); ending_of := Finished |}
            else
              {| stdout := []; dest := Some (out_path, f);
                 ending_of := Traceback PrintError |}
        end
      else {| stdout := []; dest := None; ending_of := Traceback OSError |}
  end.

(** The block under [if __name__ == '__main__']. *)
Definition main (w : world) (argv : list str) : run :=
  if negb (len argv =? 3) then
    if printable w usage then
      {| stdout := [usage]; dest := None; ending_of := SysExit 1 |}
    else
      {| stdout := []; dest := None; ending_of := Traceback PrintError |}
  else
    match nth_error argv 1, nth_error argv 2 with
    | Some po_path, Some mo_path =>
        match readable w po_path with
        | None => {| stdout := []; dest := None; ending_of := Traceback OSError |}
        | Some content =>
            match decode content with
            | None =>
                {| stdout := []; dest := None;
                   ending_of := Traceback UnicodeDecodeError |}
            | Some text =>
                match parse_po (text_lines text) with
                | inl e =>
                    {| stdout := []; dest := None;
                       ending_of := Traceback (Raised e) |}
                | inr pairs => make_mo_at w pairs mo_path
                end
            end
        end
    | _, _ => {| stdout := []; dest := None;
                 ending_of := Traceback (Raised IndexError) |}
    end.

(** ** Writing a catalog as text

    The usual way to write a string as a payload: the inverse of
    [unescape]. *)
Fixpoint escape (t : str) : str :=
  match t with
  | [] => []
  | c :: t' =>
      if c =? LF then BACKSLASH :: CH_n :: escape t'
      else if c =? TAB then BACKSLASH :: CH_t :: escape t'
      else if c =? CR then BACKSLASH :: CH_r :: escape t'
      else if c =? DQUOTE then BACKSLASH :: DQUOTE :: escape t'
      else if c =? BACKSLASH then BACKSLASH :: BACKSLASH :: escape t'
      else c :: escape t'
  end.

(** A field of an entry written in fragments: the first one on the keyword
    line, the others on continuation lines. *)
Definition fragments : Type := (str * list str)%type.

Definition field_value (fr : fragments) : str := fst fr ++ concat (snd fr).

Definition keyword_line (keyword payload : str) : str :=
  keyword ++ quoted (escape payload) ++ [LF].

Definition continuation_line (payload : str) : str :=
  quoted (escape payload) ++ [LF].

Definition render_field (keyword : str) (fr : fragments) : list str :=
  keyword_line keyword (fst fr) :: map continuation_line (snd fr).

Definition render_entry (e : fragments * fragments) : list str :=
  render_field (py "msgid ") (fst e) ++ render_field (py "msgstr ") (snd e).

(** The lines of a catalog, and the entries that they spell. *)
Definition render (es : list (fragments * fragments)) : list str :=
  flat_map render_entry es.

Definition entries_of (es : list (fragments * fragments)) : list (str * str) :=
  map (fun e => (field_value (fst e), field_value (snd e))) es.

(** The lines that the loop body leaves alone without being comments or
    blank: no keyword with its space, and not a bare quoted string. *)
Definition is_other (line : str) : bool :=
  negb (is_skipped line) && negb (is_msgid line) && negb (is_msgstr line)
  && negb (is_bare_quoted line).

(** No character of the string is a line end. *)
Definition one_line (s : str) : bool :=
  forallb (fun c => negb (mem c [CR; LF])) s.

(** The strict order on [bytes]. *)
Definition bytes_lt (a b : bytes) : Prop := bytes_ltb a b = true.

(* ================================================================== *)
(** * Part III: properties *)
(* ================================================================== *)

(** ** The error monad *)

Lemma rbind_Ok {A B : Type} (a : A) (k : A -> res B) :
  rbind (Ok a) k = k a.
Proof. reflexivity. Qed.

Lemma rbind_inv {A B : Type} (m : res A) (k : A -> res B) (b : B) :
  rbind m k = Ok b -> exists a, m = Ok a /\ k a = Ok b.
Proof.
  destruct m as [e | a]; simpl; intros H.
  - discriminate H.
  - exists a. split; [reflexivity | exact H].
Qed.

(** ** [unescape] *)

Section Unescape.

Lemma getitem_middle (pre suf : str) (c : char) :
  getitem (pre ++ c :: suf) (length pre) = Ok c.
Proof.
  unfold getitem.
  rewrite nth_error_app2 by apply Nat.le_refl.
  rewrite Nat.sub_diag. reflexivity.
Qed.

Lemma shift_one (pre suf : str) (c : char) :
  pre ++ c :: suf = (pre ++ [c]) ++ suf.
Proof. rewrite <- app_assoc. reflexivity. Qed.

Lemma length_snoc (pre : str) (c : char) :
  length (pre ++ [c]) = (length pre + 1)%nat.
Proof. rewrite length_app. reflexivity. Qed.

(** The loop invariant: with [pre] scanned and [suf] to go, and at least
    [length suf] iterations allowed, the loop ends normally and appends
    [unescape_chars suf] to [result]. *)
Lemma unescape_loop_spec (fuel : nat) :
  forall (pre suf : str) (result : list char),
    (length suf <= fuel)%nat ->
    unescape_loop fuel (pre ++ suf) result (length pre)
    = Ok (result ++ unescape_chars suf).
Proof.
  induction fuel as [| fuel IH]; intros pre suf result Hfuel.
  - destruct suf; [| simpl in Hfuel; lia].
    simpl. rewrite app_nil_r, Nat.ltb_irrefl, app_nil_r. reflexivity.
  - destruct suf as [| c0 suf].
    + simpl. rewrite app_nil_r, Nat.ltb_irrefl, app_nil_r. reflexivity.
    + cbn [unescape_loop].
      replace (length pre <? length (pre ++ c0 :: suf))%nat with true
        by (symmetry; apply Nat.ltb_lt; rewrite length_app; simpl; lia).
      rewrite getitem_middle. rewrite rbind_Ok.
      destruct (c0 =? BACKSLASH) eqn:Hc0.
      * destruct suf as [| c suf].
        -- replace (length pre + 1 <? length (pre ++ [c0]))%nat with false
             by (symmetry; apply Nat.ltb_ge; rewrite length_app; simpl; lia).
           cbn [andb]. rewrite rbind_Ok.
           rewrite <- length_snoc with (c := c0).
           pose proof (IH (pre ++ [c0]) [] (result ++ [c0])) as E.
           rewrite app_nil_r in E. rewrite E by (simpl; lia).
           simpl. rewrite Hc0. rewrite app_nil_r. reflexivity.
        -- replace (length pre + 1 <? length (pre ++ c0 :: c :: suf))%nat
             with true
             by (symmetry; apply Nat.ltb_lt; rewrite length_app; simpl; lia).
           cbn [andb].
           rewrite (shift_one pre (c :: suf) c0).
           rewrite <- length_snoc with (c := c0).
           rewrite getitem_middle. rewrite rbind_Ok.
           rewrite (shift_one (pre ++ [c0]) suf c).
           replace (length pre + 2)%nat
             with (length ((pre ++ [c0]) ++ [c]))
             by (rewrite !length_app; simpl; lia).
           rewrite IH by (simpl in Hfuel; lia).
           cbn [unescape_chars]. rewrite Hc0.
           destruct (c =? CH_n); [rewrite <- app_assoc; reflexivity |].
           destruct (c =? CH_t); [rewrite <- app_assoc; reflexivity |].
           destruct (c =? CH_r); [rewrite <- app_assoc; reflexivity |].
           destruct (c =? DQUOTE); [rewrite <- app_assoc; reflexivity |].
           destruct (c =? BACKSLASH); [rewrite <- app_assoc; reflexivity |].
           rewrite <- !app_assoc. reflexivity.
      * cbn [andb]. rewrite rbind_Ok.
        rewrite (shift_one pre suf c0).
        rewrite <- length_snoc with (c := c0).
        rewrite IH by (simpl in Hfuel; lia).
        cbn [unescape_chars]. rewrite Hc0.
        rewrite <- app_assoc. reflexivity.
Qed.

(** [unescape] never raises and never exhausts its iteration bound. *)
Lemma unescape_eq (s : str) : unescape s = Ok (unescape_chars s).
Proof.
  unfold unescape.
  apply (unescape_loop_spec (length s) [] s []), Nat.le_refl.
Qed.

(** More iterations than [len(s)] change nothing. *)
Lemma unescape_fuel (s : str) (fuel : nat) :
  (length s <= fuel)%nat -> unescape_loop fuel s [] 0 = unescape s.
Proof.
  intros H. rewrite unescape_eq.
  apply (unescape_loop_spec fuel [] s [] H).
Qed.

End Unescape.

Section UnescapeEquations.

(** Induction that follows the scan: one or two characters at a time. *)
Lemma scan_ind (P : str -> Prop) :
  P [] ->
  (forall c, P [c]) ->
  (forall c0 c s, P s -> P (c :: s) -> P (c0 :: c :: s)) ->
  forall s, P s.
Proof.
  intros Hnil Hone Hstep s.
  enough (H : P s /\ forall c, P (c :: s)) by apply H.
  induction s as [| c s [IH1 IH2]]; split; auto.
Qed.

Lemma unescape_chars_cons (c0 : char) (s' : str) :
  unescape_chars (c0 :: s') =
  if c0 =? BACKSLASH then
    match s' with
    | [] => [c0]
    | c :: s'' =>
        if c =? CH_n then LF :: unescape_chars s''
        else if c =? CH_t then TAB :: unescape_chars s''
        else if c =? CH_r then CR :: unescape_chars s''
        else if c =? DQUOTE then DQUOTE :: unescape_chars s''
        else if c =? BACKSLASH then BACKSLASH :: unescape_chars s''
        else BACKSLASH :: c :: unescape_chars s''
    end
  else c0 :: unescape_chars s'.
Proof. reflexivity. Qed.

Lemma dangling_cons (c0 : char) (s' : str) :
  dangling (c0 :: s') =
  if c0 =? BACKSLASH then
    match s' with
    | [] => true
    | _ :: s'' => dangling s''
    end
  else dangling s'.
Proof. reflexivity. Qed.

Lemma unescape_chars_app (s t : str) :
  dangling s = false ->
  unescape_chars (s ++ t) = unescape_chars s ++ unescape_chars t.
Proof.
  induction s as [| c | c0 c s IH1 IH2] using scan_ind; intros Hd.
  - reflexivity.
  - simpl in Hd. cbn [app unescape_chars].
    destruct (c =? BACKSLASH); [discriminate Hd | reflexivity].
  - rewrite dangling_cons in Hd.
    change ((c0 :: c :: s) ++ t) with (c0 :: c :: (s ++ t)).
    rewrite (unescape_chars_cons c0 (c :: s ++ t)).
    rewrite (unescape_chars_cons c0 (c :: s)).
    destruct (c0 =? BACKSLASH).
    + rewrite (IH1 Hd).
      repeat match goal with
             | |- context [if ?b then _ else _] => destruct b
             end; reflexivity.
    + change (c :: s ++ t) with ((c :: s) ++ t).
      rewrite (IH2 Hd). reflexivity.
Qed.

Lemma dangling_app (s t : str) :
  dangling s = false -> dangling (s ++ t) = dangling t.
Proof.
  induction s as [| c | c0 c s IH1 IH2] using scan_ind; intros Hd.
  - reflexivity.
  - simpl in Hd. cbn [app dangling].
    destruct (c =? BACKSLASH); [discriminate Hd | reflexivity].
  - rewrite dangling_cons in Hd.
    change ((c0 :: c :: s) ++ t) with (c0 :: c :: (s ++ t)).
    rewrite (dangling_cons c0 (c :: s ++ t)).
    destruct (c0 =? BACKSLASH).
    + exact (IH1 Hd).
    + exact (IH2 Hd).
Qed.

(** After a character other than a backslash the scan is at a pair
    boundary. *)
Lemma dangling_snoc (q : str) (c : char) :
  c <> BACKSLASH -> dangling (q ++ [c]) = false.
Proof.
  intros Hc. apply N.eqb_neq in Hc.
  induction q as [| c1 | c0 c1 q IH1 IH2] using scan_ind.
  - simpl. rewrite Hc. reflexivity.
  - simpl. rewrite Hc. destruct (c1 =? BACKSLASH); reflexivity.
  - change ((c0 :: c1 :: q) ++ [c]) with (c0 :: c1 :: (q ++ [c])).
    rewrite (dangling_cons c0 (c1 :: q ++ [c])).
    destruct (c0 =? BACKSLASH); assumption.
Qed.

Lemma dangling_pairs (k : nat) : dangling (repeat BACKSLASH (2 * k)) = false.
Proof.
  induction k as [| k IH]; [reflexivity |].
  replace (2 * S k)%nat with (S (S (2 * k))) by lia.
  exact IH.
Qed.

Lemma unescape_chars_pairs (k : nat) :
  unescape_chars (repeat BACKSLASH (2 * k)) = repeat BACKSLASH k.
Proof.
  induction k as [| k IH]; [reflexivity |].
  replace (2 * S k)%nat with (S (S (2 * k))) by lia.
  cbn [repeat unescape_chars]. rewrite IH. reflexivity.
Qed.

End UnescapeEquations.

(** C9: Escape resolution.  For every string [s], [unescape] returns
    normally on [s], and with that result [r]: a character other than a
    backslash in front of [s] is copied; a backslash followed by [n], [t],
    [r], a double quote or a backslash in front of [s] gives LF, TAB, CR, a
    double quote or one backslash; a backslash followed by any other
    character [c] gives the backslash and [c], both unchanged.  So octal,
    hexadecimal and unicode escapes are not interpreted, and the payloads
    [a\tb] and [c\nd] resolve to a TAB b and c LF d, also as the payloads
    of a [msgid] and a [msgstr] line. *)
Theorem C9_escape_resolution :
  forall s : str, exists r : str,
    unescape s = Ok r /\
    (forall c, c <> BACKSLASH -> unescape (c :: s) = Ok (c :: r)) /\
    unescape (BACKSLASH :: CH_n :: s) = Ok (LF :: r) /\
    unescape (BACKSLASH :: CH_t :: s) = Ok (TAB :: r) /\
    unescape (BACKSLASH :: CH_r :: s) = Ok (CR :: r) /\
    unescape (BACKSLASH :: DQUOTE :: s) = Ok (DQUOTE :: r) /\
    unescape (BACKSLASH :: BACKSLASH :: s) = Ok (BACKSLASH :: r) /\
    (forall c, is_escape_letter c = false ->
               unescape (BACKSLASH :: c :: s) = Ok (BACKSLASH :: c :: r)) /\
    unescape [] = Ok [] /\
    unescape (py "a\tb") = Ok (py "a" ++ [TAB] ++ py "b") /\
    unescape (py "c\nd") = Ok (py "c" ++ [LF] ++ py "d") /\
    unescape (py "\101\x41A\0\N{DASH}") = Ok (py "\101\x41A\0\N{DASH}") /\
    parse_po [py "msgid " ++ quoted (py "a\tb") ++ [LF];
              py "msgstr " ++ quoted (py "c\nd") ++ [LF]]
    = Ok [(py "a" ++ [TAB] ++ py "b", py "c" ++ [LF] ++ py "d")].
Proof.
  intros s. exists (unescape_chars s).
  rewrite !unescape_eq.
  repeat split; try reflexivity.
  - intros c Hc. rewrite unescape_eq. apply N.eqb_neq in Hc.
    cbn [unescape_chars]. rewrite Hc. reflexivity.
  - intros c Hc. rewrite unescape_eq.
    unfold is_escape_letter in Hc.
    repeat (apply orb_false_iff in Hc; destruct Hc as [Hc ?]).
    cbn [unescape_chars].
    change (BACKSLASH =? BACKSLASH) with true. cbv iota.
    repeat match goal with
           | H : (c =? _) = false |- _ => rewrite H; clear H
           end.
    reflexivity.
Qed.

(** An escape at the head of a string, evaluated through the theorem. *)
Lemma C9_escape_resolution_witness :
  unescape (BACKSLASH :: 113 :: []) = Ok (BACKSLASH :: 113 :: []).
Proof.
  destruct (C9_escape_resolution []) as (r & Hr & _ & _ & _ & _ & _ & _ & H & _).
  injection Hr as <-. apply H. reflexivity.
Defined.

(** C10: Lone trailing backslash.  [unescape] returns normally on every
    string, within [len(s)] iterations of its loop; and when the scan of [s]
    ends at a pair boundary: in particular when [s] is a string that does
    not end in a backslash followed by an even number of backslashes: a
    further, final backslash is kept as it is. *)
Theorem C10_lone_trailing_backslash :
  (forall s, exists r, unescape s = Ok r) /\
  (forall s fuel, (length s <= fuel)%nat ->
                  unescape_loop fuel s [] 0 = unescape s) /\
  (forall s r, dangling s = false -> unescape s = Ok r ->
               unescape (s ++ [BACKSLASH]) = Ok (r ++ [BACKSLASH])) /\
  (forall p k r, no_final_backslash p -> unescape p = Ok r ->
     unescape (p ++ repeat BACKSLASH (2 * k) ++ [BACKSLASH])
     = Ok (r ++ repeat BACKSLASH k ++ [BACKSLASH])).
Proof.
  split; [| split; [| split]].
  - intros s. exists (unescape_chars s). apply unescape_eq.
  - intros s fuel. apply unescape_fuel.
  - intros s r Hd Hr. rewrite unescape_eq in *.
    injection Hr as <-.
    rewrite (unescape_chars_app s [BACKSLASH] Hd). reflexivity.
  - intros p k r Hp Hr. rewrite unescape_eq in *.
    injection Hr as <-.
    assert (Hd : dangling p = false).
    { destruct Hp as [-> | (q & c & -> & Hc)];
        [reflexivity | apply dangling_snoc, Hc]. }
    rewrite (unescape_chars_app p _ Hd).
    rewrite (unescape_chars_app _ [BACKSLASH] (dangling_pairs k)).
    rewrite unescape_chars_pairs. reflexivity.
Qed.

(** The string [ab\\\] (three backslashes): one pair, then a lone one. *)
Lemma C10_lone_trailing_backslash_witness :
  unescape (py "ab" ++ repeat BACKSLASH (2 * 1) ++ [BACKSLASH])
  = Ok (py "ab" ++ repeat BACKSLASH 1 ++ [BACKSLASH]).
Proof.
  destruct C10_lone_trailing_backslash as (_ & _ & _ & H).
  apply (H (py "ab") 1%nat (py "ab")).
  - right. exists (py "a"), 98. split; [reflexivity | discriminate].
  - reflexivity.
Defined.

(** ** Strings *)

Section Strings.

Lemma dropwhile_all {A : Type} (p : A -> bool) (a b : list A) :
  forallb p a = true -> dropwhile p (a ++ b) = dropwhile p b.
Proof.
  induction a as [| x a IH]; simpl; intros H; [reflexivity |].
  apply andb_true_iff in H. destruct H as [Hx Ha].
  rewrite Hx. exact (IH Ha).
Qed.

Lemma dropwhile_snoc_keep {A : Type} (p : A -> bool) (a : list A) (x : A) :
  p x = false -> exists y l, dropwhile p (a ++ [x]) = y :: l.
Proof.
  intros Hx. induction a as [| z a IH]; simpl.
  - rewrite Hx. eauto.
  - destruct (p z); [exact IH | eauto].
Qed.

Lemma forallb_rev {A : Type} (p : A -> bool) (l : list A) :
  forallb p (rev l) = forallb p l.
Proof.
  induction l as [| x l IH]; simpl; [reflexivity |].
  rewrite forallb_app, IH. simpl. rewrite andb_true_r. apply andb_comm.
Qed.

(** Removing the line end from a line that ends in a quote. *)
Lemma chomp_quoted (s eol : str) :
  is_eol eol = true -> chomp ((s ++ [DQUOTE]) ++ eol) = s ++ [DQUOTE].
Proof.
  intros H. unfold chomp, rstrip.
  rewrite rev_app_distr.
  rewrite dropwhile_all by (rewrite forallb_rev; exact H).
  rewrite rev_app_distr. simpl. rewrite rev_involutive. reflexivity.
Qed.

(** A line that starts with a character that is not white space is not
    blank. *)
Lemma strip_truthy (c : char) (s : str) :
  isspace c = false -> truthy (strip (c :: s)) = true.
Proof.
  intros Hc. unfold strip. simpl. rewrite Hc. simpl.
  destruct (dropwhile_snoc_keep isspace (rev s) c Hc) as (y & l & ->).
  simpl. destruct (rev l); reflexivity.
Qed.

Lemma slice_index_nat (n a : nat) :
  slice_index n (Z.of_nat a) = Nat.min a n.
Proof.
  unfold slice_index.
  replace (Z.of_nat a <? 0)%Z with false by (symmetry; apply Z.ltb_ge; lia).
  lia.
Qed.

Lemma slice_index_last (n : nat) : slice_index n (-1) = (n - 1)%nat.
Proof.
  unfold slice_index. change (-1 <? 0)%Z with true. cbv iota. lia.
Qed.

Lemma slice_payload {A : Type} (pre P : list A) (c : A) (n : Z) :
  n = Z.of_nat (length pre) -> slice (pre ++ P ++ [c]) n (-1) = P.
Proof.
  intros ->. unfold slice.
  rewrite slice_index_nat, slice_index_last.
  rewrite !length_app. simpl length.
  replace (Nat.min (length pre) (length pre + (length P + 1)))
    with (length pre) by lia.
  replace (length pre + (length P + 1) - 1 - length pre)%nat
    with (length P) by lia.
  rewrite skipn_app, skipn_all, Nat.sub_diag. simpl.
  rewrite firstn_app, firstn_all, Nat.sub_diag. simpl.
  apply app_nil_r.
Qed.

Lemma startswith_app (p s : str) : startswith p (p ++ s) = true.
Proof.
  induction p as [| c p IH]; simpl; [reflexivity |].
  rewrite N.eqb_refl. exact IH.
Qed.

Lemma between_quotes_quoted (pre P : str) :
  forallb (fun c => negb (c =? DQUOTE)) pre = true ->
  between_quotes (pre ++ quoted P) = P.
Proof.
  intros H. unfold between_quotes, quoted.
  rewrite dropwhile_all by exact H.
  simpl. rewrite rev_app_distr. simpl. apply rev_involutive.
Qed.

End Strings.

(** ** [parse_po]: one line *)

Section ParseLine.

Lemma parse_line_skipped (st : po_state) (line : str) :
  is_skipped line = true -> parse_line st line = Ok st.
Proof.
  unfold is_skipped, chomp, parse_line. cbv zeta.
  intros ->. reflexivity.
Qed.

Lemma parse_line_msgid (st : po_state) (line : str) :
  is_msgid line = true ->
  parse_line st line
  = Ok (fresh (pairs (save st)) (unescape_chars (slice (chomp line) 7 (-1)))).
Proof.
  unfold is_msgid, is_skipped, chomp, parse_line. cbv zeta.
  intros H. apply andb_true_iff in H. destruct H as [H1 H2].
  apply negb_true_iff in H1. rewrite H1, H2.
  rewrite unescape_eq. reflexivity.
Qed.

Lemma parse_line_msgstr (st : po_state) (line : str) :
  is_msgstr line = true ->
  parse_line st line
  = Ok (with_str st (unescape_chars (slice (chomp line) 8 (-1)))).
Proof.
  unfold is_msgstr, is_skipped, chomp, parse_line. cbv zeta.
  intros H. apply andb_true_iff in H. destruct H as [H H3].
  apply andb_true_iff in H. destruct H as [H1 H2].
  apply negb_true_iff in H1, H2. rewrite H1, H2, H3.
  rewrite unescape_eq. reflexivity.
Qed.

Lemma quoted_line_shape (pre P eol : str) :
  pre ++ quoted P ++ eol = ((pre ++ DQUOTE :: P) ++ [DQUOTE]) ++ eol.
Proof.
  unfold quoted. rewrite <- !app_assoc. cbn [app].
  rewrite <- app_assoc. reflexivity.
Qed.

Lemma chomp_canonical (pre P eol : str) :
  is_eol eol = true -> chomp (pre ++ quoted P ++ eol) = pre ++ quoted P.
Proof.
  intros H. rewrite quoted_line_shape, (chomp_quoted _ _ H).
  unfold quoted. rewrite <- app_assoc. reflexivity.
Qed.

Lemma is_msgid_canonical (P eol : str) :
  is_eol eol = true ->
  is_msgid (py "msgid " ++ quoted P ++ eol) = true
  /\ chomp (py "msgid " ++ quoted P ++ eol) = py "msgid " ++ quoted P.
Proof.
  intros H.
  assert (E : chomp (py "msgid " ++ quoted P ++ eol)
              = py "msgid " ++ quoted P).
  { apply chomp_canonical, H. }
  split; [| exact E].
  unfold is_msgid, is_skipped. rewrite E.
  rewrite startswith_app.
  change (py "msgid " ++ quoted P) with (109 :: (py "sgid " ++ quoted P)).
  rewrite strip_truthy by reflexivity.
  reflexivity.
Qed.

Lemma is_msgstr_canonical (P eol : str) :
  is_eol eol = true ->
  is_msgstr (py "msgstr " ++ quoted P ++ eol) = true
  /\ chomp (py "msgstr " ++ quoted P ++ eol) = py "msgstr " ++ quoted P.
Proof.
  intros H.
  assert (E : chomp (py "msgstr " ++ quoted P ++ eol)
              = py "msgstr " ++ quoted P).
  { apply chomp_canonical, H. }
  split; [| exact E].
  unfold is_msgstr, is_skipped. rewrite E.
  rewrite startswith_app.
  change (py "msgstr " ++ quoted P) with (109 :: (py "sgstr " ++ quoted P)).
  rewrite strip_truthy by reflexivity.
  reflexivity.
Qed.

End ParseLine.

(** C6: Quoted-payload extraction (as the code has it).  A line that
    begins with [msgid ] or [msgstr ] yields the unescaped characters at
    fixed positions, [line[7:-1]] and [line[8:-1]] of the line without its
    line end.  For a line that is exactly the keyword, one space and a
    payload [P] in quotes, that is [P], everything between the first and the
    last quote character of the line. *)
Theorem C6_quoted_payload (st : po_state) (P eol : str) :
  is_eol eol = true ->
  exists val,
    unescape P = Ok val /\
    parse_line st (py "msgid " ++ quoted P ++ eol)
    = Ok (fresh (pairs (save st)) val) /\
    parse_line st (py "msgstr " ++ quoted P ++ eol) = Ok (with_str st val) /\
    between_quotes (py "msgid " ++ quoted P) = P /\
    between_quotes (py "msgstr " ++ quoted P) = P /\
    (forall line, is_msgid line = true ->
       exists v, unescape (slice (chomp line) 7 (-1)) = Ok v /\
                 parse_line st line = Ok (fresh (pairs (save st)) v)) /\
    (forall line, is_msgstr line = true ->
       exists v, unescape (slice (chomp line) 8 (-1)) = Ok v /\
                 parse_line st line = Ok (with_str st v)).
Proof.
  intros Heol. exists (unescape_chars P).
  destruct (is_msgid_canonical P eol Heol) as [Hid Eid].
  destruct (is_msgstr_canonical P eol Heol) as [Hstr Estr].
  split; [apply unescape_eq |].
  split.
  { rewrite (parse_line_msgid _ _ Hid), Eid.
    change (py "msgid " ++ quoted P)
      with ((py "msgid " ++ [DQUOTE]) ++ P ++ [DQUOTE]).
    rewrite slice_payload by reflexivity. reflexivity. }
  split.
  { rewrite (parse_line_msgstr _ _ Hstr), Estr.
    change (py "msgstr " ++ quoted P)
      with ((py "msgstr " ++ [DQUOTE]) ++ P ++ [DQUOTE]).
    rewrite slice_payload by reflexivity. reflexivity. }
  split; [apply between_quotes_quoted; reflexivity |].
  split; [apply between_quotes_quoted; reflexivity |].
  split.
  - intros line H. eexists. split; [apply unescape_eq |].
    apply parse_line_msgid, H.
  - intros line H. eexists. split; [apply unescape_eq |].
    apply parse_line_msgstr, H.
Qed.

(** The line [msgid "a\tb"] followed by CR LF. *)
Lemma C6_quoted_payload_witness :
  parse_line po_init (py "msgid " ++ quoted (py "a\tb") ++ [CR; LF])
  = Ok (fresh [] (py "a" ++ [TAB] ++ py "b")).
Proof.
  destruct (C6_quoted_payload po_init (py "a\tb") [CR; LF] eq_refl)
    as (val & Hval & H & _).
  injection Hval as <-. exact H.
Defined.

(** Extraction is positional, not by quotes: with two spaces after the
    keyword, or with a space after the closing quote, the value that the
    parser extracts is not the text between the first and the last quote,
    and it differs from the value of the same payload written with one space
    and no trailing space. *)
Lemma C6_counterexample :
  is_msgid (py "msgid  " ++ quoted (py "a")) = true /\
  is_msgstr (py "msgstr " ++ quoted (py "b") ++ py " ") = true /\
  between_quotes (py "msgid  " ++ quoted (py "a")) = py "a" /\
  between_quotes (py "msgstr " ++ quoted (py "b") ++ py " ") = py "b" /\
  parse_po [py "msgid  " ++ quoted (py "a");
            py "msgstr " ++ quoted (py "b") ++ py " "]
  = Ok [(DQUOTE :: py "a", py "b" ++ [DQUOTE])] /\
  parse_po [py "msgid " ++ quoted (py "a"); py "msgstr " ++ quoted (py "b")]
  = Ok [(py "a", py "b")] /\
  [(DQUOTE :: py "a", py "b" ++ [DQUOTE])] <> [(py "a", py "b")].
Proof.
  repeat split; try reflexivity. discriminate.
Qed.

Section ParseLineCases.

Lemma startswith_quote (l : str) :
  startswith [DQUOTE] l = true -> exists l', l = DQUOTE :: l'.
Proof.
  destruct l as [| c l]; cbn [startswith]; [discriminate |].
  rewrite andb_true_r. intros H. apply N.eqb_eq in H. subst c. eauto.
Qed.

(** A bare quoted string is neither skipped nor a keyword line. *)
Lemma bare_quoted_class (line : str) :
  is_bare_quoted line = true ->
  is_skipped line = false /\ is_msgid line = false /\ is_msgstr line = false.
Proof.
  unfold is_bare_quoted, is_skipped, is_msgid, is_msgstr, is_skipped.
  intros H. apply andb_true_iff in H. destruct H as [H _].
  destruct (startswith_quote _ H) as (l' & ->).
  rewrite strip_truthy by reflexivity.
  repeat split; reflexivity.
Qed.

(** The [if]/[elif] chain of the loop body, by class of line. *)
Lemma parse_line_cases (st : po_state) (line : str) :
  parse_line st line =
  if is_skipped line then Ok st
  else if is_msgid line then
    Ok (fresh (pairs (save st)) (unescape_chars (slice (chomp line) 7 (-1))))
  else if is_msgstr line then
    Ok (with_str st (unescape_chars (slice (chomp line) 8 (-1))))
  else if is_bare_quoted line then
    append_current st (unescape_chars (slice (chomp line) 1 (-1)))
  else Ok st.
Proof.
  destruct (is_skipped line) eqn:Hs; [apply parse_line_skipped, Hs |].
  destruct (is_msgid line) eqn:Hi; [apply parse_line_msgid, Hi |].
  destruct (is_msgstr line) eqn:Ht; [apply parse_line_msgstr, Ht |].
  unfold is_msgid, is_msgstr in *. rewrite Hs in *.
  cbn [negb andb] in Hi, Ht.
  unfold is_skipped, is_bare_quoted, chomp in *.
  unfold parse_line. cbv zeta. rewrite Hs, Hi.
  rewrite Hi in Ht. cbn [negb andb] in Ht. rewrite Ht.
  destruct (startswith [DQUOTE] _ && endswith [DQUOTE] _); [| reflexivity].
  rewrite unescape_eq. reflexivity.
Qed.

Lemma parse_line_bare_quoted (st : po_state) (line : str) :
  is_bare_quoted line = true ->
  parse_line st line
  = append_current st (unescape_chars (slice (chomp line) 1 (-1))).
Proof.
  intros H. rewrite parse_line_cases.
  destruct (bare_quoted_class line H) as (-> & -> & ->).
  rewrite H. reflexivity.
Qed.

Lemma po_inv_init : po_inv po_init.
Proof. split; discriminate. Qed.

Lemma po_inv_save (st : po_state) : po_inv st -> po_inv (save st).
Proof.
  unfold save. destruct (cur_id st) eqn:E1, (cur_str st) eqn:E2; auto.
  unfold po_inv. simpl. rewrite E1, E2. auto.
Qed.

(** From a state that satisfies the invariant no line raises, and the
    invariant is kept. *)
Lemma parse_line_inv (st : po_state) (line : str) :
  po_inv st -> exists st', parse_line st line = Ok st' /\ po_inv st'.
Proof.
  intros Hst. pose proof Hst as [H1 H2]. rewrite parse_line_cases.
  destruct (is_skipped line); [exists st; split; [reflexivity | exact Hst] |].
  destruct (is_msgid line).
  { eexists. split; [reflexivity |]. split; simpl; discriminate. }
  destruct (is_msgstr line).
  { eexists. split; [reflexivity |]. split; simpl; discriminate. }
  destruct (is_bare_quoted line);
    [| exists st; split; [reflexivity | exact Hst]].
  unfold append_current.
  destruct (in_id st) eqn:Ei.
  - destruct (cur_id st) as [k |] eqn:Ek; [| exfalso; apply H1; reflexivity].
    simpl. eexists. split; [reflexivity |].
    split; simpl; [discriminate | exact H2].
  - destruct (in_str st) eqn:Es.
    + destruct (cur_str st) as [v |] eqn:Ev; [| exfalso; apply H2; reflexivity].
      simpl. eexists. split; [reflexivity |].
      split; simpl; discriminate.
    + exists st. split; [reflexivity | exact Hst].
Qed.

Lemma parse_lines_inv (f : list str) :
  forall st, po_inv st -> exists st', parse_lines st f = Ok st' /\ po_inv st'.
Proof.
  induction f as [| line f IH]; intros st Hst; simpl.
  - exists st. split; [reflexivity | exact Hst].
  - destruct (parse_line_inv st line Hst) as (st1 & -> & H1).
    simpl. apply IH, H1.
Qed.

Lemma reachable_inv (f : list str) (st : po_state) :
  parse_lines po_init f = Ok st -> po_inv st.
Proof.
  intros H. destruct (parse_lines_inv f po_init po_inv_init) as (st' & E & Hi).
  rewrite E in H. injection H as <-. exact Hi.
Qed.

End ParseLineCases.

(** C7: Continuation concatenation.  In every state [st] that the parser
    reaches, a line that starts and ends with a quote character (after its
    line end is removed) has its unescaped content [val] appended to the
    original string when the parser accumulates the original, to the
    translated string when it accumulates the translation, and changes
    nothing when neither was begun; for the line ["P"] the content is [P].
    The four lines of the example parse to the single entry
    ("hello world", "bonjour monde"), with any of the three line ends. *)
Theorem C7_continuation (f : list str) (st : po_state) (line : str) :
  parse_lines po_init f = Ok st ->
  is_bare_quoted line = true ->
  exists val,
    unescape (slice (chomp line) 1 (-1)) = Ok val /\
    (forall P eol, line = quoted P ++ eol -> is_eol eol = true ->
                   unescape P = Ok val) /\
    (in_id st = true ->
     exists k, cur_id st = Some k /\
       parse_line st line
       = Ok {| pairs := pairs st; cur_id := Some (k ++ val);
               cur_str := cur_str st; in_id := true; in_str := in_str st |}) /\
    (in_id st = false -> in_str st = true ->
     exists v, cur_str st = Some v /\
       parse_line st line
       = Ok {| pairs := pairs st; cur_id := cur_id st;
               cur_str := Some (v ++ val); in_id := false; in_str := true |}) /\
    (in_id st = false -> in_str st = false -> parse_line st line = Ok st) /\
    parse_po [py "msgid " ++ quoted (py "hello ") ++ [LF];
              quoted (py "world") ++ [LF];
              py "msgstr " ++ quoted (py "bonjour ") ++ [LF];
              quoted (py "monde") ++ [LF]]
    = Ok [(py "hello world", py "bonjour monde")] /\
    parse_po (text_lines
                (py "msgid " ++ quoted (py "hello ") ++ [CR; LF]
                 ++ quoted (py "world") ++ [LF]
                 ++ py "msgstr " ++ quoted (py "bonjour ") ++ [CR]
                 ++ quoted (py "monde")))
    = Ok [(py "hello world", py "bonjour monde")].
Proof.
  intros Hreach Hq.
  destruct (reachable_inv f st Hreach) as [H1 H2].
  exists (unescape_chars (slice (chomp line) 1 (-1))).
  split; [apply unescape_eq |].
  split.
  { intros P eol -> Heol. rewrite unescape_eq. f_equal. f_equal.
    pose proof (chomp_canonical [] P eol Heol) as E.
    rewrite !app_nil_l in E. rewrite E. symmetry.
    apply (slice_payload [DQUOTE] P DQUOTE 1). reflexivity. }
  rewrite (parse_line_bare_quoted st line Hq). unfold append_current.
  split; [| split; [| split]].
  - intros Ei. rewrite Ei.
    destruct (cur_id st) as [k |] eqn:Ek; [| exfalso; apply (H1 Ei); reflexivity].
    exists k. split; reflexivity.
  - intros Ei Es. rewrite Ei, Es.
    destruct (cur_str st) as [v |] eqn:Ev; [| exfalso; apply (H2 Es); reflexivity].
    exists v. split; reflexivity.
  - intros Ei Es. rewrite Ei, Es. reflexivity.
  - split; reflexivity.
Qed.

(** The line ["world"] after [msgid "hello "]. *)
Lemma C7_continuation_witness :
  parse_line (fresh [] (py "hello ")) (quoted (py "world") ++ [LF])
  = Ok (fresh [] (py "hello world")).
Proof.
  destruct (C7_continuation [py "msgid " ++ quoted (py "hello ") ++ [LF]]
              (fresh [] (py "hello ")) (quoted (py "world") ++ [LF])
              eq_refl eq_refl)
    as (val & Hval & _ & H & _).
  injection Hval as <-.
  destruct (H eq_refl) as (k & Hk & E).
  injection Hk as <-. exact E.
Defined.

(** ** [parse_po]: the whole file *)

Section ParseFile.

Lemma parse_lines_app (a b : list str) :
  forall st,
    parse_lines st (a ++ b) = (st' <- parse_lines st a ;; parse_lines st' b).
Proof.
  induction a as [| line a IH]; intros st; simpl; [reflexivity |].
  destruct (parse_line st line) as [e | st1]; simpl; [reflexivity | apply IH].
Qed.

Lemma save_add_pairs (ps : list (str * str)) (st : po_state) :
  save (add_pairs ps st) = add_pairs ps (save st).
Proof.
  destruct st as [p [k |] [v |] i1 i2]; unfold save, add_pairs; simpl;
    rewrite ?app_assoc; reflexivity.
Qed.

(** The entries saved earlier are only carried along. *)
Lemma parse_line_add_pairs (ps : list (str * str)) (st st' : po_state)
      (line : str) :
  parse_line st line = Ok st' ->
  parse_line (add_pairs ps st) line = Ok (add_pairs ps st').
Proof.
  rewrite !parse_line_cases.
  destruct (is_skipped line); [intros [= <-]; reflexivity |].
  destruct (is_msgid line).
  { intros [= <-]. rewrite save_add_pairs. reflexivity. }
  destruct (is_msgstr line); [intros [= <-]; reflexivity |].
  destruct (is_bare_quoted line); [| intros [= <-]; reflexivity].
  unfold append_current. simpl.
  destruct (in_id st).
  - destruct (cur_id st); simpl; [intros [= <-]; reflexivity | discriminate].
  - destruct (in_str st); [| intros [= <-]; reflexivity].
    destruct (cur_str st); simpl; [intros [= <-]; reflexivity | discriminate].
Qed.

Lemma parse_lines_add_pairs (ps : list (str * str)) (f : list str) :
  forall st st',
    parse_lines st f = Ok st' ->
    parse_lines (add_pairs ps st) f = Ok (add_pairs ps st').
Proof.
  induction f as [| line f IH]; intros st st'; simpl.
  - intros [= <-]. reflexivity.
  - destruct (parse_line st line) as [e | st1] eqn:E; simpl; [discriminate |].
    rewrite (parse_line_add_pairs ps st st1 line E). simpl. apply IH.
Qed.

(** A line that is not a [msgid] line saves nothing and leaves the
    original string set or unset as it was; the translated string is set
    afterwards when it was set before or the line is a [msgstr] line. *)
Lemma parse_line_no_msgid (st st' : po_state) (line : str) :
  is_msgid line = false ->
  parse_line st line = Ok st' ->
  pairs st' = pairs st /\
  is_some (cur_id st') = is_some (cur_id st) /\
  is_some (cur_str st') = is_some (cur_str st) || is_msgstr line.
Proof.
  intros Hi. rewrite parse_line_cases, Hi.
  destruct (is_skipped line) eqn:Hs.
  { intros [= <-]. unfold is_msgstr. rewrite Hs. simpl.
    rewrite orb_false_r. auto. }
  destruct (is_msgstr line).
  { intros [= <-]. simpl. rewrite orb_true_r. auto. }
  rewrite orb_false_r.
  destruct (is_bare_quoted line); [| intros [= <-]; auto].
  unfold append_current.
  destruct (in_id st).
  - destruct (cur_id st); simpl; [intros [= <-]; auto | discriminate].
  - destruct (in_str st); [| intros [= <-]; auto].
    destruct (cur_str st); simpl; [intros [= <-]; auto | discriminate].
Qed.

Lemma parse_lines_no_msgid (f : list str) :
  forall st st',
    existsb is_msgid f = false ->
    parse_lines st f = Ok st' ->
    pairs st' = pairs st /\
    is_some (cur_id st') = is_some (cur_id st) /\
    is_some (cur_str st') = is_some (cur_str st) || existsb is_msgstr f.
Proof.
  induction f as [| line f IH]; intros st st' Hf; simpl.
  - intros [= <-]. rewrite orb_false_r. auto.
  - simpl in Hf. apply orb_false_iff in Hf. destruct Hf as [Hl Hf].
    destruct (parse_line st line) as [e | st1] eqn:E; simpl; [discriminate |].
    intros H.
    destruct (parse_line_no_msgid st st1 line Hl E) as (P1 & I1 & S1).
    destruct (IH st1 st' Hf H) as (P2 & I2 & S2).
    rewrite P2, I2, S2, P1, I1, S1, orb_assoc. auto.
Qed.

Lemma parse_po_total (f : list str) : exists ps, parse_po f = Ok ps.
Proof.
  unfold parse_po.
  destruct (parse_lines_inv f po_init po_inv_init) as (st & -> & _).
  simpl. eauto.
Qed.

Lemma pairs_save (st : po_state) :
  pairs (save st)
  = match cur_id st, cur_str st with
    | Some k, Some v => pairs st ++ [(k, v)]
    | _, _ => pairs st
    end.
Proof. unfold save. destruct (cur_id st), (cur_str st); reflexivity. Qed.

(** A [msgid] line is a boundary: what precedes it is parsed as a file of
    its own. *)
Lemma parse_po_boundary (pre rest : list str) (l : str)
      (a b : list (str * str)) :
  is_msgid l = true ->
  parse_po pre = Ok a -> parse_po (l :: rest) = Ok b ->
  parse_po (pre ++ l :: rest) = Ok (a ++ b).
Proof.
  unfold parse_po. intros Hl Ha Hb.
  rewrite parse_lines_app.
  destruct (parse_lines po_init pre) as [e | st1]; simpl in *; [discriminate |].
  injection Ha as <-.
  cbn [parse_lines] in Hb.
  rewrite (parse_line_msgid po_init l Hl) in Hb.
  rewrite (parse_line_msgid st1 l Hl). simpl in *.
  set (k := unescape_chars (slice (chomp l) 7 (-1))) in *.
  destruct (parse_lines (fresh [] k) rest) as [e | st2] eqn:E2;
    simpl in Hb; [discriminate |].
  injection Hb as <-.
  pose proof (parse_lines_add_pairs (pairs (save st1)) rest _ _ E2) as E.
  unfold add_pairs at 1 in E. simpl in E. rewrite app_nil_r in E.
  fold (fresh (pairs (save st1)) k) in E. rewrite E. simpl.
  rewrite save_add_pairs. reflexivity.
Qed.

(** Lines before the first [msgid] line give no entry. *)
Lemma parse_po_preamble (pre : list str) :
  existsb is_msgid pre = false -> parse_po pre = Ok [].
Proof.
  intros H. unfold parse_po.
  destruct (parse_lines_inv pre po_init po_inv_init) as (st & E & _).
  rewrite E. simpl.
  destruct (parse_lines_no_msgid pre _ _ H E) as (P1 & I1 & _).
  rewrite pairs_save, P1. simpl in I1.
  destruct (cur_id st); [discriminate | reflexivity].
Qed.

(** A [msgid] line and the lines up to the next one give one entry when a
    [msgstr] line is among them, and none otherwise. *)
Lemma parse_po_block (l : str) (body : list str) :
  is_msgid l = true -> existsb is_msgid body = false ->
  if existsb is_msgstr body
  then exists k v, parse_po (l :: body) = Ok [(k, v)]
  else parse_po (l :: body) = Ok [].
Proof.
  intros Hl Hb. unfold parse_po. simpl.
  rewrite (parse_line_msgid _ _ Hl). simpl.
  set (k := unescape_chars (slice (chomp l) 7 (-1))).
  assert (Hinv : po_inv (fresh [] k)) by (split; simpl; discriminate).
  destruct (parse_lines_inv body _ Hinv) as (st & E & _).
  rewrite E. simpl.
  destruct (parse_lines_no_msgid body _ _ Hb E) as (P1 & I1 & S1).
  rewrite pairs_save, P1. simpl in I1, S1. simpl.
  destruct (cur_id st) as [k' |]; [| discriminate].
  destruct (existsb is_msgstr body);
    destruct (cur_str st) as [v' |]; try discriminate; eauto.
Qed.

End ParseFile.

(** C8: Finalize rule.  [parse_po] returns normally on every file.  Its
    result is the list of entries saved when the last line has been read,
    plus the pending entry when its original and its translated field are
    both set, and nothing more otherwise.  A [msgid] line closes what
    precedes it; a [msgid] line with the lines up to the next [msgid] line
    or the end of the file contributes exactly one entry when a [msgstr]
    line is among them and no entry otherwise; lines before the first
    [msgid] line contribute none. *)
Theorem C8_finalize_rule :
  (forall f, exists st,
      parse_lines po_init f = Ok st /\
      parse_po f = Ok (match cur_id st, cur_str st with
                       | Some k, Some v => pairs st ++ [(k, v)]
                       | _, _ => pairs st
                       end)) /\
  (forall pre l rest a b,
      is_msgid l = true ->
      parse_po pre = Ok a -> parse_po (l :: rest) = Ok b ->
      parse_po (pre ++ l :: rest) = Ok (a ++ b)) /\
  (forall pre, existsb is_msgid pre = false -> parse_po pre = Ok []) /\
  (forall l body,
      is_msgid l = true -> existsb is_msgid body = false ->
      if existsb is_msgstr body
      then exists k v, parse_po (l :: body) = Ok [(k, v)]
      else parse_po (l :: body) = Ok []).
Proof.
  split; [| split; [| split]].
  - intros f. unfold parse_po.
    destruct (parse_lines_inv f po_init po_inv_init) as (st & E & _).
    exists st. rewrite E. simpl. rewrite pairs_save. auto.
  - intros pre l rest a b. apply parse_po_boundary.
  - apply parse_po_preamble.
  - apply parse_po_block.
Qed.

(** A [msgid] line without [msgstr] before the next [msgid] line, and a
    complete entry pending at the end of the file. *)
Lemma C8_finalize_rule_witness :
  parse_po ([py "msgid " ++ quoted (py "lonely") ++ [LF]]
            ++ (py "msgid " ++ quoted (py "k") ++ [LF])
            :: [py "msgstr " ++ quoted (py "v")])
  = Ok ([] ++ [(py "k", py "v")]).
Proof.
  destruct C8_finalize_rule as (_ & Hb & _ & Hblock).
  apply Hb; [reflexivity | |].
  - exact (Hblock (py "msgid " ++ quoted (py "lonely") ++ [LF]) []
             eq_refl eq_refl).
  - reflexivity.
Defined.

(** ** Bytes and UTF-8 *)

Section Bytes.

Lemma Ok_inj {A : Type} (a b : A) : Ok a = Ok b -> a = b.
Proof. intros H. injection H as ->. reflexivity. Qed.

Lemma to_N_byte_of_N (n : N) : Byte.to_N (byte_of_N n) = n mod 256.
Proof.
  unfold byte_of_N.
  destruct (Byte.of_N (n mod 256)) as [b |] eqn:E.
  - apply Byte.to_of_N, E.
  - apply Byte.of_N_None_iff in E.
    pose proof (N.mod_upper_bound n 256). lia.
Qed.

Lemma byte_of_to_N (b : byte) : byte_of_N (Byte.to_N b) = b.
Proof.
  unfold byte_of_N.
  rewrite N.mod_small by (pose proof (Byte.to_N_bounded b); lia).
  rewrite Byte.of_to_N. reflexivity.
Qed.

Lemma decode_cons (b0 : byte) (r0 : bytes) :
  decode (b0 :: r0) =
  let n0 := Byte.to_N b0 in
  if n0 <? 0x80 then option_map (cons n0) (decode r0)
  else if n0 <? 0xC0 then None
  else if n0 <? 0xE0 then
    match r0 with
    | b1 :: r1 =>
        let c := (n0 - 0xC0) * 64 + (Byte.to_N b1 - 0x80) in
        if is_cont b1 && (0x80 <=? c) then option_map (cons c) (decode r1)
        else None
    | _ => None
    end
  else if n0 <? 0xF0 then
    match r0 with
    | b1 :: b2 :: r2 =>
        let c := (n0 - 0xE0) * 4096 + (Byte.to_N b1 - 0x80) * 64
                 + (Byte.to_N b2 - 0x80) in
        if is_cont b1 && is_cont b2 && (0x800 <=? c)
           && negb ((0xD800 <=? c) && (c <=? 0xDFFF)) then
          option_map (cons c) (decode r2)
        else None
    | _ => None
    end
  else if n0 <? 0xF8 then
    match r0 with
    | b1 :: b2 :: b3 :: r3 =>
        let c := (n0 - 0xF0) * 262144 + (Byte.to_N b1 - 0x80) * 4096
                 + (Byte.to_N b2 - 0x80) * 64 + (Byte.to_N b3 - 0x80) in
        if is_cont b1 && is_cont b2 && is_cont b3 && (0x10000 <=? c)
           && (c <? 0x110000) then
          option_map (cons c) (decode r3)
        else None
    | _ => None
    end
  else None.
Proof. reflexivity. Qed.

End Bytes.

(** Arithmetic with division and remainder by constants: the defining
    facts of every quotient and remainder of the goal, then [lia]. *)
Ltac pose_divmod :=
  repeat match goal with
         | |- context [N.modulo ?a ?b] =>
             lazymatch goal with
             | _ : a = b * (a / b) + a mod b |- _ => fail
             | _ => pose proof (N.div_mod' a b);
                    pose proof (N.mod_lt a b ltac:(discriminate));
                    pose proof (N.le_0_l (a / b));
                    pose proof (N.le_0_l (a mod b))
             end
         | |- context [N.div ?a ?b] =>
             lazymatch goal with
             | _ : a = b * (a / b) + a mod b |- _ => fail
             | _ => pose proof (N.div_mod' a b);
                    pose proof (N.mod_lt a b ltac:(discriminate));
                    pose proof (N.le_0_l (a / b));
                    pose proof (N.le_0_l (a mod b))
             end
         end.

Ltac divmod := pose_divmod; lia.

Ltac decide_tests :=
  repeat match goal with
         | |- context [N.ltb ?a ?b] =>
             first [ replace (N.ltb a b) with true
                       by (symmetry; apply N.ltb_lt; divmod)
                   | replace (N.ltb a b) with false
                       by (symmetry; apply N.ltb_ge; divmod) ]
         | |- context [N.leb ?a ?b] =>
             first [ replace (N.leb a b) with true
                       by (symmetry; apply N.leb_le; divmod)
                   | replace (N.leb a b) with false
                       by (symmetry; apply N.leb_gt; divmod) ]
         end.

Section Utf8.

(** Decoding the encoding of a character gives the character back. *)
Lemma decode_encode_char (c : char) (bc rest : bytes) :
  encode_char c = Ok bc ->
  decode (bc ++ rest) = option_map (cons c) (decode rest).
Proof.
  unfold encode_char.
  destruct (c <? 0x80) eqn:H1.
  { intros H; apply Ok_inj in H; subst bc. apply N.ltb_lt in H1.
    cbn [app]. rewrite decode_cons. cbv zeta.
    rewrite to_N_byte_of_N.
    rewrite (N.mod_small c 256) by lia.
    replace (c <? 0x80) with true by (symmetry; apply N.ltb_lt; lia).
    reflexivity. }
  apply N.ltb_ge in H1.
  destruct (c <? 0x800) eqn:H2.
  { intros H; apply Ok_inj in H; subst bc. apply N.ltb_lt in H2.
    cbn [app]. rewrite decode_cons. cbv zeta. unfold is_cont.
    rewrite !to_N_byte_of_N.
    assert (Ec : ((0xC0 + c / 64) mod 256 - 0xC0) * 64
                 + ((0x80 + c mod 64) mod 256 - 0x80) = c)
      by divmod.
    rewrite Ec.
    decide_tests. reflexivity. }
  apply N.ltb_ge in H2.
  destruct ((0xD800 <=? c) && (c <=? 0xDFFF)) eqn:H3; [discriminate |].
  assert (H3' : c < 0xD800 \/ 0xDFFF < c).
  { apply andb_false_iff in H3. destruct H3 as [H3 | H3];
      [left; apply N.leb_gt, H3 | right; apply N.leb_gt, H3]. }
  clear H3.
  destruct (c <? 0x10000) eqn:H4.
  { intros H; apply Ok_inj in H; subst bc. apply N.ltb_lt in H4.
    cbn [app]. rewrite decode_cons. cbv zeta. unfold is_cont.
    rewrite !to_N_byte_of_N.
    assert (E : (0xE0 + c / 4096) mod 256 = 0xE0 + c / 4096)
      by (divmod).
    assert (E1 : (0x80 + (c / 64) mod 64) mod 256 = 0x80 + (c / 64) mod 64)
      by (divmod).
    assert (E2 : (0x80 + c mod 64) mod 256 = 0x80 + c mod 64)
      by (divmod).
    rewrite E, E1, E2.
    assert (Ec : (0xE0 + c / 4096 - 0xE0) * 4096
                 + (0x80 + (c / 64) mod 64 - 0x80) * 64
                 + (0x80 + c mod 64 - 0x80) = c)
      by (divmod).
    rewrite Ec.
    decide_tests.
    destruct H3' as [H3' | H3'].
    - replace (0xD800 <=? c) with false by (symmetry; apply N.leb_gt; lia).
      reflexivity.
    - replace (c <=? 0xDFFF) with false by (symmetry; apply N.leb_gt; lia).
      rewrite andb_false_r. reflexivity. }
  apply N.ltb_ge in H4.
  destruct (c <? 0x110000) eqn:H5; [| discriminate].
  intros H; apply Ok_inj in H; subst bc. apply N.ltb_lt in H5.
  cbn [app]. rewrite decode_cons. cbv zeta. unfold is_cont.
  rewrite !to_N_byte_of_N.
  assert (E : (0xF0 + c / 262144) mod 256 = 0xF0 + c / 262144)
    by (divmod).
  assert (E0 : (0x80 + (c / 4096) mod 64) mod 256 = 0x80 + (c / 4096) mod 64)
    by (divmod).
  assert (E1 : (0x80 + (c / 64) mod 64) mod 256 = 0x80 + (c / 64) mod 64)
    by (divmod).
  assert (E2 : (0x80 + c mod 64) mod 256 = 0x80 + c mod 64)
    by (divmod).
  rewrite E, E0, E1, E2.
  assert (Ec : (0xF0 + c / 262144 - 0xF0) * 262144
               + (0x80 + (c / 4096) mod 64 - 0x80) * 4096
               + (0x80 + (c / 64) mod 64 - 0x80) * 64
               + (0x80 + c mod 64 - 0x80) = c)
    by (divmod).
  rewrite Ec.
  decide_tests. reflexivity.
Qed.

Lemma decode_encode (s : str) (bs : bytes) :
  encode s = Ok bs -> decode bs = Some s.
Proof.
  revert bs. induction s as [| c s IH]; intros bs; simpl.
  - intros [= <-]. reflexivity.
  - destruct (encode_char c) as [e | bc] eqn:Ec; simpl; [discriminate |].
    destruct (encode s) as [e | bs'] eqn:Es; simpl; [discriminate |].
    intros [= <-].
    rewrite (decode_encode_char c bc bs' Ec), (IH bs' eq_refl).
    reflexivity.
Qed.

(** So the encoding is injective. *)
Lemma encode_inj (s t : str) (bs : bytes) :
  encode s = Ok bs -> encode t = Ok bs -> s = t.
Proof.
  intros Hs Ht. apply decode_encode in Hs, Ht. congruence.
Qed.

End Utf8.

(** ** The order on [bytes] and the sort *)

Section ByteOrder.

Lemma to_N_inj (x y : byte) : Byte.to_N x = Byte.to_N y -> x = y.
Proof.
  intros H. pose proof (Byte.of_to_N x) as Hx.
  rewrite H, Byte.of_to_N in Hx. congruence.
Qed.

Lemma bytes_ltb_irrefl (a : bytes) : bytes_ltb a a = false.
Proof.
  induction a as [| x a IH]; simpl; [reflexivity |].
  rewrite N.ltb_irrefl, N.eqb_refl, IH. reflexivity.
Qed.

Lemma bytes_ltb_asym (a b : bytes) :
  bytes_ltb a b = true -> bytes_ltb b a = false.
Proof.
  revert b. induction a as [| x a IH]; intros [| y b]; simpl;
    try reflexivity; try discriminate.
  intros H. apply orb_true_iff in H.
  destruct H as [H | H].
  - apply N.ltb_lt in H.
    replace (Byte.to_N y <? Byte.to_N x) with false
      by (symmetry; apply N.ltb_ge; lia).
    replace (Byte.to_N y =? Byte.to_N x) with false
      by (symmetry; apply N.eqb_neq; lia).
    reflexivity.
  - apply andb_true_iff in H. destruct H as [E H].
    apply N.eqb_eq in E. rewrite E, N.ltb_irrefl, N.eqb_refl.
    simpl. apply IH, H.
Qed.

(** [bytes_leb] is "smaller or equal". *)
Lemma bytes_leb_spec (a b : bytes) :
  bytes_leb a b = true <-> bytes_ltb a b = true \/ a = b.
Proof.
  unfold bytes_leb. rewrite negb_true_iff. split.
  - revert b. induction a as [| x a IH]; intros [| y b]; simpl.
    + auto.
    + auto.
    + discriminate.
    + intros H. apply orb_false_iff in H. destruct H as [H1 H2].
      apply N.ltb_ge in H1.
      destruct (N.eq_dec (Byte.to_N x) (Byte.to_N y)) as [E | E].
      * rewrite E, N.eqb_refl in *. simpl in H2.
        rewrite N.ltb_irrefl. simpl.
        apply to_N_inj in E. subst y.
        destruct (IH b H2) as [H | H]; [left; exact H | right; congruence].
      * left. apply orb_true_iff. left. apply N.ltb_lt. lia.
  - intros [H | <-]; [apply bytes_ltb_asym, H | apply bytes_ltb_irrefl].
Qed.

Lemma bytes_ltb_leb (a b : bytes) : bytes_ltb a b = true -> bytes_le a b.
Proof. intros H. apply bytes_leb_spec. left. exact H. Qed.

End ByteOrder.

Section SortProperties.
Context {A : Type}.

Lemma insert_keyed_perm (x : bytes * A) (l : list (bytes * A)) :
  Permutation (insert_keyed x l) (x :: l).
Proof.
  induction l as [| y l IH]; simpl; [reflexivity |].
  destruct (bytes_ltb (fst y) (fst x)); [| reflexivity].
  rewrite IH. apply perm_swap.
Qed.

Lemma sort_keyed_perm (l : list (bytes * A)) : Permutation (sort_keyed l) l.
Proof.
  induction l as [| x l IH]; simpl; [reflexivity |].
  rewrite insert_keyed_perm, IH. reflexivity.
Qed.

Lemma insert_keyed_hd (x y : bytes * A) (l : list (bytes * A)) :
  bytes_ltb (fst y) (fst x) = true ->
  HdRel bytes_le (fst y) (map fst l) ->
  HdRel bytes_le (fst y) (map fst (insert_keyed x l)).
Proof.
  intros Hyx Hl. destruct l as [| z l]; simpl.
  - constructor. apply bytes_ltb_leb, Hyx.
  - destruct (bytes_ltb (fst z) (fst x)); simpl.
    + inversion Hl; subst. constructor. assumption.
    + constructor. apply bytes_ltb_leb, Hyx.
Qed.

Lemma insert_keyed_sorted (x : bytes * A) (l : list (bytes * A)) :
  Sorted bytes_le (map fst l) ->
  Sorted bytes_le (map fst (insert_keyed x l)).
Proof.
  induction l as [| y l IH]; simpl; intros Hs.
  - repeat constructor.
  - inversion Hs as [| ? ? Hs' Hhd]; subst.
    destruct (bytes_ltb (fst y) (fst x)) eqn:E; simpl.
    + constructor; [apply IH, Hs' | apply insert_keyed_hd; assumption].
    + constructor; [exact Hs |].
      constructor. unfold bytes_le, bytes_leb. rewrite E. reflexivity.
Qed.

Lemma bytes_eqb_eq (a b : bytes) : bytes_eqb a b = true <-> a = b.
Proof.
  unfold bytes_eqb.
  destruct (list_eq_dec Byte.byte_eq_dec a b) as [e | n]; split; intros H.
  - exact e.
  - reflexivity.
  - discriminate H.
  - contradiction.
Qed.

Lemma insert_keyed_stable (k : bytes) (x : bytes * A) (l : list (bytes * A)) :
  filter (fun p => bytes_eqb (fst p) k) (insert_keyed x l)
  = filter (fun p => bytes_eqb (fst p) k) (x :: l).
Proof.
  induction l as [| y l IH]; [reflexivity |].
  cbn [insert_keyed].
  destruct (bytes_ltb (fst y) (fst x)) eqn:E; [| reflexivity].
  cbn [filter] in *. rewrite IH.
  destruct (bytes_eqb (fst y) k) eqn:Ey; [| reflexivity].
  destruct (bytes_eqb (fst x) k) eqn:Ex; [| reflexivity].
  apply bytes_eqb_eq in Ex, Ey. rewrite Ex, Ey, bytes_ltb_irrefl in E.
  discriminate E.
Qed.

(** The sort is stable: the elements of each key keep their order. *)
Lemma sort_keyed_stable (k : bytes) (l : list (bytes * A)) :
  filter (fun p => bytes_eqb (fst p) k) (sort_keyed l)
  = filter (fun p => bytes_eqb (fst p) k) l.
Proof.
  induction l as [| x l IH]; [reflexivity |].
  cbn [sort_keyed]. rewrite insert_keyed_stable.
  cbn [filter]. rewrite IH. reflexivity.
Qed.

(** The sort puts the keys in ascending order. *)
Lemma sort_keyed_sorted (l : list (bytes * A)) :
  Sorted bytes_le (map fst (sort_keyed l)).
Proof.
  induction l as [| x l IH]; simpl; [constructor |].
  apply insert_keyed_sorted, IH.
Qed.

Lemma keyed_spec (key : A -> res bytes) (l : list A) :
  forall d, keyed key l = Ok d ->
            map snd d = l /\ Forall (fun p => key (snd p) = Ok (fst p)) d.
Proof.
  induction l as [| x l IH]; simpl; intros d.
  - intros [= <-]. split; constructor.
  - destruct (key x) as [e | k] eqn:Ek; simpl; [discriminate |].
    destruct (keyed key l) as [e | r] eqn:Er; simpl; [discriminate |].
    intros [= <-]. destruct (IH r eq_refl) as [E F].
    split; [simpl; rewrite E; reflexivity | constructor; assumption].
Qed.

Lemma keyed_complete (key : A -> res bytes) (l : list A) :
  Forall (fun x => exists k, key x = Ok k) l -> exists d, keyed key l = Ok d.
Proof.
  induction 1 as [| x l (k & Hk) _ (d & Hd)]; simpl; [eauto |].
  rewrite Hk, Hd. simpl. eauto.
Qed.


End SortProperties.

Section Kept.

Lemma encode_all_Forall2 (l : list str) (bs : list bytes) :
  encode_all l = Ok bs <-> Forall2 (fun s b => encode s = Ok b) l bs.
Proof.
  revert bs. induction l as [| s l IH]; intros bs; simpl.
  - split; [intros [= <-]; constructor | inversion 1; reflexivity].
  - split.
    + destruct (encode s) as [e | b] eqn:Eb; simpl; [discriminate |].
      destruct (encode_all l) as [e | r] eqn:Er; simpl; [discriminate |].
      intros [= <-]. constructor; [exact Eb | apply IH; reflexivity].
    + inversion 1 as [| ? b ? r Hb Hr]; subst.
      rewrite Hb. simpl. apply IH in Hr. rewrite Hr. reflexivity.
Qed.

(** What the list comprehension and the sort of [make_mo] return: a
    permutation of the entries that pass the filter, with the encoded
    original strings in ascending order. *)
Lemma kept_spec (pairs ps : list (str * str)) :
  kept pairs = Ok ps ->
  Permutation ps (filter keep pairs) /\
  exists ks, encode_all (map fst ps) = Ok ks /\ Sorted bytes_le ks.
Proof.
  unfold kept, sort_by.
  destruct (keyed _ (filter keep pairs)) as [e | d] eqn:Ed; simpl;
    [discriminate |].
  intros [= <-].
  destruct (keyed_spec _ _ _ Ed) as [E F].
  split.
  - rewrite <- E. apply Permutation_map, sort_keyed_perm.
  - exists (map fst (sort_keyed d)). split; [| apply sort_keyed_sorted].
    apply encode_all_Forall2.
    assert (F' : Forall (fun p => encode (fst (snd p)) = Ok (fst p))
                        (sort_keyed d)).
    { rewrite Forall_forall in *. intros p Hp. apply F.
      apply (Permutation_in _ (sort_keyed_perm d) Hp). }
    clear - F'. induction F' as [| p l Hp _ IH]; simpl; constructor; auto.
Qed.

End Kept.

(** ** [make_mo]: what is written *)

Section MakeMo.

Lemma meta_loop_eq (strs : list str) :
  forall meta pos,
    meta_loop strs meta pos
    = (bs <- encode_all strs ;;
       Ok (meta ++ metas pos bs, pos + data_size bs)).
Proof.
  induction strs as [| s strs IH]; intros meta pos; simpl.
  - rewrite app_nil_r, N.add_0_r. reflexivity.
  - destruct (encode s) as [e | b]; simpl; [reflexivity |].
    rewrite IH.
    destruct (encode_all strs) as [e | bs]; simpl; [reflexivity |].
    rewrite <- app_assoc, <- N.add_assoc. reflexivity.
Qed.

Lemma pack_u32_eq (v : N) :
  pack_u32 v = if fit v then Ok (u32le v) else Err StructError.
Proof. reflexivity. Qed.

Lemma pack_I_eq (vs : list N) :
  pack_I vs
  = if forallb fit vs then Ok (flat_map u32le vs) else Err StructError.
Proof.
  induction vs as [| v vs IH]; [reflexivity |].
  cbn [pack_I forallb flat_map]. rewrite pack_u32_eq, IH.
  destruct (fit v); [| reflexivity].
  destruct (forallb fit vs); reflexivity.
Qed.

Lemma for_each_cons {A : Type} (body : A -> io unit) (x : A) (l : list A)
      (f : bytes) :
  for_each (x :: l) body f =
  match body x f with
  | (f', inl e) => (f', inl e)
  | (f', inr _) => for_each l body f'
  end.
Proof. reflexivity. Qed.

Lemma write_entry_eq (l o : N) (f : bytes) :
  write_entry (l, o) f =
  if fit l && fit o then (f ++ u32le l ++ u32le o, Ok tt)
  else (f, Err StructError).
Proof.
  unfold write_entry, io_bind, io_lift, write. rewrite pack_I_eq.
  cbn [forallb flat_map]. rewrite andb_true_r, app_nil_r.
  destruct (fit l && fit o); reflexivity.
Qed.

Lemma write_string_eq {A : Type} (proj : A -> str) (p : A) (f : bytes) :
  write_string proj p f =
  match encode (proj p) with
  | inl e => (f, inl e)
  | inr b => (f ++ b ++ [NUL], Ok tt)
  end.
Proof.
  unfold write_string, io_bind, io_lift, write.
  destruct (encode (proj p)); reflexivity.
Qed.

Lemma write_table_ok (m : list (N * N)) :
  forall f, forallb fit2 m = true ->
            for_each m write_entry f = (f ++ table m, Ok tt).
Proof.
  induction m as [| [l o] m IH]; intros f H.
  - simpl. rewrite app_nil_r. reflexivity.
  - cbn [forallb] in H. apply andb_true_iff in H. destruct H as [H1 H2].
    unfold fit2 in H1. cbn [fst snd] in H1.
    rewrite for_each_cons, write_entry_eq, H1. cbn [Ok].
    rewrite (IH _ H2).
    unfold table. cbn [flat_map fst snd].
    rewrite <- !app_assoc. reflexivity.
Qed.

Lemma write_table_err (m : list (N * N)) :
  forall f, forallb fit2 m = false ->
            exists f', for_each m write_entry f = (f', Err StructError).
Proof.
  induction m as [| [l o] m IH]; intros f H; [discriminate |].
  cbn [forallb] in H. unfold fit2 in H at 1. cbn [fst snd] in H.
  rewrite for_each_cons, write_entry_eq.
  destruct (fit l && fit o); [| exists f; reflexivity].
  cbn [Ok andb] in *. apply IH, H.
Qed.

Lemma write_data_ok {A : Type} (proj : A -> str) (ps : list A) :
  forall bs f,
    encode_all (map proj ps) = Ok bs ->
    for_each ps (write_string proj) f = (f ++ data bs, Ok tt).
Proof.
  induction ps as [| p ps IH]; intros bs f; simpl map; cbn [encode_all].
  - intros [= <-]. simpl. rewrite app_nil_r. reflexivity.
  - rewrite for_each_cons, write_string_eq.
    destruct (encode (proj p)) as [e | b]; cbn [rbind]; [discriminate |].
    destruct (encode_all (map proj ps)) as [e | r]; cbn [rbind];
      [discriminate |].
    intros [= <-]. cbn [Ok].
    rewrite (IH r _ eq_refl).
    unfold data. cbn [flat_map]. rewrite <- !app_assoc. reflexivity.
Qed.

End MakeMo.

Section MakeMoOutcome.

Lemma for_each_ext {A : Type} (body body' : A -> io unit) (l : list A) :
  (forall x f, body x f = body' x f) ->
  forall f, for_each l body f = for_each l body' f.
Proof.
  intros H. induction l as [| x l IH]; intros f; [reflexivity |].
  rewrite !for_each_cons, H.
  destruct (body' x f) as [f' [e | u]]; [reflexivity | apply IH].
Qed.

Lemma write_orig_ok (ps : list (str * str)) (bs : list bytes) (f : bytes) :
  encode_all (map fst ps) = Ok bs ->
  for_each ps write_orig f = (f ++ data bs, Ok tt).
Proof.
  intros H. rewrite <- (write_data_ok fst ps bs f H).
  apply for_each_ext. intros [k v] f'. reflexivity.
Qed.

Lemma write_trans_ok (ps : list (str * str)) (bs : list bytes) (f : bytes) :
  encode_all (map snd ps) = Ok bs ->
  for_each ps write_trans f = (f ++ data bs, Ok tt).
Proof.
  intros H. rewrite <- (write_data_ok snd ps bs f H).
  apply for_each_ext. intros [k v] f'. reflexivity.
Qed.

Lemma io_seq_eq {A : Type} (m : io unit) (k : io A) (f : bytes) :
  (m ;;; k) f =
  match m f with
  | (f', inl e) => (f', inl e)
  | (f', inr _) => k f'
  end.
Proof. reflexivity. Qed.

Lemma write_header_eq (hdr : list N) (f : bytes) :
  (h <~ io_lift (pack_I hdr) ;; write h) f =
  if forallb fit hdr then (f ++ flat_map u32le hdr, Ok tt)
  else (f, Err StructError).
Proof.
  unfold io_bind, io_lift, write. rewrite pack_I_eq.
  destruct (forallb fit hdr); reflexivity.
Qed.

Lemma write_all_ok (hdr : list N) (om tm : list (N * N))
      (ps : list (str * str)) (ks vs : list bytes) :
  encode_all (map fst ps) = Ok ks -> encode_all (map snd ps) = Ok vs ->
  forallb fit hdr && forallb fit2 om && forallb fit2 tm = true ->
  write_all hdr om tm ps []
  = (flat_map u32le hdr ++ table om ++ table tm ++ data ks ++ data vs,
     Ok tt).
Proof.
  intros Hks Hvs H.
  apply andb_true_iff in H. destruct H as [H H3].
  apply andb_true_iff in H. destruct H as [H1 H2].
  unfold write_all.
  rewrite io_seq_eq, write_header_eq, H1. cbn [Ok].
  rewrite io_seq_eq, (write_table_ok om _ H2). cbn [Ok].
  rewrite io_seq_eq, (write_table_ok tm _ H3). cbn [Ok].
  rewrite io_seq_eq, (write_orig_ok ps ks _ Hks). cbn [Ok].
  rewrite (write_trans_ok ps vs _ Hvs).
  rewrite <- !app_assoc. reflexivity.
Qed.

Lemma write_all_err (hdr : list N) (om tm : list (N * N))
      (ps : list (str * str)) :
  forallb fit hdr && forallb fit2 om && forallb fit2 tm = false ->
  exists f, write_all hdr om tm ps [] = (f, Err StructError).
Proof.
  intros H. unfold write_all.
  rewrite io_seq_eq, write_header_eq.
  destruct (forallb fit hdr); [| eexists; reflexivity].
  cbn [Ok]. rewrite io_seq_eq.
  destruct (forallb fit2 om) eqn:H2.
  - rewrite (write_table_ok om _ H2). cbn [Ok]. rewrite io_seq_eq.
    cbn [andb] in H.
    destruct (write_table_err tm (([] ++ flat_map u32le hdr) ++ table om) H)
      as (f' & E).
    rewrite E. eexists; reflexivity.
  - destruct (write_table_err om ([] ++ flat_map u32le hdr) H2) as (f' & E).
    rewrite E. eexists; reflexivity.
Qed.

(** The shape of [make_mo]: the computations before the file is opened,
    then [write_all]. *)
Lemma make_mo_unfold (pairs : list (str * str)) :
  make_mo pairs =
  match
    ps <- kept pairs ;;
    ks <- encode_all (map fst ps) ;;
    vs <- encode_all (map snd ps) ;;
    Ok (ps, ks, vs)
  with
  | inl e => {| out_file := None; out_result := Err e |}
  | inr (ps, ks, vs) =>
      let n := len ps in
      let h := data_start n in
      let '(f, r) :=
        write_all [MAGIC; 0; n; 28; 28 + n * 8; 0; h] (metas h ks)
                  (metas (h + data_size ks) vs) ps [] in
      {| out_file := Some f;
         out_result :=
           _ <- r ;; Ok (n, h + data_size ks + data_size vs) |}
  end.
Proof.
  unfold make_mo.
  change (sort_by (fun x => encode (fst x)) (filter keep pairs))
    with (kept pairs).
  destruct (kept pairs) as [e | ps]; cbn [rbind]; [reflexivity |].
  rewrite !meta_loop_eq.
  destruct (encode_all (map fst ps)) as [e | ks]; cbn [rbind Ok];
    [reflexivity |].
  rewrite !meta_loop_eq.
  destruct (encode_all (map snd ps)) as [e | vs]; cbn [rbind Ok];
    [reflexivity |].
  reflexivity.
Qed.

End MakeMoOutcome.

Section MakeMoInversion.

Lemma encode_all_length (l : list str) (bs : list bytes) :
  encode_all l = Ok bs -> length bs = length l.
Proof.
  intros H. apply encode_all_Forall2 in H.
  symmetry. apply (Forall2_length H).
Qed.

Lemma make_mo_ok (pairs ps : list (str * str)) (ks vs : list bytes) :
  kept pairs = Ok ps ->
  encode_all (map fst ps) = Ok ks -> encode_all (map snd ps) = Ok vs ->
  all_fit ks vs = true ->
  make_mo pairs
  = {| out_file := Some (image ks vs);
       out_result :=
         Ok (len ps, data_start (len ps) + data_size ks + data_size vs) |}.
Proof.
  intros Hk Hks Hvs Hfit.
  assert (En : len ks = len ps).
  { unfold len. rewrite (encode_all_length _ _ Hks), length_map.
    reflexivity. }
  rewrite make_mo_unfold, Hk. cbn [rbind Ok]. rewrite Hks. cbn [rbind Ok].
  rewrite Hvs. cbn [rbind Ok]. cbv zeta.
  unfold all_fit in Hfit. cbv zeta in Hfit. rewrite En in Hfit.
  rewrite (write_all_ok _ _ _ ps ks vs Hks Hvs Hfit).
  unfold image, header. rewrite En. reflexivity.
Qed.

Lemma make_mo_inv (pairs : list (str * str)) (file : bytes) (summary : N * N) :
  make_mo pairs = {| out_file := Some file; out_result := Ok summary |} ->
  exists ps ks vs,
    kept pairs = Ok ps /\
    encode_all (map fst ps) = Ok ks /\ encode_all (map snd ps) = Ok vs /\
    all_fit ks vs = true /\
    file = image ks vs /\
    summary = (len ps, data_start (len ps) + data_size ks + data_size vs).
Proof.
  intros H.
  destruct (kept pairs) as [e | ps] eqn:Hk.
  { rewrite make_mo_unfold, Hk in H. discriminate H. }
  destruct (encode_all (map fst ps)) as [e | ks] eqn:Hks.
  { rewrite make_mo_unfold, Hk in H. cbn [rbind Ok] in H.
    rewrite Hks in H. discriminate H. }
  destruct (encode_all (map snd ps)) as [e | vs] eqn:Hvs.
  { rewrite make_mo_unfold, Hk in H. cbn [rbind Ok] in H.
    rewrite Hks in H. cbn [rbind Ok] in H. rewrite Hvs in H. discriminate H. }
  exists ps, ks, vs.
  destruct (all_fit ks vs) eqn:Hfit.
  - rewrite (make_mo_ok pairs ps ks vs Hk Hks Hvs Hfit) in H.
    injection H as <- <-. repeat split; assumption || reflexivity.
  - exfalso.
    assert (En : len ks = len ps).
    { unfold len. rewrite (encode_all_length _ _ Hks), length_map.
      reflexivity. }
    rewrite make_mo_unfold, Hk in H. cbn [rbind Ok] in H.
    rewrite Hks in H. cbn [rbind Ok] in H. rewrite Hvs in H.
    cbn [rbind Ok] in H. cbv zeta in H.
    unfold all_fit in Hfit. cbv zeta in Hfit. rewrite En in Hfit.
    destruct (write_all_err _ _ _ ps Hfit) as (f & E).
    rewrite E in H. discriminate H.
Qed.

End MakeMoInversion.

(** ** The reference reader on the files of [make_mo] *)

Section Reader.

Lemma u32le_value (v : N) :
  fit v = true ->
  Byte.to_N (byte_of_N v) + 256 * Byte.to_N (byte_of_N (v / 256))
  + 65536 * Byte.to_N (byte_of_N (v / 65536))
  + 16777216 * Byte.to_N (byte_of_N (v / 16777216)) = v.
Proof.
  unfold fit. intros H. apply N.ltb_lt in H.
  change (2 ^ 32) with 4294967296 in H.
  rewrite !to_N_byte_of_N. divmod.
Qed.

Lemma u32_at_middle (pre post : bytes) (v : N) :
  fit v = true -> u32_at (pre ++ u32le v ++ post) (length pre) = Some v.
Proof.
  intros H. unfold u32_at.
  rewrite skipn_app, skipn_all, Nat.sub_diag. cbn [app skipn u32le firstn].
  rewrite (u32le_value v H). reflexivity.
Qed.

Lemma string_at_middle (pre post b : bytes) :
  string_at (pre ++ b ++ NUL :: post) (length pre) (length b) = Some b.
Proof.
  unfold string_at.
  rewrite skipn_app, skipn_all, Nat.sub_diag. cbn [app skipn].
  rewrite firstn_app, firstn_all, Nat.sub_diag. cbn [firstn].
  rewrite app_nil_r, Nat.eqb_refl.
  rewrite app_assoc, <- length_app.
  rewrite nth_error_app2 by apply Nat.le_refl.
  rewrite Nat.sub_diag. reflexivity.
Qed.

Lemma metas_point (bs : list bytes) :
  forall (pre post : bytes),
    Forall2 (points_to (pre ++ data bs ++ post)) (metas (len pre) bs) bs.
Proof.
  induction bs as [| b bs IH]; intros pre post; cbn [metas]; constructor.
  - split; [reflexivity |]. cbn [fst snd]. unfold len. rewrite !Nat2N.id.
    unfold data. cbn [flat_map]. rewrite <- !app_assoc.
    apply string_at_middle.
  - replace (len pre + (len b + 1)) with (len (pre ++ b ++ [NUL]))
      by (unfold len; rewrite !length_app; simpl; lia).
    replace (pre ++ data (b :: bs) ++ post)
      with ((pre ++ b ++ [NUL]) ++ data bs ++ post)
      by (unfold data; cbn [flat_map]; rewrite <- !app_assoc; reflexivity).
    apply IH.
Qed.

Lemma length_table (m : list (N * N)) : length (table m) = (8 * length m)%nat.
Proof.
  induction m as [| e m IH]; [reflexivity |].
  unfold table in *. cbn [flat_map]. rewrite !length_app, IH.
  simpl. lia.
Qed.

Lemma read_table_image (m : list (N * N)) :
  forall (strs : list bytes) (tpre tpost file : bytes),
    file = tpre ++ table m ++ tpost ->
    forallb fit2 m = true ->
    Forall2 (points_to file) m strs ->
    read_table file (length tpre) (length m) = Some strs.
Proof.
  induction m as [| [l o] m IH]; intros strs tpre tpost file Hfile Hfit Hp.
  - inversion Hp. reflexivity.
  - inversion Hp as [| ? b ? strs' [_ Hb] Hp']; subst strs. cbn [fst snd] in Hb.
    cbn [forallb] in Hfit. apply andb_true_iff in Hfit.
    destruct Hfit as [Hlo Hfit]. apply andb_true_iff in Hlo.
    cbn [fst snd] in Hlo. destruct Hlo as [Hl Ho].
    cbn [length read_table].
    assert (E1 : u32_at file (length tpre) = Some l).
    { rewrite Hfile. unfold table. cbn [flat_map fst snd].
      rewrite <- !app_assoc. apply u32_at_middle, Hl. }
    assert (E2 : u32_at file (length tpre + 4) = Some o).
    { rewrite Hfile. unfold table. cbn [flat_map fst snd].
      rewrite <- !app_assoc.
      replace (length tpre + 4)%nat with (length (tpre ++ u32le l))
        by (rewrite length_app; reflexivity).
      rewrite (app_assoc tpre (u32le l)).
      apply u32_at_middle, Ho. }
    rewrite E1, E2. cbn [obind]. rewrite Hb. cbn [obind].
    replace (length tpre + 8)%nat
      with (length (tpre ++ u32le l ++ u32le o))
      by (rewrite !length_app; reflexivity).
    rewrite (IH strs' (tpre ++ u32le l ++ u32le o) tpost file);
      [reflexivity | | exact Hfit | exact Hp'].
    rewrite Hfile. unfold table. cbn [flat_map fst snd].
    rewrite <- !app_assoc. reflexivity.
Qed.

Lemma header_field (vals : list N) (post : bytes) :
  forallb fit vals = true ->
  forall i v, nth_error vals i = Some v ->
              u32_at (flat_map u32le vals ++ post) (4 * i) = Some v.
Proof.
  intros Hfit i. revert vals Hfit.
  induction i as [| i IH]; intros [| w vals] Hfit v Hv; try discriminate;
    cbn [forallb] in Hfit; apply andb_true_iff in Hfit;
    destruct Hfit as [Hw Hfit]; cbn [nth_error] in Hv.
  - injection Hv as <-. cbn [flat_map]. rewrite <- app_assoc.
    apply (u32_at_middle [] _ w Hw).
  - replace (4 * S i)%nat with (4 * i + 4)%nat by lia.
    unfold u32_at. cbn [flat_map]. rewrite <- app_assoc.
    rewrite <- skipn_skipn. cbn [u32le app skipn].
    apply (IH vals Hfit v Hv).
Qed.

End Reader.

Section ReaderOnImage.

Lemma length_metas (bs : list bytes) :
  forall pos, length (metas pos bs) = length bs.
Proof.
  induction bs as [| b bs IH]; intros pos; simpl; [| rewrite IH]; reflexivity.
Qed.

Lemma len_data (bs : list bytes) : len (data bs) = data_size bs.
Proof.
  unfold len. induction bs as [| b bs IH]; [reflexivity |].
  unfold data in *. cbn [flat_map data_size].
  rewrite !length_app. cbn [length]. unfold len. lia.
Qed.

Lemma length_header (n : N) : length (header n) = 28%nat.
Proof. reflexivity. Qed.

Lemma all_fit_parts (ks vs : list bytes) :
  all_fit ks vs = true ->
  forallb fit [MAGIC; 0; len ks; 28; 28 + len ks * 8; 0; data_start (len ks)]
  = true
  /\ forallb fit2 (metas (data_start (len ks)) ks) = true
  /\ forallb fit2 (metas (data_start (len ks) + data_size ks) vs) = true.
Proof.
  unfold all_fit. cbv zeta. intros H.
  apply andb_true_iff in H. destruct H as [H H3].
  apply andb_true_iff in H. destruct H as [H1 H2]. auto.
Qed.

(** The strings of both tables, as the file of [make_mo] stores them. *)
Lemma image_tables (ks vs : list bytes) :
  length ks = length vs ->
  all_fit ks vs = true ->
  let file := image ks vs in
  read_table file 28 (length ks) = Some ks /\
  read_table file (28 + 8 * length ks) (length ks) = Some vs /\
  Forall2 (points_to file) (metas (data_start (len ks)) ks) ks /\
  Forall2 (points_to file)
          (metas (data_start (len ks) + data_size ks) vs) vs.
Proof.
  intros Hlen Hfit file.
  destruct (all_fit_parts ks vs Hfit) as (H1 & H2 & H3).
  set (h := data_start (len ks)) in *.
  set (om := metas h ks) in *.
  set (tm := metas (h + data_size ks) vs) in *.
  assert (Eh : len (header (len ks) ++ table om ++ table tm) = h).
  { unfold len. rewrite !length_app, !length_table, length_header.
    unfold om, tm. rewrite !length_metas. unfold h, data_start, len. lia. }
  assert (Pk : Forall2 (points_to file) om ks).
  { pose proof (metas_point ks (header (len ks) ++ table om ++ table tm)
                            (data vs)) as P.
    rewrite Eh in P. unfold file, image. cbv zeta. fold h om tm.
    rewrite <- !app_assoc in P. exact P. }
  assert (Pv : Forall2 (points_to file) tm vs).
  { pose proof (metas_point vs
                  ((header (len ks) ++ table om ++ table tm) ++ data ks)
                  []) as P.
    replace (len ((header (len ks) ++ table om ++ table tm) ++ data ks))
      with (h + data_size ks) in P
      by (rewrite <- Eh, <- len_data; unfold len; rewrite !length_app; lia).
    unfold file, image. cbv zeta. fold h om tm.
    rewrite app_nil_r, <- !app_assoc in P. exact P. }
  repeat split; try assumption.
  - rewrite <- (length_metas ks h). fold om.
    apply (read_table_image om ks (header (len ks))
                            (table tm ++ data ks ++ data vs) file);
      [reflexivity | exact H2 | exact Pk].
  - rewrite Hlen at 2. rewrite <- (length_metas vs (h + data_size ks)).
    fold tm.
    replace (28 + 8 * length ks)%nat
      with (length (header (len ks) ++ table om))
      by (rewrite length_app, length_table, length_header; unfold om;
          rewrite length_metas; reflexivity).
    apply (read_table_image tm vs (header (len ks) ++ table om)
                            (data ks ++ data vs) file);
      [| exact H3 | exact Pv].
    unfold file, image. cbv zeta. fold h om tm.
    rewrite <- !app_assoc. reflexivity.
Qed.

(** The seven fields of the header. *)
Lemma image_header (ks vs : list bytes) (i : nat) (v : N) :
  all_fit ks vs = true ->
  nth_error [MAGIC; 0; len ks; 28; 28 + len ks * 8; 0; data_start (len ks)] i
  = Some v ->
  u32_at (image ks vs) (4 * i) = Some v.
Proof.
  intros Hfit Hv.
  destruct (all_fit_parts ks vs Hfit) as (H1 & _).
  unfold image, header. cbv zeta.
  apply header_field; assumption.
Qed.

Lemma mo_read_bytes_image (ks vs : list bytes) :
  length ks = length vs ->
  all_fit ks vs = true ->
  mo_read_bytes (image ks vs) = Some (combine ks vs).
Proof.
  intros Hlen Hfit.
  destruct (image_tables ks vs Hlen Hfit) as (Tk & Tv & _).
  unfold mo_read_bytes.
  rewrite (image_header ks vs 0 MAGIC Hfit eq_refl : u32_at _ 0 = _).
  rewrite (image_header ks vs 1 0 Hfit eq_refl : u32_at _ 4 = _).
  rewrite (image_header ks vs 2 (len ks) Hfit eq_refl : u32_at _ 8 = _).
  rewrite (image_header ks vs 3 28 Hfit eq_refl : u32_at _ 12 = _).
  rewrite (image_header ks vs 4 (28 + len ks * 8) Hfit eq_refl
           : u32_at _ 16 = _).
  cbn [obind]. rewrite !N.eqb_refl. cbn [andb].
  replace (N.to_nat 28) with 28%nat by reflexivity.
  replace (N.to_nat (len ks)) with (length ks) by (unfold len; lia).
  replace (N.to_nat (28 + len ks * 8)) with (28 + 8 * length ks)%nat
    by (unfold len; lia).
  rewrite Tk, Tv. reflexivity.
Qed.

Lemma decode_pairs_combine (ps : list (str * str)) :
  forall ks vs,
    encode_all (map fst ps) = Ok ks -> encode_all (map snd ps) = Ok vs ->
    decode_pairs (combine ks vs) = Some ps.
Proof.
  induction ps as [| [k v] ps IH]; intros ks vs; cbn [map encode_all fst snd].
  - intros [= <-] [= <-]. reflexivity.
  - destruct (encode k) as [e | bk] eqn:Ek; cbn [rbind]; [discriminate |].
    destruct (encode_all (map fst ps)) as [e | ks'] eqn:Eks; cbn [rbind];
      [discriminate |].
    intros [= <-].
    destruct (encode v) as [e | bv] eqn:Ev; cbn [rbind]; [discriminate |].
    destruct (encode_all (map snd ps)) as [e | vs'] eqn:Evs; cbn [rbind];
      [discriminate |].
    intros [= <-].
    cbn [combine decode_pairs].
    rewrite (decode_encode k bk Ek), (decode_encode v bv Ev).
    cbn [obind]. rewrite (IH ks' vs' eq_refl eq_refl). reflexivity.
Qed.

(** Reading back what [make_mo] wrote gives the entries it encoded. *)
Lemma mo_read_produced (pairs : list (str * str)) (file : bytes) :
  produces pairs file ->
  exists ps ks vs,
    kept pairs = Ok ps /\
    encode_all (map fst ps) = Ok ks /\ encode_all (map snd ps) = Ok vs /\
    length ks = length vs /\ all_fit ks vs = true /\
    file = image ks vs /\
    mo_read_bytes file = Some (combine ks vs) /\
    mo_read file = Some ps.
Proof.
  intros [summary H].
  destruct (make_mo_inv pairs file summary H)
    as (ps & ks & vs & Hk & Hks & Hvs & Hfit & -> & _).
  assert (Hlen : length ks = length vs).
  { rewrite (encode_all_length _ _ Hks), (encode_all_length _ _ Hvs).
    rewrite !length_map. reflexivity. }
  exists ps, ks, vs. repeat split; try assumption.
  - apply mo_read_bytes_image; assumption.
  - unfold mo_read. rewrite (mo_read_bytes_image ks vs Hlen Hfit).
    cbn [obind]. apply decode_pairs_combine; assumption.
Qed.

End ReaderOnImage.

(** ** When [make_mo] produces a file *)

Section Production.

Lemma is_scalar_spec (c : char) :
  is_scalar c = true -> c < 0xD800 \/ (0xDFFF < c /\ c < 0x110000).
Proof.
  unfold is_scalar. intros H.
  apply orb_true_iff in H. destruct H as [H | H].
  - left. apply N.ltb_lt, H.
  - right. apply andb_true_iff in H. destruct H as [H1 H2].
    split; apply N.ltb_lt; assumption.
Qed.

Lemma encode_char_total (c : char) :
  is_scalar c = true -> exists b, encode_char c = Ok b.
Proof.
  intros H. apply is_scalar_spec in H. unfold encode_char.
  destruct (c <? 0x80); [eauto |].
  destruct (c <? 0x800); [eauto |].
  destruct ((0xD800 <=? c) && (c <=? 0xDFFF)) eqn:E.
  { exfalso. apply andb_true_iff in E. destruct E as [E1 E2].
    apply N.leb_le in E1, E2. lia. }
  destruct (c <? 0x10000) eqn:E4; [eauto |].
  destruct (c <? 0x110000) eqn:E5; [eauto |].
  exfalso. apply N.ltb_ge in E4, E5. lia.
Qed.

Lemma encode_total (s : str) :
  encodable s = true -> exists b, encode s = Ok b.
Proof.
  unfold encodable. induction s as [| c s IH]; simpl; intros H; [eauto |].
  apply andb_true_iff in H. destruct H as [Hc Hs].
  destruct (encode_char_total c Hc) as (b & ->).
  destruct (IH Hs) as (bs & ->). simpl. eauto.
Qed.

Lemma encode_all_total (l : list str) :
  Forall (fun s => encodable s = true) l -> exists bs, encode_all l = Ok bs.
Proof.
  induction 1 as [| s l Hs _ (bs & IH)]; simpl; [eauto |].
  destruct (encode_total s Hs) as (b & ->). rewrite IH. simpl. eauto.
Qed.

Lemma kept_total (pairs : list (str * str)) :
  Forall (fun p => encodable (fst p) = true) pairs ->
  exists ps, kept pairs = Ok ps.
Proof.
  intros H. unfold kept, sort_by.
  destruct (keyed_complete (fun x => encode (fst x)) (filter keep pairs))
    as (d & ->).
  - rewrite Forall_forall in *. intros p Hp. apply filter_In in Hp.
    apply encode_total, H, Hp.
  - simpl. eauto.
Qed.

Lemma metas_fit (bs : list bytes) :
  forall pos, pos + data_size bs <= 2 ^ 32 ->
              forallb fit2 (metas pos bs) = true.
Proof.
  induction bs as [| b bs IH]; intros pos H; [reflexivity |].
  cbn [metas forallb data_size] in *.
  rewrite IH by lia. unfold fit2, fit. cbn [fst snd].
  replace (len b <? 2 ^ 32) with true by (symmetry; apply N.ltb_lt; lia).
  replace (pos <? 2 ^ 32) with true by (symmetry; apply N.ltb_lt; lia).
  reflexivity.
Qed.

(** A file of at most 2^32 bytes has all its fields in range. *)
Lemma all_fit_small (ks vs : list bytes) :
  data_start (len ks) + data_size ks + data_size vs <= 2 ^ 32 ->
  all_fit ks vs = true.
Proof.
  intros H. unfold all_fit. cbv zeta.
  rewrite (metas_fit ks) by lia.
  rewrite (metas_fit vs) by lia.
  rewrite !andb_true_r.
  unfold data_start in *. cbn [forallb]. unfold fit.
  change (2 ^ 32) with 4294967296 in *.
  repeat match goal with
         | |- context [N.ltb ?a ?b] =>
             replace (N.ltb a b) with true
               by (symmetry; apply N.ltb_lt; unfold MAGIC; lia)
         end.
  reflexivity.
Qed.

Lemma make_mo_produces (pairs ps : list (str * str)) (ks vs : list bytes) :
  kept pairs = Ok ps ->
  encode_all (map fst ps) = Ok ks -> encode_all (map snd ps) = Ok vs ->
  data_start (len ps) + data_size ks + data_size vs <= 2 ^ 32 ->
  produces pairs (image ks vs).
Proof.
  intros Hk Hks Hvs Hsize.
  assert (En : len ks = len ps).
  { unfold len. rewrite (encode_all_length _ _ Hks), length_map.
    reflexivity. }
  eexists. apply (make_mo_ok pairs ps ks vs Hk Hks Hvs).
  apply all_fit_small. rewrite En. exact Hsize.
Qed.

(** Every catalog of encodable strings has its encoded entries, and
    [make_mo] writes their file when it has at most 2^32 bytes. *)
Lemma make_mo_total (pairs : list (str * str)) :
  Forall (fun p => encodable (fst p) = true /\ encodable (snd p) = true)
         pairs ->
  exists ps ks vs,
    kept pairs = Ok ps /\
    encode_all (map fst ps) = Ok ks /\ encode_all (map snd ps) = Ok vs /\
    (data_start (len ps) + data_size ks + data_size vs <= 2 ^ 32 ->
     produces pairs (image ks vs)).
Proof.
  intros H.
  destruct (kept_total pairs) as (ps & Hk).
  { eapply Forall_impl; [| exact H]. intros p [Hp _]. exact Hp. }
  destruct (kept_spec pairs ps Hk) as (Hperm & ks & Hks & _).
  destruct (encode_all_total (map snd ps)) as (vs & Hvs).
  { rewrite Forall_forall in *. intros s Hs.
    apply in_map_iff in Hs. destruct Hs as (p & <- & Hp).
    apply (Permutation_in _ Hperm) in Hp. apply filter_In in Hp.
    apply (H p), Hp. }
  exists ps, ks, vs. repeat split; try assumption.
  apply make_mo_produces; assumption.
Qed.

End Production.

(** ** Properties of the files that [make_mo] produces *)

Section Filter.

Lemma str_eqb_nil (k : str) : str_eqb k [] = true <-> k = [].
Proof.
  unfold str_eqb.
  match goal with
  | |- context [list_eq_dec ?d ?a ?b] =>
      destruct (list_eq_dec d a b) as [e | n]
  end; split; intros H.
  - exact e.
  - reflexivity.
  - discriminate H.
  - contradiction.
Qed.

Lemma keep_spec (k v : str) : keep (k, v) = true <-> v <> [] \/ k = [].
Proof.
  unfold keep. rewrite orb_true_iff, str_eqb_nil. split.
  - intros [H | H]; [| right; exact H].
    destruct v; [discriminate H | left; discriminate].
  - intros [H | H]; [| right; exact H].
    left. destruct v; [congruence | reflexivity].
Qed.

Lemma map_fst_combine {A B : Type} (l : list A) :
  forall l' : list B, length l = length l' -> map fst (combine l l') = l.
Proof.
  induction l as [| a l IH]; intros [| b l'] H; simpl in *;
    try discriminate; [reflexivity |].
  rewrite IH by lia. reflexivity.
Qed.

End Filter.

(** C1: Round-trip identity.  When [make_mo] produces a file, the
    reference reader decodes it to a permutation of the entries that pass
    the filter; so when every entry has a non-empty translation or is the
    header entry, the decoded entries are exactly the input entries as a
    set, and a header entry (empty original) of the input is among the
    decoded entries whatever its value.  A catalog of encodable strings
    whose file has at most 2^32 bytes does produce a file. *)
Theorem C1_round_trip (pairs : list (str * str)) :
  (forall file,
      produces pairs file ->
      exists ds,
        mo_read file = Some ds /\
        Permutation ds (filter keep pairs) /\
        (Forall (fun p => snd p <> [] \/ fst p = []) pairs ->
         forall p, In p ds <-> In p pairs) /\
        (forall v, In ([], v) pairs -> In ([], v) ds)) /\
  (Forall (fun p => encodable (fst p) = true /\ encodable (snd p) = true)
          pairs ->
   exists ps ks vs,
     kept pairs = Ok ps /\
     encode_all (map fst ps) = Ok ks /\ encode_all (map snd ps) = Ok vs /\
     (data_start (len ps) + data_size ks + data_size vs <= 2 ^ 32 ->
      produces pairs (image ks vs))).
Proof.
  split; [| apply make_mo_total].
  intros file Hfile.
  destruct (mo_read_produced pairs file Hfile)
    as (ps & ks & vs & Hk & _ & _ & _ & _ & _ & _ & Hread).
  destruct (kept_spec pairs ps Hk) as (Hperm & _).
  exists ps. split; [exact Hread |]. split; [exact Hperm |]. split.
  - intros Hall p. split; intros Hp.
    + apply (Permutation_in _ Hperm) in Hp. apply filter_In in Hp. apply Hp.
    + apply (Permutation_in _ (Permutation_sym Hperm)).
      apply filter_In. split; [exact Hp |].
      rewrite Forall_forall in Hall. specialize (Hall p Hp).
      destruct p as [k v]. apply keep_spec, Hall.
  - intros v Hv. apply (Permutation_in _ (Permutation_sym Hperm)).
    apply filter_In. split; [exact Hv |]. apply keep_spec. right. reflexivity.
Qed.

(** A catalog with a header entry of empty value and a non-ASCII entry. *)
Lemma C1_round_trip_witness :
  exists ds,
    mo_read (image [[]; [Byte.xc3; Byte.xa9]] [[]; [Byte.x65]]) = Some ds /\
    Permutation ds (filter keep [([0xE9], py "e"); ([], [])]).
Proof.
  destruct (C1_round_trip [([0xE9], py "e"); ([], [])]) as [H _].
  destruct (H (image [[]; [Byte.xc3; Byte.xa9]] [[]; [Byte.x65]]))
    as (ds & Hds & Hperm & _).
  - exists (2, 67). reflexivity.
  - exists ds. split; assumption.
Defined.



(** C3: Empty-translation filtering.  When [make_mo] produces a file, an
    entry (k, v) is in the catalog that the file encodes if and only if it
    is an entry of the input and v is not empty or k is empty; the entry
    count of the header is the number of these entries.  For the input
    [("a",""), ("b","x"), ("","meta")] the file holds the two entries
    ("","meta") and ("b","x"). *)
Theorem C3_filtering :
  (forall pairs file,
      produces pairs file ->
      exists ds,
        mo_read file = Some ds /\
        u32_at file 8 = Some (len ds) /\
        len ds = len (filter keep pairs) /\
        forall k v, In (k, v) ds <-> In (k, v) pairs /\ (v <> [] \/ k = [])) /\
  (exists file,
      produces [(py "a", py ""); (py "b", py "x"); (py "", py "meta")] file /\
      mo_read file = Some [(py "", py "meta"); (py "b", py "x")] /\
      u32_at file 8 = Some 2).
Proof.
  split.
  - intros pairs file Hfile.
    destruct (mo_read_produced pairs file Hfile)
      as (ps & ks & vs & Hk & Hks & Hvs & Hlen & Hfit & -> & _ & Hread).
    destruct (kept_spec pairs ps Hk) as (Hperm & _).
    assert (En : len ks = len ps).
    { unfold len. rewrite (encode_all_length _ _ Hks), length_map.
      reflexivity. }
    exists ps. split; [exact Hread |]. split; [| split].
    + rewrite <- En.
      apply (image_header ks vs 2 (len ks) Hfit eq_refl).
    + unfold len. rewrite (Permutation_length Hperm). reflexivity.
    + intros k v. rewrite <- keep_spec, <- filter_In. split; intros H.
      * apply (Permutation_in _ Hperm H).
      * apply (Permutation_in _ (Permutation_sym Hperm) H).
  - eexists. split; [eexists; reflexivity |]. split; reflexivity.
Qed.

(** The input of the example with one more empty translation. *)
Lemma C3_filtering_witness :
  exists ds,
    mo_read (image [[]; [Byte.x62]]
                   [[Byte.x6d; Byte.x65; Byte.x74; Byte.x61]; [Byte.x78]])
    = Some ds /\
    forall k v,
      In (k, v) ds <->
      In (k, v) [(py "a", py ""); (py "b", py "x"); (py "", py "meta");
                 (py "c", py "")]
      /\ (v <> [] \/ k = []).
Proof.
  destruct C3_filtering as [H _].
  destruct (H [(py "a", py ""); (py "b", py "x"); (py "", py "meta");
               (py "c", py "")]
              (image [[]; [Byte.x62]]
                     [[Byte.x6d; Byte.x65; Byte.x74; Byte.x61]; [Byte.x78]]))
    as (ds & Hds & _ & _ & Hin).
  - exists (2, 70). reflexivity.
  - exists ds. split; assumption.
Defined.

(** C4: Header layout.  A file that [make_mo] produces begins with seven
    little-endian 32-bit integers at offsets 0, 4, ..., 24: the magic
    number, revision 0, the number N of surviving entries, O = 28,
    T = 28 + 8 N, S = 0 and H = 28 + 16 N; it is at least H bytes long.
    N is the number of input entries that pass the filter.  [make_mo]
    does produce a file, with N entries, for every catalog whose strings
    can be encoded and whose file has at most 2^32 bytes.  When no entry
    survives, it produces exactly the 28 bytes of the header. *)
Theorem C4_header_layout (pairs : list (str * str)) :
  (forall file,
      produces pairs file ->
      exists ps,
        kept pairs = Ok ps /\
        len ps = len (filter keep pairs) /\
        u32_at file 0 = Some 0x950412de /\
        u32_at file 4 = Some 0 /\
        u32_at file 8 = Some (len ps) /\
        u32_at file 12 = Some 28 /\
        u32_at file 16 = Some (28 + 8 * len ps) /\
        u32_at file 20 = Some 0 /\
        u32_at file 24 = Some (28 + 16 * len ps) /\
        28 + 16 * len ps <= len file /\
        (ps = [] -> file = header 0)) /\
  (Forall (fun p => encodable (fst p) = true /\ encodable (snd p) = true)
          pairs ->
   exists ps ks vs,
     kept pairs = Ok ps /\
     encode_all (map fst ps) = Ok ks /\ encode_all (map snd ps) = Ok vs /\
     (data_start (len ps) + data_size ks + data_size vs <= 2 ^ 32 ->
      produces pairs (image ks vs) /\
      u32_at (image ks vs) 8 = Some (len (filter keep pairs)) /\
      u32_at (image ks vs) 16 = Some (28 + 8 * len (filter keep pairs)) /\
      u32_at (image ks vs) 24
      = Some (28 + 16 * len (filter keep pairs)))) /\
  (filter keep pairs = [] -> produces pairs (header 0)) /\
  header 0
  = [Byte.xde; Byte.x12; Byte.x04; Byte.x95; Byte.x00; Byte.x00; Byte.x00;
     Byte.x00; Byte.x00; Byte.x00; Byte.x00; Byte.x00; Byte.x1c; Byte.x00;
     Byte.x00; Byte.x00; Byte.x1c; Byte.x00; Byte.x00; Byte.x00; Byte.x00;
     Byte.x00; Byte.x00; Byte.x00; Byte.x1c; Byte.x00; Byte.x00; Byte.x00].
Proof.
  assert (Hfields : forall file,
             produces pairs file ->
             exists ps,
               kept pairs = Ok ps /\
               len ps = len (filter keep pairs) /\
               u32_at file 0 = Some 0x950412de /\
               u32_at file 4 = Some 0 /\
               u32_at file 8 = Some (len ps) /\
               u32_at file 12 = Some 28 /\
               u32_at file 16 = Some (28 + 8 * len ps) /\
               u32_at file 20 = Some 0 /\
               u32_at file 24 = Some (28 + 16 * len ps) /\
               28 + 16 * len ps <= len file /\
               (ps = [] -> file = header 0)).
  { intros file Hfile.
    destruct (mo_read_produced pairs file Hfile)
      as (ps & ks & vs & Hk & Hks & Hvs & Hlen & Hfit & -> & _ & _).
    assert (En : len ks = len ps).
    { unfold len. rewrite (encode_all_length _ _ Hks), length_map.
      reflexivity. }
    assert (Ef : len ps = len (filter keep pairs)).
    { destruct (kept_spec pairs ps Hk) as (Hperm & _).
      unfold len. rewrite (Permutation_length Hperm). reflexivity. }
    exists ps. split; [exact Hk |]. split; [exact Ef |].
    pose proof (image_header ks vs 0 _ Hfit eq_refl) as F0.
    pose proof (image_header ks vs 1 _ Hfit eq_refl) as F1.
    pose proof (image_header ks vs 2 _ Hfit eq_refl) as F2.
    pose proof (image_header ks vs 3 _ Hfit eq_refl) as F3.
    pose proof (image_header ks vs 4 _ Hfit eq_refl) as F4.
    pose proof (image_header ks vs 5 _ Hfit eq_refl) as F5.
    pose proof (image_header ks vs 6 _ Hfit eq_refl) as F6.
    unfold data_start in F6. rewrite En in *.
    replace (28 + len ps * 8) with (28 + 8 * len ps) in F4 by lia.
    replace (28 + len ps * 8 + len ps * 8) with (28 + 16 * len ps) in F6
      by lia.
    repeat split; try assumption.
    + unfold image. cbv zeta. unfold len in *.
      rewrite !length_app, !length_table, !length_metas, length_header.
      lia.
    + intros ->. destruct ks; [| discriminate En].
      destruct vs; [| discriminate Hlen]. reflexivity. }
  split; [exact Hfields |]. split; [| split; [| reflexivity]].
  - intros Henc.
    destruct (make_mo_total pairs Henc) as (ps & ks & vs & Hk & Hks & Hvs & Hp).
    exists ps, ks, vs.
    split; [exact Hk |]. split; [exact Hks |]. split; [exact Hvs |].
    intros Hsize. pose proof (Hp Hsize) as Hprod.
    split; [exact Hprod |].
    destruct (Hfields _ Hprod)
      as (ps' & Hk' & Ef & _ & _ & H8 & _ & H16 & _ & H24 & _).
    rewrite Hk in Hk'. apply Ok_inj in Hk'. subst ps'.
    rewrite <- Ef. repeat split; assumption.
  - intros Hempty.
    assert (Hk : kept pairs = Ok []).
    { unfold kept. rewrite Hempty. reflexivity. }
    exists (0, 28).
    apply (make_mo_ok pairs [] [] [] Hk eq_refl eq_refl eq_refl).
Qed.

(** A catalog of three entries, two of which survive: the file of 70 bytes
    has N = 2, T = 44 and H = 60. *)
Lemma C4_header_layout_witness :
  produces [(py "a", py ""); (py "b", py "x"); (py "", py "meta")]
           (image [[]; [Byte.x62]]
                  [[Byte.x6d; Byte.x65; Byte.x74; Byte.x61]; [Byte.x78]]) /\
  u32_at (image [[]; [Byte.x62]]
                [[Byte.x6d; Byte.x65; Byte.x74; Byte.x61]; [Byte.x78]]) 8
  = Some 2 /\
  u32_at (image [[]; [Byte.x62]]
                [[Byte.x6d; Byte.x65; Byte.x74; Byte.x61]; [Byte.x78]]) 16
  = Some 44 /\
  u32_at (image [[]; [Byte.x62]]
                [[Byte.x6d; Byte.x65; Byte.x74; Byte.x61]; [Byte.x78]]) 24
  = Some 60.
Proof.
  destruct (C4_header_layout
              [(py "a", py ""); (py "b", py "x"); (py "", py "meta")])
    as (_ & H & _).
  destruct H as (ps & ks & vs & Hk & Hks & Hvs & Hp).
  { repeat constructor. }
  apply Ok_inj in Hk. subst ps.
  apply Ok_inj in Hks. subst ks.
  apply Ok_inj in Hvs. subst vs.
  destruct Hp as (Hprod & H8 & H16 & H24).
  { vm_compute. discriminate. }
  repeat split; assumption.
Defined.

Section TableEntries.

Lemma table_entry (m : list (N * N)) :
  forall (i : nat) (l o : N) (tpre tpost file : bytes),
    file = tpre ++ table m ++ tpost ->
    forallb fit2 m = true ->
    nth_error m i = Some (l, o) ->
    u32_at file (length tpre + 8 * i) = Some l /\
    u32_at file (length tpre + 8 * i + 4) = Some o.
Proof.
  induction m as [| [l0 o0] m IH]; intros i l o tpre tpost file Hfile Hfit Hi.
  - destruct i; discriminate.
  - cbn [forallb] in Hfit. apply andb_true_iff in Hfit.
    destruct Hfit as [Hlo Hfit]. apply andb_true_iff in Hlo.
    cbn [fst snd] in Hlo. destruct Hlo as [Hl Ho].
    assert (Hfile' : file = tpre ++ u32le l0 ++ u32le o0 ++ table m ++ tpost).
    { rewrite Hfile. unfold table. cbn [flat_map fst snd].
      rewrite <- !app_assoc. reflexivity. }
    destruct i as [| i]; cbn [nth_error] in Hi.
    + injection Hi as <- <-.
      rewrite Nat.mul_0_r, Nat.add_0_r. split.
      * rewrite Hfile'. apply u32_at_middle, Hl.
      * rewrite Hfile'.
        replace (length tpre + 4)%nat with (length (tpre ++ u32le l0))
          by (rewrite length_app; reflexivity).
        rewrite (app_assoc tpre (u32le l0)).
        apply u32_at_middle, Ho.
    + replace (length tpre + 8 * S i)%nat
        with (length (tpre ++ u32le l0 ++ u32le o0) + 8 * i)%nat
        by (rewrite !length_app; simpl; lia).
      apply (IH i l o _ tpost file); [| exact Hfit | exact Hi].
      rewrite Hfile'. rewrite <- !app_assoc. reflexivity.
Qed.

Lemma nth_error_metas (bs : list bytes) :
  forall (pos : N) (i : nat) (b : bytes),
    nth_error bs i = Some b ->
    nth_error (metas pos bs) i
    = Some (len b, pos + data_size (firstn i bs)).
Proof.
  induction bs as [| b0 bs IH]; intros pos i b Hi.
  - destruct i; discriminate.
  - destruct i as [| i]; cbn [nth_error metas firstn data_size] in *.
    + injection Hi as <-. rewrite N.add_0_r. reflexivity.
    + rewrite (IH _ i b Hi). rewrite <- N.add_assoc. reflexivity.
Qed.

Lemma Forall2_nth_error {A B : Type} (R : A -> B -> Prop)
      (l : list A) (l' : list B) :
  Forall2 R l l' ->
  forall i a, nth_error l i = Some a ->
              exists b, nth_error l' i = Some b /\ R a b.
Proof.
  induction 1 as [| x y l l' Hxy _ IH]; intros i a Hi.
  - destruct i; discriminate.
  - destruct i as [| i]; cbn [nth_error] in *.
    + injection Hi as <-. eauto.
    + apply (IH i a Hi).
Qed.

End TableEntries.

Section StringAt.

Lemma string_at_spec (file : bytes) (off n : nat) (s : bytes) :
  string_at file off n = Some s ->
  firstn n (skipn off file) = s /\ length s = n /\
  nth_error file (off + n) = Some NUL.
Proof.
  unfold string_at.
  destruct (length (firstn n (skipn off file)) =? n)%nat eqn:E;
    [| discriminate].
  destruct (nth_error file (off + n)) as [b |]; [| discriminate].
  destruct (Byte.eqb b NUL) eqn:Eb; [| discriminate].
  intros [= <-]. apply Nat.eqb_eq in E. apply Byte.byte_dec_bl in Eb.
  subst b. auto.
Qed.

Lemma points_to_spec (file : bytes) (l o : N) (b : bytes) :
  points_to file (l, o) b ->
  l = len b /\
  firstn (length b) (skipn (N.to_nat o) file) = b /\
  nth_error file (N.to_nat o + length b) = Some NUL.
Proof.
  intros [E H]. cbn [fst snd] in *. subst l.
  unfold len in H. rewrite Nat2N.id in H.
  destruct (string_at_spec _ _ _ _ H) as (H1 & _ & H2). auto.
Qed.

End StringAt.

(** C5: Offset/length exactness.  In a file that [make_mo] produces, with
    [ks] and [vs] the UTF-8 encodings of the original and translated strings
    of the surviving entries in table order and H = 28 + 16 N: entry [i] of
    the original-strings table holds the byte length of [ks[i]] and the
    offset H plus the lengths, each plus one, of the strings before it; at
    that offset the file holds the bytes of [ks[i]], followed by NUL.  The
    same holds for the translated-strings table, whose strings follow the
    original strings.  From H on the file is the original strings, then the
    translated strings, each exactly once with its NUL, and nothing else. *)
Theorem C5_offsets_lengths (pairs : list (str * str)) (file : bytes) :
  produces pairs file ->
  exists ps ks vs,
    kept pairs = Ok ps /\
    encode_all (map fst ps) = Ok ks /\ encode_all (map snd ps) = Ok vs /\
    let h := 28 + 16 * len ps in
    (forall i bk,
        nth_error ks i = Some bk ->
        let off := h + data_size (firstn i ks) in
        u32_at file (28 + 8 * i) = Some (len bk) /\
        u32_at file (28 + 8 * i + 4) = Some off /\
        firstn (length bk) (skipn (N.to_nat off) file) = bk /\
        nth_error file (N.to_nat off + length bk) = Some NUL) /\
    (forall i bv,
        nth_error vs i = Some bv ->
        let off := h + data_size ks + data_size (firstn i vs) in
        u32_at file (28 + 8 * length ps + 8 * i) = Some (len bv) /\
        u32_at file (28 + 8 * length ps + 8 * i + 4) = Some off /\
        firstn (length bv) (skipn (N.to_nat off) file) = bv /\
        nth_error file (N.to_nat off + length bv) = Some NUL) /\
    skipn (N.to_nat h) file = data ks ++ data vs /\
    len file = h + data_size ks + data_size vs.
Proof.
  intros Hfile.
  destruct (mo_read_produced pairs file Hfile)
    as (ps & ks & vs & Hk & Hks & Hvs & Hlen & Hfit & -> & _ & _).
  assert (Lk : length ks = length ps).
  { rewrite (encode_all_length _ _ Hks), length_map. reflexivity. }
  assert (Eh : data_start (len ks) = 28 + 16 * len ps).
  { unfold data_start, len. rewrite Lk. lia. }
  destruct (all_fit_parts ks vs Hfit) as (_ & F2 & F3).
  destruct (image_tables ks vs Hlen Hfit) as (_ & _ & Pk & Pv).
  exists ps, ks, vs. split; [exact Hk |]. split; [exact Hks |].
  split; [exact Hvs |]. cbv zeta.
  set (file := image ks vs) in *.
  set (om := metas (data_start (len ks)) ks) in *.
  set (tm := metas (data_start (len ks) + data_size ks) vs) in *.
  assert (Hprefix : len (header (len ks) ++ table om ++ table tm)
                    = 28 + 16 * len ps).
  { rewrite <- Eh. unfold len. rewrite !length_app, !length_table.
    unfold om, tm. rewrite !length_metas, length_header.
    unfold data_start, len. lia. }
  split; [| split; [| split]].
  - intros i bk Hi.
    pose proof (nth_error_metas ks (data_start (len ks)) i bk Hi) as Hm.
    fold om in Hm. rewrite Eh in Hm.
    destruct (table_entry om i _ _ (header (len ks))
                          (table tm ++ data ks ++ data vs) file
                          eq_refl F2 Hm) as [U1 U2].
    rewrite length_header in U1, U2.
    destruct (Forall2_nth_error _ _ _ Pk i _ Hm) as (b' & Hb' & Hp).
    rewrite Hi in Hb'. injection Hb' as <-.
    destruct (points_to_spec _ _ _ _ Hp) as (_ & S1 & S2).
    auto.
  - intros i bv Hi.
    pose proof (nth_error_metas vs (data_start (len ks) + data_size ks)
                                i bv Hi) as Hm.
    fold tm in Hm. rewrite Eh in Hm.
    destruct (table_entry tm i (len bv)
                (28 + 16 * len ps + data_size ks + data_size (firstn i vs))
                (header (len ks) ++ table om)
                (data ks ++ data vs) file) as [U1 U2];
      [| exact F3 | exact Hm |].
    { unfold file, image. cbv zeta. fold om tm.
      rewrite <- !app_assoc. reflexivity. }
    rewrite length_app, length_table, length_header in U1, U2.
    unfold om in U1, U2. rewrite length_metas, Lk in U1, U2.
    destruct (Forall2_nth_error _ _ _ Pv i _ Hm) as (b' & Hb' & Hp).
    rewrite Hi in Hb'. injection Hb' as <-.
    destruct (points_to_spec _ _ _ _ Hp) as (_ & S1 & S2).
    auto.
  - rewrite <- Hprefix. unfold len. rewrite Nat2N.id.
    unfold file, image. cbv zeta. fold om tm.
    replace (header (len ks) ++ table om ++ table tm ++ data ks ++ data vs)
      with ((header (len ks) ++ table om ++ table tm) ++ data ks ++ data vs)
      by (rewrite <- !app_assoc; reflexivity).
    rewrite skipn_app, skipn_all, Nat.sub_diag. reflexivity.
  - rewrite <- Hprefix, <- !len_data.
    unfold file, image. cbv zeta. fold om tm.
    unfold len. rewrite !length_app. lia.
Qed.

(** Two entries with the same translation: it is stored twice. *)
Lemma C5_offsets_lengths_witness :
  exists ps ks vs,
    kept [(py "b", py "x"); (py "a", py "x")] = Ok ps /\
    encode_all (map fst ps) = Ok ks /\ encode_all (map snd ps) = Ok vs /\
    skipn (N.to_nat (28 + 16 * len ps))
          (image [[Byte.x61]; [Byte.x62]] [[Byte.x78]; [Byte.x78]])
    = data ks ++ data vs.
Proof.
  destruct (C5_offsets_lengths
              [(py "b", py "x"); (py "a", py "x")]
              (image [[Byte.x61]; [Byte.x62]] [[Byte.x78]; [Byte.x78]]))
    as (ps & ks & vs & Hk & Hks & Hvs & _ & _ & Hdata & _).
  - exists (2, 68). reflexivity.
  - exists ps, ks, vs. repeat split; assumption.
Defined.

(** ** From the text of a catalog to its file *)

Section Pipeline.

Lemma encodable_app (a b : str) :
  encodable (a ++ b) = encodable a && encodable b.
Proof. apply forallb_app. Qed.

Lemma forallb_firstn {A : Type} (p : A -> bool) (l : list A) :
  forall n, forallb p l = true -> forallb p (firstn n l) = true.
Proof.
  induction l as [| x l IH]; intros [| n] H; simpl in *; try reflexivity.
  apply andb_true_iff in H. destruct H as [Hx Hl].
  rewrite Hx, (IH n Hl). reflexivity.
Qed.

Lemma forallb_skipn {A : Type} (p : A -> bool) (l : list A) :
  forall n, forallb p l = true -> forallb p (skipn n l) = true.
Proof.
  induction l as [| x l IH]; intros [| n] H; simpl in *; try reflexivity.
  - exact H.
  - apply andb_true_iff in H. destruct H as [_ Hl]. apply (IH n Hl).
Qed.

Lemma forallb_dropwhile {A : Type} (p q : A -> bool) (l : list A) :
  forallb p l = true -> forallb p (dropwhile q l) = true.
Proof.
  induction l as [| x l IH]; simpl; intros H; [reflexivity |].
  destruct (q x); [| exact H].
  apply andb_true_iff in H. destruct H as [_ Hl]. apply (IH Hl).
Qed.

Lemma encodable_slice (s : str) (a b : Z) :
  encodable s = true -> encodable (slice s a b) = true.
Proof.
  intros H. unfold slice. apply forallb_firstn, forallb_skipn, H.
Qed.

Lemma encodable_chomp (s : str) :
  encodable s = true -> encodable (chomp s) = true.
Proof.
  intros H. unfold chomp, rstrip, encodable.
  rewrite forallb_rev. apply forallb_dropwhile.
  rewrite forallb_rev. exact H.
Qed.

(** [unescape] yields characters of its argument or ASCII characters. *)
Lemma encodable_unescape_chars (s : str) :
  encodable s = true -> encodable (unescape_chars s) = true.
Proof.
  unfold encodable.
  induction s as [| c | c0 c s IH1 IH2] using scan_ind; intros H.
  - reflexivity.
  - simpl in *. destruct (c =? BACKSLASH); exact H.
  - rewrite unescape_chars_cons.
    cbn [forallb] in H. apply andb_true_iff in H. destruct H as [H0 H].
    pose proof H as H'. cbn [forallb] in H'.
    apply andb_true_iff in H'. destruct H' as [Hc Hs].
    destruct (c0 =? BACKSLASH) eqn:E0.
    + apply N.eqb_eq in E0. subst c0.
      repeat match goal with
             | |- context [if ?b then _ else _] => destruct b
             end;
        cbn [forallb]; rewrite ?H0, ?Hc, (IH1 Hs); reflexivity.
    + cbn [forallb]. rewrite H0, (IH2 H). reflexivity.
Qed.

Lemma state_encodable_save (st : po_state) :
  state_encodable st -> state_encodable (save st).
Proof.
  intros Hst. pose proof Hst as (Hp & Hk & Hv). unfold save.
  destruct (cur_id st) as [k |] eqn:Ek; [| exact Hst].
  destruct (cur_str st) as [v |] eqn:Ev; [| exact Hst].
  repeat split; cbn [pairs cur_id cur_str]; try assumption.
  apply Forall_app. split; [exact Hp |].
  constructor; [| constructor].
  split; [apply Hk | apply Hv]; reflexivity.
Qed.

Lemma parse_line_encodable (st st' : po_state) (line : str) :
  encodable line = true -> state_encodable st ->
  parse_line st line = Ok st' -> state_encodable st'.
Proof.
  intros Hl Hst. rewrite parse_line_cases.
  assert (Hpay : forall n,
             encodable (unescape_chars (slice (chomp line) n (-1))) = true).
  { intros n.
    apply encodable_unescape_chars, encodable_slice, encodable_chomp, Hl. }
  destruct (is_skipped line); [intros [= <-]; exact Hst |].
  destruct (is_msgid line).
  { intros [= <-]. destruct (state_encodable_save st Hst) as (Hp & _).
    repeat split; cbn [fresh pairs cur_id cur_str]; try assumption.
    - intros k [= <-]. apply Hpay.
    - intros v [=]. }
  pose proof Hst as (Hp & Hk & Hv).
  destruct (is_msgstr line).
  { intros [= <-].
    repeat split; cbn [with_str pairs cur_id cur_str]; try assumption.
    intros v [= <-]. apply Hpay. }
  destruct (is_bare_quoted line); [| intros [= <-]; exact Hst].
  unfold append_current.
  destruct (in_id st).
  - destruct (cur_id st) as [k |] eqn:Ek; cbn [iadd rbind]; [| discriminate].
    intros [= <-].
    repeat split; cbn [pairs cur_id cur_str]; try assumption.
    intros k' [= <-]. rewrite encodable_app, (Hk k eq_refl), Hpay.
    reflexivity.
  - destruct (in_str st); [| intros [= <-]; exact Hst].
    destruct (cur_str st) as [v |] eqn:Ev; cbn [iadd rbind]; [| discriminate].
    intros [= <-].
    repeat split; cbn [pairs cur_id cur_str]; try assumption.
    intros v' [= <-]. rewrite encodable_app, (Hv v eq_refl), Hpay.
    reflexivity.
Qed.

Lemma parse_lines_encodable (f : list str) :
  forall st st',
    Forall (fun l => encodable l = true) f -> state_encodable st ->
    parse_lines st f = Ok st' -> state_encodable st'.
Proof.
  induction f as [| line f IH]; intros st st' Hf Hst; simpl.
  - intros [= <-]. exact Hst.
  - inversion Hf as [| ? ? Hl Hf']; subst.
    destruct (parse_line st line) as [e | st1] eqn:E; simpl; [discriminate |].
    apply (IH st1 st' Hf').
    apply (parse_line_encodable st st1 line Hl Hst E).
Qed.

(** A catalog parsed from lines of encodable characters, which is what
    the text of a UTF-8 file consists of, is a catalog of encodable
    strings. *)
Lemma parse_po_encodable (f : list str) (ps : list (str * str)) :
  Forall (fun l => encodable l = true) f ->
  parse_po f = Ok ps -> Forall pair_encodable ps.
Proof.
  intros Hf. unfold parse_po.
  destruct (parse_lines po_init f) as [e | st] eqn:E; simpl; [discriminate |].
  intros [= <-].
  apply state_encodable_save.
  apply (parse_lines_encodable f po_init st Hf); [| exact E].
  repeat split; simpl; [constructor | discriminate | discriminate].
Qed.

(** The whole program: the lines of a text are parsed, and the parsed
    catalog is written, when its file has at most 2^32 bytes, to a file
    from which the reader gets the surviving entries back. *)
Lemma parse_then_make_mo (f : list str) :
  Forall (fun l => encodable l = true) f ->
  exists pairs ps ks vs,
    parse_po f = Ok pairs /\
    kept pairs = Ok ps /\
    encode_all (map fst ps) = Ok ks /\ encode_all (map snd ps) = Ok vs /\
    (data_start (len ps) + data_size ks + data_size vs <= 2 ^ 32 ->
     produces pairs (image ks vs) /\ mo_read (image ks vs) = Some ps).
Proof.
  intros Hf.
  destruct (parse_po_total f) as (pairs & Hparse).
  pose proof (parse_po_encodable f pairs Hf Hparse) as Henc.
  destruct (make_mo_total pairs Henc) as (ps & ks & vs & Hk & Hks & Hvs & Hp).
  exists pairs, ps, ks, vs. repeat split; try assumption.
  - apply Hp, H.
  - destruct (mo_read_produced pairs _ (Hp H))
      as (ps' & ks' & vs' & Hk' & _ & _ & _ & _ & _ & _ & Hread).
    rewrite Hk in Hk'. apply Ok_inj in Hk'. subst ps'. exact Hread.
Qed.

End Pipeline.

(* ================================================================== *)
(** * Part IV: further properties of the three functions and of the
      main block *)
(* ================================================================== *)

(** ** [unescape] and its inverse *)

Section UnescapeMore.

Lemma unescape_chars_length (s : str) :
  (length (unescape_chars s) <= length s)%nat.
Proof.
  induction s as [| c | c0 c s IH1 IH2] using scan_ind.
  - apply Nat.le_refl.
  - simpl. destruct (c =? BACKSLASH); apply Nat.le_refl.
  - rewrite unescape_chars_cons.
    destruct (c0 =? BACKSLASH).
    + repeat match goal with
             | |- context [if ?b then _ else _] => destruct b
             end; cbn [length]; lia.
    + cbn [length] in *. lia.
Qed.

Lemma unescape_chars_plain (s : str) :
  mem BACKSLASH s = false -> unescape_chars s = s.
Proof.
  unfold mem. induction s as [| c s IH]; [reflexivity |].
  cbn [existsb]. intros H. apply orb_false_iff in H. destruct H as [Hc Hs].
  rewrite unescape_chars_cons.
  rewrite N.eqb_sym in Hc. rewrite Hc, (IH Hs). reflexivity.
Qed.

Lemma unescape_chars_escape (t : str) : unescape_chars (escape t) = t.
Proof.
  induction t as [| c t IH]; [reflexivity |].
  cbn [escape].
  destruct (c =? LF) eqn:E1;
    [apply N.eqb_eq in E1; subst c; rewrite unescape_chars_cons;
     cbn; rewrite IH; reflexivity |].
  destruct (c =? TAB) eqn:E2;
    [apply N.eqb_eq in E2; subst c; rewrite unescape_chars_cons;
     cbn; rewrite IH; reflexivity |].
  destruct (c =? CR) eqn:E3;
    [apply N.eqb_eq in E3; subst c; rewrite unescape_chars_cons;
     cbn; rewrite IH; reflexivity |].
  destruct (c =? DQUOTE) eqn:E4;
    [apply N.eqb_eq in E4; subst c; rewrite unescape_chars_cons;
     cbn; rewrite IH; reflexivity |].
  destruct (c =? BACKSLASH) eqn:E5;
    [apply N.eqb_eq in E5; subst c; rewrite unescape_chars_cons;
     cbn; rewrite IH; reflexivity |].
  rewrite unescape_chars_cons, E5, IH. reflexivity.
Qed.

Lemma one_line_cons (c : char) (s : str) :
  one_line (c :: s) = negb (mem c [CR; LF]) && one_line s.
Proof. reflexivity. Qed.

Lemma one_line_escape (t : str) : one_line (escape t) = true.
Proof.
  induction t as [| c t IH]; [reflexivity |].
  cbn [escape].
  destruct (c =? LF) eqn:E1; [rewrite !one_line_cons, IH; reflexivity |].
  destruct (c =? TAB) eqn:E2; [rewrite !one_line_cons, IH; reflexivity |].
  destruct (c =? CR) eqn:E3; [rewrite !one_line_cons, IH; reflexivity |].
  destruct (c =? DQUOTE) eqn:E4; [rewrite !one_line_cons, IH; reflexivity |].
  destruct (c =? BACKSLASH) eqn:E5;
    [rewrite !one_line_cons, IH; reflexivity |].
  rewrite one_line_cons, IH. cbn [mem existsb]. rewrite E1, E3. reflexivity.
Qed.

End UnescapeMore.

(** X1: [unescape] never lengthens a string, and it returns a string
    without backslash unchanged. *)
Theorem unescape_shrinks (s : str) :
  exists r,
    unescape s = Ok r /\
    (length r <= length s)%nat /\
    (mem BACKSLASH s = false -> r = s).
Proof.
  exists (unescape_chars s). split; [apply unescape_eq |].
  split; [apply unescape_chars_length | apply unescape_chars_plain].
Qed.

Lemma unescape_shrinks_witness : unescape (py "plain text") = Ok (py "plain text").
Proof.
  destruct (unescape_shrinks (py "plain text")) as (r & Hr & _ & H).
  rewrite Hr, (H eq_refl). reflexivity.
Defined.

(** X2: every string is the value of a payload that fits on one line:
    [unescape] undoes the usual escaping (LF, TAB, CR, the double quote and
    the backslash written with a backslash), and the escaped string holds
    no CR and no LF. *)
Theorem unescape_escape (t : str) :
  unescape (escape t) = Ok t /\ one_line (escape t) = true.
Proof.
  split; [| apply one_line_escape].
  rewrite unescape_eq, unescape_chars_escape. reflexivity.
Qed.

(** X3: [unescape] distributes over a concatenation whose first part does
    not end in a backslash that waits for its character: a payload may be
    cut there, and only there, without changing its value. *)
Theorem unescape_app (a b ra rb : str) :
  dangling a = false ->
  unescape a = Ok ra -> unescape b = Ok rb ->
  unescape (a ++ b) = Ok (ra ++ rb).
Proof.
  intros Hd Ha Hb. rewrite unescape_eq in *.
  apply Ok_inj in Ha, Hb. subst ra rb.
  rewrite (unescape_chars_app a b Hd). reflexivity.
Qed.

Lemma unescape_app_witness :
  unescape (py "a\\" ++ py "nb") = Ok (py "a\" ++ py "nb").
Proof.
  apply unescape_app; reflexivity.
Defined.

(** ** [parse_po] on a catalog written as text *)

Section RenderParse.

Lemma is_bare_quoted_canonical (P eol : str) :
  is_eol eol = true ->
  is_bare_quoted (quoted P ++ eol) = true
  /\ chomp (quoted P ++ eol) = quoted P.
Proof.
  intros H.
  pose proof (chomp_canonical [] P eol H) as E. rewrite !app_nil_l in E.
  split; [| exact E].
  unfold is_bare_quoted, endswith. rewrite E. unfold quoted.
  cbn [startswith rev]. rewrite rev_app_distr. cbn [rev app startswith].
  rewrite N.eqb_refl. reflexivity.
Qed.

Lemma parse_line_keyword_id (st : po_state) (P : str) :
  parse_line st (keyword_line (py "msgid ") P)
  = Ok (fresh (pairs (save st)) P).
Proof.
  unfold keyword_line.
  destruct (is_msgid_canonical (escape P) [LF] eq_refl) as [Hid Eid].
  rewrite (parse_line_msgid _ _ Hid), Eid.
  change (py "msgid " ++ quoted (escape P))
    with ((py "msgid " ++ [DQUOTE]) ++ escape P ++ [DQUOTE]).
  rewrite slice_payload by reflexivity.
  rewrite unescape_chars_escape. reflexivity.
Qed.

Lemma parse_line_keyword_str (st : po_state) (P : str) :
  parse_line st (keyword_line (py "msgstr ") P) = Ok (with_str st P).
Proof.
  unfold keyword_line.
  destruct (is_msgstr_canonical (escape P) [LF] eq_refl) as [Hstr Estr].
  rewrite (parse_line_msgstr _ _ Hstr), Estr.
  change (py "msgstr " ++ quoted (escape P))
    with ((py "msgstr " ++ [DQUOTE]) ++ escape P ++ [DQUOTE]).
  rewrite slice_payload by reflexivity.
  rewrite unescape_chars_escape. reflexivity.
Qed.

Lemma parse_line_continuation (st : po_state) (P : str) :
  parse_line st (continuation_line P) = append_current st P.
Proof.
  unfold continuation_line.
  destruct (is_bare_quoted_canonical (escape P) [LF] eq_refl) as [Hq Eq].
  rewrite (parse_line_bare_quoted _ _ Hq), Eq.
  change (quoted (escape P)) with ([DQUOTE] ++ escape P ++ [DQUOTE]).
  rewrite (slice_payload [DQUOTE] (escape P) DQUOTE 1 eq_refl).
  rewrite unescape_chars_escape. reflexivity.
Qed.

Lemma append_current_id (ps : list (str * str)) (k fr : str) :
  append_current (fresh ps k) fr = Ok (fresh ps (k ++ fr)).
Proof. reflexivity. Qed.

Lemma append_current_str (st : po_state) (v fr : str) :
  append_current (with_str st v) fr = Ok (with_str st (v ++ fr)).
Proof. reflexivity. Qed.

Lemma parse_continuations_id (frs : list str) :
  forall ps k,
    parse_lines (fresh ps k) (map continuation_line frs)
    = Ok (fresh ps (k ++ concat frs)).
Proof.
  induction frs as [| fr frs IH]; intros ps k; cbn [map parse_lines concat].
  - rewrite app_nil_r. reflexivity.
  - rewrite parse_line_continuation, append_current_id. cbn [rbind Ok].
    rewrite IH, <- app_assoc. reflexivity.
Qed.

Lemma parse_continuations_str (frs : list str) :
  forall st v,
    parse_lines (with_str st v) (map continuation_line frs)
    = Ok (with_str st (v ++ concat frs)).
Proof.
  induction frs as [| fr frs IH]; intros st v; cbn [map parse_lines concat].
  - rewrite app_nil_r. reflexivity.
  - rewrite parse_line_continuation, append_current_str. cbn [rbind Ok].
    rewrite IH, <- app_assoc. reflexivity.
Qed.

Lemma parse_lines_entry (st : po_state) (e : fragments * fragments) :
  parse_lines st (render_entry e)
  = Ok (with_str (fresh (pairs (save st)) (field_value (fst e)))
                 (field_value (snd e))).
Proof.
  destruct e as [[k ks] [v vs]].
  unfold render_entry, render_field, field_value. cbn [fst snd].
  rewrite parse_lines_app. cbn [parse_lines].
  rewrite parse_line_keyword_id. cbn [rbind Ok].
  rewrite parse_continuations_id. cbn [rbind Ok].
  rewrite parse_line_keyword_str. cbn [rbind Ok].
  apply parse_continuations_str.
Qed.

Lemma parse_po_entry (e : fragments * fragments) :
  parse_po (render_entry e)
  = Ok [(field_value (fst e), field_value (snd e))].
Proof.
  unfold parse_po. rewrite parse_lines_entry. reflexivity.
Qed.

Lemma render_entry_head (e : fragments * fragments) :
  exists l rest, render_entry e = l :: rest /\ is_msgid l = true.
Proof.
  destruct e as [[k ks] [v vs]].
  unfold render_entry, render_field. cbn [fst snd app].
  eexists. eexists. split; [reflexivity |].
  apply (is_msgid_canonical (escape k) [LF] eq_refl).
Qed.

Lemma parse_po_render (es : list (fragments * fragments)) :
  parse_po (render es) = Ok (entries_of es).
Proof.
  induction es as [| e es IH]; [reflexivity |].
  cbn [render flat_map entries_of map]. fold (render es). fold (entries_of es).
  destruct es as [| e' es'].
  - cbn [render flat_map]. rewrite app_nil_r. apply parse_po_entry.
  - destruct (render_entry_head e') as (l & rest & El & Hl).
    assert (Er : render (e' :: es') = l :: (rest ++ render es')).
    { cbn [render flat_map]. rewrite El. reflexivity. }
    rewrite Er in *.
    apply (parse_po_boundary (render_entry e) (rest ++ render es') l
             [(field_value (fst e), field_value (snd e))] _ Hl).
    + apply parse_po_entry.
    + exact IH.
Qed.

(** Splitting into lines a text made of lines that end in LF and hold no
    other line end. *)
Lemma text_lines_aux_line (body : str) :
  forall cur rest,
    one_line body = true ->
    text_lines_aux cur (body ++ LF :: rest)
    = (rev cur ++ body ++ [LF]) :: text_lines_aux [] rest.
Proof.
  induction body as [| c body IH]; intros cur rest H.
  - cbn [app text_lines_aux]. rewrite N.eqb_refl. reflexivity.
  - rewrite one_line_cons in H. apply andb_true_iff in H.
    destruct H as [Hc Hb]. apply negb_true_iff in Hc.
    cbn [mem existsb] in Hc. rewrite orb_false_r in Hc.
    apply orb_false_iff in Hc. destruct Hc as [Hcr Hlf].
    cbn [app text_lines_aux]. rewrite Hlf, Hcr.
    rewrite (IH (c :: cur) rest Hb). cbn [rev].
    rewrite <- app_assoc. reflexivity.
Qed.

Lemma text_lines_concat (lines : list str) :
  Forall (fun l => exists body, l = body ++ [LF] /\ one_line body = true)
         lines ->
  text_lines (concat lines) = lines.
Proof.
  unfold text_lines.
  induction 1 as [| l lines (body & -> & Hb) _ IH]; [reflexivity |].
  cbn [concat]. rewrite <- app_assoc. cbn [app].
  rewrite (text_lines_aux_line body [] _ Hb), IH. reflexivity.
Qed.

Lemma one_line_app (a b : str) : one_line (a ++ b) = one_line a && one_line b.
Proof. apply forallb_app. Qed.

Lemma keyword_line_shape (keyword payload : str) :
  one_line keyword = true ->
  exists body,
    keyword_line keyword payload = body ++ [LF] /\ one_line body = true.
Proof.
  intros Hk. exists (keyword ++ quoted (escape payload)).
  split; [unfold keyword_line; rewrite <- app_assoc; reflexivity |].
  unfold quoted. rewrite one_line_app, Hk, one_line_cons, one_line_app.
  rewrite one_line_escape. reflexivity.
Qed.

Lemma render_shape (es : list (fragments * fragments)) :
  Forall (fun l => exists body, l = body ++ [LF] /\ one_line body = true)
         (render es).
Proof.
  induction es as [| [[k ks] [v vs]] es IH]; [constructor |].
  cbn [render flat_map]. apply Forall_app. split; [| exact IH].
  unfold render_entry, render_field. cbn [fst snd].
  apply Forall_app. split; constructor;
    try (apply keyword_line_shape; reflexivity);
    apply Forall_forall; intros l Hl; apply in_map_iff in Hl;
    destruct Hl as (fr & <- & _);
    apply (keyword_line_shape [] fr eq_refl).
Qed.

End RenderParse.

(** X4: a catalog written as text is read back.  Every entry is written
    as a [msgid] line and a [msgstr] line, each followed by any number of
    continuation lines, all payloads escaped and every line ended by LF;
    [parse_po], on the lines of that text, returns the entries in the order
    of the text, each field being the concatenation of its fragments. *)
Theorem parse_po_render_text (es : list (fragments * fragments)) :
  text_lines (concat (render es)) = render es /\
  parse_po (text_lines (concat (render es))) = Ok (entries_of es).
Proof.
  rewrite (text_lines_concat _ (render_shape es)).
  split; [reflexivity | apply parse_po_render].
Qed.

(** ** Lines that [parse_po] ignores *)

Section IgnoredLines.

Lemma parse_po_drop_line (a b : list str) (l : str) :
  (forall st, parse_line st l = Ok st) ->
  parse_po (a ++ l :: b) = parse_po (a ++ b).
Proof.
  intros H. unfold parse_po. rewrite !parse_lines_app.
  destruct (parse_lines po_init a) as [e | st]; [reflexivity |].
  cbn [rbind parse_lines]. rewrite H. reflexivity.
Qed.

Lemma parse_line_ignored (st : po_state) (l : str) :
  is_skipped l = true \/ is_other l = true -> parse_line st l = Ok st.
Proof.
  rewrite parse_line_cases. intros [H | H].
  - rewrite H. reflexivity.
  - unfold is_other in H.
    apply andb_true_iff in H. destruct H as [H H4].
    apply andb_true_iff in H. destruct H as [H H3].
    apply andb_true_iff in H. destruct H as [H1 H2].
    apply negb_true_iff in H1, H2, H3, H4.
    rewrite H1, H2, H3, H4. reflexivity.
Qed.

Lemma dropwhile_stop {A : Type} (q : A -> bool) (a b : list A) (x : A) :
  q x = false -> exists a', dropwhile q (a ++ x :: b) = a' ++ x :: b.
Proof.
  intros Hx. induction a as [| y a IH]; cbn [app dropwhile].
  - rewrite Hx. exists []. reflexivity.
  - destruct (q y); [exact IH |]. exists (y :: a). reflexivity.
Qed.

(** Removing the line end keeps a prefix that holds no line end. *)
Lemma chomp_keeps_prefix (p rest : str) :
  p <> [] -> one_line p = true -> exists r, chomp (p ++ rest) = p ++ r.
Proof.
  intros Hne Hp.
  destruct (rev p) as [| x t] eqn:E.
  { exfalso. apply Hne. rewrite <- (rev_involutive p), E. reflexivity. }
  assert (Ep : p = rev t ++ [x]).
  { rewrite <- (rev_involutive p), E. reflexivity. }
  assert (Hx : mem x [CR; LF] = false).
  { unfold one_line in Hp. rewrite Ep, forallb_app in Hp.
    apply andb_true_iff in Hp. destruct Hp as [_ Hp].
    cbn [forallb] in Hp. rewrite andb_true_r in Hp.
    apply negb_true_iff, Hp. }
  unfold chomp, rstrip. rewrite rev_app_distr, E.
  destruct (dropwhile_stop (fun c => mem c [CR; LF]) (rev rest) t x Hx)
    as (a' & ->).
  exists (rev a'). rewrite rev_app_distr. cbn [rev].
  rewrite Ep. reflexivity.
Qed.

Lemma strip_blank (l : str) : forallb isspace l = true -> strip l = [].
Proof.
  intros H. unfold strip.
  assert (E : dropwhile isspace l = []).
  { induction l as [| c l IH]; [reflexivity |].
    cbn [forallb] in H. apply andb_true_iff in H. destruct H as [Hc Hl].
    cbn [dropwhile]. rewrite Hc. apply (IH Hl). }
  rewrite E. reflexivity.
Qed.

Lemma blank_skipped (l : str) :
  forallb isspace l = true -> is_skipped l = true.
Proof.
  intros H. unfold is_skipped.
  rewrite strip_blank; [apply orb_true_r |].
  unfold chomp, rstrip. rewrite forallb_rev.
  apply forallb_dropwhile. rewrite forallb_rev. exact H.
Qed.

Lemma comment_skipped (rest : str) : is_skipped (py "#" ++ rest) = true.
Proof.
  destruct (chomp_keeps_prefix (py "#") rest) as (r & E);
    [discriminate | reflexivity |].
  unfold is_skipped. rewrite E. reflexivity.
Qed.

Lemma other_by_prefix (p rest : str) (c : char) (p' : str) :
  p = c :: p' -> one_line p = true ->
  isspace c = false ->
  (forall r, startswith (py "#") (p ++ r) = false) ->
  (forall r, startswith (py "msgid ") (p ++ r) = false) ->
  (forall r, startswith (py "msgstr ") (p ++ r) = false) ->
  (forall r, startswith [DQUOTE] (p ++ r) = false) ->
  is_other (p ++ rest) = true.
Proof.
  intros Ep Hp Hc H1 H2 H3 H4.
  destruct (chomp_keeps_prefix p rest) as (r & E);
    [rewrite Ep; discriminate | exact Hp |].
  unfold is_other, is_msgid, is_msgstr, is_bare_quoted, is_skipped.
  rewrite E, H1, H2, H3, H4.
  rewrite Ep. cbn [app]. rewrite (strip_truthy c _ Hc). reflexivity.
Qed.

End IgnoredLines.

(** X5: comment lines, blank lines and lines of a kind that the parser
    does not know are ignored wherever they stand: the result of [parse_po]
    is the same without such a line.  Lines that start with [#], lines of
    white space, and lines that start with [msgctxt ], [msgid_plural ] or
    [msgstr[] (a context or a plural form) are of these kinds. *)
Theorem parse_po_ignores :
  (forall a b l,
      is_skipped l = true \/ is_other l = true ->
      parse_po (a ++ l :: b) = parse_po (a ++ b)) /\
  (forall rest, is_skipped (py "#" ++ rest) = true) /\
  (forall l, forallb isspace l = true -> is_skipped l = true) /\
  (forall rest,
      is_other (py "msgctxt " ++ rest) = true /\
      is_other (py "msgid_plural " ++ rest) = true /\
      is_other (py "msgstr[" ++ rest) = true).
Proof.
  split; [| split; [| split]].
  - intros a b l H. apply parse_po_drop_line.
    intros st. apply parse_line_ignored, H.
  - apply comment_skipped.
  - apply blank_skipped.
  - intros rest. repeat split.
    + apply (other_by_prefix (py "msgctxt ") rest 109 (py "sgctxt "));
        reflexivity.
    + apply (other_by_prefix (py "msgid_plural ") rest 109
                             (py "sgid_plural ")); reflexivity.
    + apply (other_by_prefix (py "msgstr[") rest 109 (py "sgstr["));
        reflexivity.
Qed.

(** A plural translation between the two lines of an entry. *)
Lemma parse_po_ignores_witness :
  parse_po ([py "msgid " ++ quoted (py "k")]
            ++ (py "msgstr[" ++ py "0] " ++ quoted (py "plural"))
            :: [py "msgstr " ++ quoted (py "v")])
  = parse_po ([py "msgid " ++ quoted (py "k")]
              ++ [py "msgstr " ++ quoted (py "v")]).
Proof.
  destruct parse_po_ignores as (H & _ & _ & Hother).
  apply H. right. apply Hother.
Defined.

(** ** The exceptions of [make_mo] *)

Section MakeMoErrors.

Lemma encode_char_scalar (c : char) (b : bytes) :
  encode_char c = Ok b -> is_scalar c = true.
Proof.
  unfold encode_char, is_scalar.
  destruct (c <? 0x80) eqn:E1.
  { intros _. apply N.ltb_lt in E1.
    replace (c <? 0xD800) with true by (symmetry; apply N.ltb_lt; lia).
    reflexivity. }
  destruct (c <? 0x800) eqn:E2.
  { intros _. apply N.ltb_lt in E2.
    replace (c <? 0xD800) with true by (symmetry; apply N.ltb_lt; lia).
    reflexivity. }
  destruct ((0xD800 <=? c) && (c <=? 0xDFFF)) eqn:E3; [discriminate |].
  destruct (c <? 0x10000) eqn:E4; [| destruct (c <? 0x110000) eqn:E5];
    try discriminate; intros _;
    apply andb_false_iff in E3;
    (destruct E3 as [E3 | E3]; apply N.leb_gt in E3;
     [replace (c <? 0xD800) with true by (symmetry; apply N.ltb_lt; lia);
      reflexivity
     | replace (0xDFFF <? c) with true by (symmetry; apply N.ltb_lt; lia);
       rewrite ?E5;
       try (apply N.ltb_lt in E4;
            replace (c <? 0x110000) with true
              by (symmetry; apply N.ltb_lt; lia));
       apply orb_true_r ]).
Qed.

Lemma encode_char_error (c : char) (e : exn) :
  encode_char c = Err e -> e = UnicodeEncodeError.
Proof.
  unfold encode_char.
  repeat match goal with
         | |- context [if ?b then _ else _] => destruct b
         end; intros H; try discriminate H; injection H as <-; reflexivity.
Qed.

(** [encode] raises exactly on the strings that hold a surrogate, and
    then [UnicodeEncodeError]. *)
Lemma encode_cases (s : str) :
  (encodable s = true /\ exists b, encode s = Ok b) \/
  (encodable s = false /\ encode s = Err UnicodeEncodeError).
Proof.
  induction s as [| c s IH]; [left; split; [reflexivity | exists []; reflexivity] |].
  unfold encodable in *. cbn [forallb encode].
  destruct (encode_char c) as [e | bc] eqn:Ec.
  - right. pose proof (encode_char_error c e Ec) as ->.
    split; [| reflexivity].
    destruct (is_scalar c) eqn:Hc; [| reflexivity].
    destruct (encode_char_total c Hc) as (b & Hb).
    rewrite Hb in Ec. discriminate.
  - rewrite (encode_char_scalar c bc Ec). cbn [andb rbind].
    destruct IH as [[H (b & ->)] | [H ->]].
    + left. split; [exact H | eexists; reflexivity].
    + right. split; [exact H | reflexivity].
Qed.

Lemma encode_ok_encodable (s : str) (b : bytes) :
  encode s = Ok b -> encodable s = true.
Proof.
  intros H. destruct (encode_cases s) as [[E _] | [_ E]]; [exact E |].
  rewrite E in H. discriminate.
Qed.

Lemma encode_all_cases (l : list str) :
  (Forall (fun s => encodable s = true) l /\ exists bs, encode_all l = Ok bs)
  \/ (Exists (fun s => encodable s = false) l
      /\ encode_all l = Err UnicodeEncodeError).
Proof.
  induction l as [| s l IH].
  - left. split; [constructor | exists []; reflexivity].
  - cbn [encode_all].
    destruct (encode_cases s) as [[Hs (b & ->)] | [Hs ->]].
    + cbn [rbind]. destruct IH as [[Hl (bs & ->)] | [Hl ->]].
      * left. split; [constructor; assumption | eexists; reflexivity].
      * right. split; [apply Exists_cons_tl, Hl | reflexivity].
    + right. split; [apply Exists_cons_hd, Hs | reflexivity].
Qed.

Lemma kept_cases (pairs : list (str * str)) :
  (Forall (fun p => encodable (fst p) = true) (filter keep pairs)
   /\ exists ps, kept pairs = Ok ps)
  \/ (Exists (fun p => encodable (fst p) = false) (filter keep pairs)
      /\ kept pairs = Err UnicodeEncodeError).
Proof.
  unfold kept, sort_by. induction (filter keep pairs) as [| p l IH].
  - left. split; [constructor | eexists; reflexivity].
  - cbn [keyed].
    destruct (encode_cases (fst p)) as [[Hp (b & ->)] | [Hp ->]].
    + cbn [rbind]. destruct IH as [[Hl (ps & E)] | [Hl E]].
      * left. split; [constructor; assumption |].
        destruct (keyed _ l) as [e | d]; [discriminate E |].
        eexists. reflexivity.
      * right. split; [apply Exists_cons_tl, Hl |].
        destruct (keyed _ l) as [e | d]; [| discriminate E].
        cbn [rbind] in *. exact E.
    + right. split; [apply Exists_cons_hd, Hp | reflexivity].
Qed.

Lemma len_image (ks vs : list bytes) :
  length ks = length vs ->
  len (image ks vs) = data_start (len ks) + data_size ks + data_size vs.
Proof.
  intros H. unfold image. cbv zeta. rewrite <- !len_data.
  unfold len. rewrite !length_app, !length_table, !length_metas.
  rewrite length_header. unfold data_start, len. lia.
Qed.

(** A table that does not fit is written up to the first entry that does
    not fit. *)
Lemma write_table_err_prefix (m : list (N * N)) :
  forall f, forallb fit2 m = false ->
            exists t1 t2,
              for_each m write_entry f = (f ++ t1, Err StructError)
              /\ t1 ++ t2 = table m /\ t2 <> [].
Proof.
  induction m as [| [l o] m IH]; intros f H; [discriminate |].
  cbn [forallb] in H. unfold fit2 in H at 1. cbn [fst snd] in H.
  rewrite for_each_cons, write_entry_eq.
  destruct (fit l && fit o).
  - cbn [Ok andb] in *. destruct (IH (f ++ u32le l ++ u32le o) H)
      as (t1 & t2 & E & Et & Hne).
    exists ((u32le l ++ u32le o) ++ t1), t2.
    rewrite E. split; [rewrite <- !app_assoc; reflexivity |].
    split; [| exact Hne].
    unfold table in *. cbn [flat_map fst snd]. rewrite <- Et.
    rewrite <- !app_assoc. reflexivity.
  - exists [], (table ((l, o) :: m)).
    rewrite app_nil_r. repeat split. discriminate.
Qed.

Lemma write_all_err_prefix (hdr : list N) (om tm : list (N * N))
      (ps : list (str * str)) :
  length hdr = 7%nat ->
  forallb fit hdr && forallb fit2 om && forallb fit2 tm = false ->
  exists f t,
    write_all hdr om tm ps [] = (f, Err StructError)
    /\ f ++ t = flat_map u32le hdr ++ table om ++ table tm /\ t <> [].
Proof.
  intros Hlen H. unfold write_all.
  rewrite io_seq_eq, write_header_eq.
  destruct (forallb fit hdr) eqn:H1.
  - cbn [Ok]. rewrite io_seq_eq.
    destruct (forallb fit2 om) eqn:H2.
    + rewrite (write_table_ok om _ H2). cbn [Ok]. rewrite io_seq_eq.
      cbn [andb] in H.
      destruct (write_table_err_prefix
                  tm (([] ++ flat_map u32le hdr) ++ table om) H)
        as (t1 & t2 & E & Et & Hne).
      rewrite E. eexists. exists t2. split; [reflexivity |].
      split; [| exact Hne].
      rewrite <- Et. cbn [app]. rewrite <- !app_assoc. reflexivity.
    + destruct (write_table_err_prefix om ([] ++ flat_map u32le hdr) H2)
        as (t1 & t2 & E & Et & Hne).
      rewrite E. eexists. exists (t2 ++ table tm).
      split; [reflexivity |]. split.
      * rewrite <- Et. cbn [app]. rewrite <- !app_assoc. reflexivity.
      * destruct t2; [contradiction | discriminate].
  - exists [], (flat_map u32le hdr ++ table om ++ table tm).
    repeat split.
    destruct hdr as [| v hdr]; [discriminate Hlen | discriminate].
Qed.

End MakeMoErrors.

Section MakeMoCases.

Lemma filter_keep_in (pairs : list (str * str)) (p : str * str) :
  In p (filter keep pairs) <-> In p pairs /\ keep p = true.
Proof. apply filter_In. Qed.

(** The three ways in which the encoding and the writing of [make_mo]
    end; the opening of the file and the printing of the summary are left
    to [make_mo_at]. *)
Lemma make_mo_cases (pairs : list (str * str)) :
  ((exists p, In p (filter keep pairs) /\
              (encodable (fst p) = false \/ encodable (snd p) = false))
   /\ make_mo pairs = {| out_file := None;
                         out_result := Err UnicodeEncodeError |})
  \/
  (Forall pair_encodable (filter keep pairs) /\
   exists ps ks vs,
     kept pairs = Ok ps /\
     encode_all (map fst ps) = Ok ks /\ encode_all (map snd ps) = Ok vs /\
     length ks = length vs /\ len ks = len ps /\
     ((all_fit ks vs = true /\
       make_mo pairs
       = {| out_file := Some (image ks vs);
            out_result :=
              Ok (len ps,
                  data_start (len ps) + data_size ks + data_size vs) |})
      \/
      (all_fit ks vs = false /\
       exists f t,
         make_mo pairs
         = {| out_file := Some f; out_result := Err StructError |}
         /\ f ++ t = header (len ps) ++ table (metas (data_start (len ps)) ks)
                     ++ table (metas (data_start (len ps) + data_size ks) vs)
         /\ t <> []))).
Proof.
  destruct (kept_cases pairs) as [[Hk (ps & Eps)] | [Hk Eps]].
  2:{ left. split.
      - apply Exists_exists in Hk. destruct Hk as (p & Hp & Hu).
        exists p. auto.
      - rewrite make_mo_unfold, Eps. reflexivity. }
  destruct (kept_spec pairs ps Eps) as (Hperm & ks & Hks & _).
  destruct (encode_all_cases (map snd ps)) as [[Hv (vs & Hvs)] | [Hv Evs]].
  2:{ left. split.
      - apply Exists_exists in Hv. destruct Hv as (s & Hs & Hu).
        apply in_map_iff in Hs. destruct Hs as (p & <- & Hp).
        exists p. split; [apply (Permutation_in _ Hperm Hp) | auto].
      - rewrite make_mo_unfold, Eps. cbn [rbind Ok]. rewrite Hks.
        cbn [rbind Ok]. rewrite Evs. reflexivity. }
  right. split.
  { rewrite Forall_forall in *. intros p Hp. split; [apply Hk, Hp |].
    apply Hv, in_map, (Permutation_in _ (Permutation_sym Hperm) Hp). }
  assert (Lk : length ks = length ps).
  { rewrite (encode_all_length _ _ Hks), length_map. reflexivity. }
  assert (Lv : length vs = length ps).
  { rewrite (encode_all_length _ _ Hvs), length_map. reflexivity. }
  assert (En : len ks = len ps) by (unfold len; rewrite Lk; reflexivity).
  exists ps, ks, vs.
  split; [exact Eps |]. split; [exact Hks |]. split; [exact Hvs |].
  split; [congruence |]. split; [exact En |].
  destruct (all_fit ks vs) eqn:Hfit.
  - left. split; [reflexivity |]. apply make_mo_ok; assumption.
  - right. split; [reflexivity |].
    unfold all_fit in Hfit. cbv zeta in Hfit. rewrite En in Hfit.
    destruct (write_all_err_prefix
                [MAGIC; 0; len ps; 28; 28 + len ps * 8; 0;
                 data_start (len ps)] _ _ ps eq_refl Hfit)
      as (f & t & E & Et & Hne).
    exists f, t. split; [| split; [exact Et | exact Hne]].
    rewrite make_mo_unfold, Eps. cbn [rbind Ok]. rewrite Hks.
    cbn [rbind Ok]. rewrite Hvs. cbn [rbind Ok]. cbv zeta.
    rewrite E. reflexivity.
Qed.

End MakeMoCases.



(** X7: a call of [make_mo] ends in one of five ways, told apart by the
    catalog and the world.  It raises [UnicodeEncodeError] before the file
    is opened, when an entry that passes the filter cannot be encoded.
    Otherwise it opens the file, and [OSError] ends the call when that
    fails.  Otherwise it raises [struct.error] while it writes the header
    or the tables, when a packed field does not fit in 32 bits: that
    needs a file of more than 2^32 bytes, and leaves a proper prefix of
    the header and the tables, without any string data.  Otherwise it
    writes the whole file, and then either [print] raises, or the summary
    is printed and the call returns. *)
Theorem make_mo_outcomes (w : world) (pairs : list (str * str))
        (out_path : str) :
  ((exists p, In p pairs /\ keep p = true /\
              (encodable (fst p) = false \/ encodable (snd p) = false)) /\
   make_mo_at w pairs out_path
   = {| stdout := []; dest := None;
        ending_of := Traceback (Raised UnicodeEncodeError) |})
  \/
  (Forall pair_encodable (filter keep pairs) /\
   exists ps ks vs,
     kept pairs = Ok ps /\
     encode_all (map fst ps) = Ok ks /\ encode_all (map snd ps) = Ok vs /\
     ((writable w out_path = false /\
       make_mo_at w pairs out_path
       = {| stdout := []; dest := None; ending_of := Traceback OSError |})
      \/
      (writable w out_path = true /\ all_fit ks vs = false /\
       2 ^ 32 < data_start (len ps) + data_size ks + data_size vs /\
       exists f t,
         make_mo_at w pairs out_path
         = {| stdout := []; dest := Some (out_path, f);
              ending_of := Traceback (Raised StructError) |}
         /\ f ++ t = header (len ps) ++ table (metas (data_start (len ps)) ks)
                     ++ table (metas (data_start (len ps) + data_size ks) vs)
         /\ t <> [])
      \/
      (writable w out_path = true /\ all_fit ks vs = true /\
       printable w (generated out_path (len ps, len (image ks vs))) = false /\
       make_mo_at w pairs out_path
       = {| stdout := []; dest := Some (out_path, image ks vs);
            ending_of := Traceback PrintError |})
      \/
      (writable w out_path = true /\ all_fit ks vs = true /\
       printable w (generated out_path (len ps, len (image ks vs))) = true /\
       make_mo_at w pairs out_path
       = {| stdout := [generated out_path (len ps, len (image ks vs))];
            dest := Some (out_path, image ks vs);
            ending_of := Finished |}))).
Proof.
  unfold make_mo_at.
  destruct (make_mo_cases pairs)
    as [[(p & Hp & Hu) E]
       | [Hall (ps & ks & vs & Hk & Hks & Hvs & Hlen & En & H)]].
  - left. split.
    + exists p. apply filter_keep_in in Hp. destruct Hp. auto.
    + rewrite E. reflexivity.
  - right. split; [exact Hall |]. exists ps, ks, vs.
    split; [exact Hk |]. split; [exact Hks |]. split; [exact Hvs |].
    destruct H as [[Hfit E] | [Hfit (f & t & E & Et & Hne)]]; rewrite E;
      cbn [out_file out_result Ok Err];
      destruct (writable w out_path); [| left; auto | | left; auto];
      right.
    + right. rewrite len_image by exact Hlen. rewrite En.
      destruct (printable w _) eqn:Hpr; [right | left]; auto.
    + left. split; [reflexivity |]. split; [exact Hfit |].
      split; [| exists f, t; auto].
      apply N.lt_nge. intros Hsmall. rewrite <- En in Hsmall.
      rewrite (all_fit_small ks vs Hsmall) in Hfit. discriminate.
Qed.

(** X8: the two numbers that [make_mo] reports are the number of entries
    that pass the filter, which is also the count in the header, and the
    size of the file in bytes. *)
Theorem make_mo_summary (pairs : list (str * str)) (file : bytes) (n pos : N) :
  make_mo pairs = {| out_file := Some file; out_result := Ok (n, pos) |} ->
  n = len (filter keep pairs) /\ pos = len file /\ u32_at file 8 = Some n.
Proof.
  intros H.
  destruct (make_mo_inv pairs file (n, pos) H)
    as (ps & ks & vs & Hk & Hks & Hvs & Hfit & -> & Es).
  injection Es as -> ->.
  destruct (kept_spec pairs ps Hk) as (Hperm & _).
  assert (Lk : length ks = length ps).
  { rewrite (encode_all_length _ _ Hks), length_map. reflexivity. }
  assert (Lv : length vs = length ps).
  { rewrite (encode_all_length _ _ Hvs), length_map. reflexivity. }
  assert (En : len ks = len ps) by (unfold len; rewrite Lk; reflexivity).
  split; [unfold len; rewrite (Permutation_length Hperm); reflexivity |].
  split.
  - rewrite len_image by congruence. rewrite En. reflexivity.
  - rewrite <- En. apply (image_header ks vs 2 (len ks) Hfit eq_refl).
Qed.

Lemma make_mo_summary_witness :
  2 = len (filter keep [(py "a", py ""); (py "b", py "x"); (py "", py "meta")])
  /\ 70 = len (image [[]; [Byte.x62]]
                     [[Byte.x6d; Byte.x65; Byte.x74; Byte.x61]; [Byte.x78]])
  /\ u32_at (image [[]; [Byte.x62]]
                   [[Byte.x6d; Byte.x65; Byte.x74; Byte.x61]; [Byte.x78]]) 8
     = Some 2.
Proof.
  apply (make_mo_summary
           [(py "a", py ""); (py "b", py "x"); (py "", py "meta")]).
  reflexivity.
Defined.

(** ** The order of the entries in the file *)

Section StrictOrder.

Lemma bytes_ltb_trans (a : bytes) :
  forall b c, bytes_ltb a b = true -> bytes_ltb b c = true ->
              bytes_ltb a c = true.
Proof.
  induction a as [| x a IH]; intros [| y b] [| z c] Hab Hbc;
    try discriminate; try reflexivity.
  cbn [bytes_ltb] in *.
  apply orb_true_iff in Hab. apply orb_true_iff in Hbc.
  apply orb_true_iff.
  destruct Hab as [Hab | Hab]; destruct Hbc as [Hbc | Hbc].
  - left. apply N.ltb_lt in Hab, Hbc. apply N.ltb_lt. lia.
  - left. apply andb_true_iff in Hbc. destruct Hbc as [E _].
    apply N.eqb_eq in E. rewrite <- E. exact Hab.
  - left. apply andb_true_iff in Hab. destruct Hab as [E _].
    apply N.eqb_eq in E. rewrite E. exact Hbc.
  - right. apply andb_true_iff in Hab. apply andb_true_iff in Hbc.
    destruct Hab as [E1 H1]. destruct Hbc as [E2 H2].
    apply N.eqb_eq in E1, E2. rewrite E1, E2, N.eqb_refl.
    apply (IH b c H1 H2).
Qed.

Lemma Sorted_le_lt (l : list bytes) :
  NoDup l -> Sorted bytes_le l -> StronglySorted bytes_lt l.
Proof.
  intros Hnd Hs.
  apply Sorted_StronglySorted.
  { intros a b c. apply bytes_ltb_trans. }
  induction Hs as [| x l Hs IH Hhd]; [constructor |].
  inversion Hnd as [| ? ? Hx Hnd']; subst.
  constructor; [apply IH, Hnd' |].
  destruct Hhd as [| y l Hxy]; constructor.
  apply bytes_leb_spec in Hxy. destruct Hxy as [H | ->]; [exact H |].
  exfalso. apply Hx. left. reflexivity.
Qed.

Lemma StronglySorted_nth {A : Type} (R : A -> A -> Prop) (l : list A) :
  StronglySorted R l ->
  forall i j a b, (i < j)%nat ->
                  nth_error l i = Some a -> nth_error l j = Some b -> R a b.
Proof.
  induction 1 as [| x l Hs IH Hall]; intros i j a b Hij Ha Hb.
  - destruct i; discriminate.
  - destruct j as [| j]; [lia |]. cbn [nth_error] in Hb.
    destruct i as [| i]; cbn [nth_error] in Ha.
    + injection Ha as <-. rewrite Forall_forall in Hall.
      apply Hall. apply (nth_error_In _ _ Hb).
    + apply (IH i j a b); [lia | assumption | assumption].
Qed.

Lemma encoded_in (l : list (str * str)) :
  forall ks p,
    encode_all (map fst l) = Ok ks -> In p l ->
    exists k, In k ks /\ encode (fst p) = Ok k.
Proof.
  induction l as [| q l IH]; intros ks p Hks Hp; [contradiction |].
  cbn [map encode_all] in Hks.
  destruct (encode (fst q)) as [e | kq] eqn:Eq; cbn [rbind] in Hks;
    [discriminate |].
  destruct (encode_all (map fst l)) as [e | kt] eqn:Et; cbn [rbind] in Hks;
    [discriminate |].
  apply Ok_inj in Hks. subst ks.
  destruct Hp as [-> | Hp].
  - exists kq. split; [left; reflexivity | exact Eq].
  - destruct (IH kt p eq_refl Hp) as (k & Hk & Ek).
    exists k. split; [right; exact Hk | exact Ek].
Qed.

Lemma in_encoded (l : list (str * str)) :
  forall ks k,
    encode_all (map fst l) = Ok ks -> In k ks ->
    exists p, In p l /\ encode (fst p) = Ok k.
Proof.
  induction l as [| q l IH]; intros ks k Hks Hk; cbn [map encode_all] in Hks.
  - apply Ok_inj in Hks. subst ks. contradiction.
  - destruct (encode (fst q)) as [e | kq] eqn:Eq; cbn [rbind] in Hks;
      [discriminate |].
    destruct (encode_all (map fst l)) as [e | kt] eqn:Et; cbn [rbind] in Hks;
      [discriminate |].
    apply Ok_inj in Hks. subst ks.
    destruct Hk as [<- | Hk].
    + exists q. split; [left; reflexivity | exact Eq].
    + destruct (IH kt k eq_refl Hk) as (p & Hp & Ep).
      exists p. split; [right; exact Hp | exact Ep].
Qed.

(** Distinct strings have distinct encodings. *)
Lemma encoded_NoDup (l : list (str * str)) :
  forall ks,
    encode_all (map fst l) = Ok ks -> NoDup (map fst l) -> NoDup ks.
Proof.
  induction l as [| q l IH]; intros ks Hks Hnd; cbn [map encode_all] in *.
  - apply Ok_inj in Hks. subst ks. constructor.
  - destruct (encode (fst q)) as [e | kq] eqn:Eq; cbn [rbind] in Hks;
      [discriminate |].
    destruct (encode_all (map fst l)) as [e | kt] eqn:Et; cbn [rbind] in Hks;
      [discriminate |].
    apply Ok_inj in Hks. subst ks.
    inversion Hnd as [| ? ? Hq Hnd']; subst.
    constructor; [| apply (IH kt eq_refl Hnd')].
    intros Hin. destruct (in_encoded l kt kq Et Hin) as (p & Hp & Ep).
    apply Hq. rewrite (encode_inj _ _ _ Eq Ep).
    apply in_map, Hp.
Qed.

Lemma kept_strict (pairs ps : list (str * str)) :
  kept pairs = Ok ps ->
  NoDup (map fst (filter keep pairs)) ->
  exists ks, encode_all (map fst ps) = Ok ks /\ StronglySorted bytes_lt ks.
Proof.
  intros Hk Hnd.
  destruct (kept_spec pairs ps Hk) as (Hperm & ks & Hks & Hs).
  exists ks. split; [exact Hks |].
  apply Sorted_le_lt; [| exact Hs].
  apply (encoded_NoDup ps ks Hks).
  apply (Permutation_NoDup (Permutation_map fst (Permutation_sym Hperm)) Hnd).
Qed.

(** Two lists in strictly ascending order of their keys that hold the same
    entries are equal. *)
Lemma sorted_unique (ps : list (str * str)) :
  forall ps' ks ks',
    encode_all (map fst ps) = Ok ks -> encode_all (map fst ps') = Ok ks' ->
    StronglySorted bytes_lt ks -> StronglySorted bytes_lt ks' ->
    Permutation ps ps' -> ps = ps'.
Proof.
  induction ps as [| p t IH]; intros ps' ks ks' Hks Hks' Hs Hs' Hperm.
  - apply Permutation_nil in Hperm. subst ps'. reflexivity.
  - destruct ps' as [| p' t'];
      [apply Permutation_sym, Permutation_nil in Hperm; discriminate |].
    cbn [map encode_all] in Hks, Hks'.
    destruct (encode (fst p)) as [e | kp] eqn:Ep; cbn [rbind] in Hks;
      [discriminate |].
    destruct (encode_all (map fst t)) as [e | kt] eqn:Et; cbn [rbind] in Hks;
      [discriminate |].
    destruct (encode (fst p')) as [e | kp'] eqn:Ep'; cbn [rbind] in Hks';
      [discriminate |].
    destruct (encode_all (map fst t')) as [e | kt'] eqn:Et';
      cbn [rbind] in Hks'; [discriminate |].
    apply Ok_inj in Hks, Hks'. subst ks ks'.
    inversion Hs as [| ? ? Hst Hall]; subst.
    inversion Hs' as [| ? ? Hst' Hall']; subst.
    rewrite Forall_forall in Hall, Hall'.
    assert (E : p = p').
    { assert (Hp : In p (p' :: t'))
        by (apply (Permutation_in _ Hperm); left; reflexivity).
      assert (Hp' : In p' (p :: t))
        by (apply (Permutation_in _ (Permutation_sym Hperm)); left;
            reflexivity).
      destruct Hp as [Hp | Hp]; [symmetry; exact Hp |].
      destruct Hp' as [Hp' | Hp']; [exact Hp' |].
      exfalso.
      destruct (encoded_in t' kt' p Et' Hp) as (k & Hk & Ek).
      rewrite Ep in Ek. apply Ok_inj in Ek. subst k.
      destruct (encoded_in t kt p' Et Hp') as (k & Hk' & Ek').
      rewrite Ep' in Ek'. apply Ok_inj in Ek'. subst k.
      pose proof (Hall' kp Hk) as H1. pose proof (Hall kp' Hk') as H2.
      apply bytes_ltb_asym in H1. unfold bytes_lt in H2. congruence. }
    subst p'. f_equal.
    apply (IH t' kt kt' eq_refl Et' Hst Hst').
    apply (Permutation_cons_inv Hperm).
Qed.

Lemma str_eqb_eq (a b : str) : str_eqb a b = true <-> a = b.
Proof.
  unfold str_eqb.
  match goal with
  | |- context [list_eq_dec ?d ?x ?y] =>
      destruct (list_eq_dec d x y) as [e | n]
  end; split; intros H.
  - exact e.
  - reflexivity.
  - discriminate H.
  - contradiction.
Qed.

End StrictOrder.

(** X9: when the original strings of the entries that pass the filter are
    pairwise distinct, the original strings of the table of a produced
    file are in strictly ascending byte order, for any two positions and
    not only for adjacent ones: the table can be searched by bisection. *)
Theorem make_mo_strictly_sorted (pairs : list (str * str)) (file : bytes) :
  produces pairs file ->
  NoDup (map fst (filter keep pairs)) ->
  exists raw,
    mo_read_bytes file = Some raw /\
    forall i j a b,
      (i < j)%nat ->
      nth_error (map fst raw) i = Some a ->
      nth_error (map fst raw) j = Some b ->
      bytes_ltb a b = true.
Proof.
  intros Hfile Hnd.
  destruct (mo_read_produced pairs file Hfile)
    as (ps & ks & vs & Hk & Hks & _ & Hlen & _ & _ & Hraw & _).
  destruct (kept_strict pairs ps Hk Hnd) as (ks' & Hks' & Hs).
  rewrite Hks in Hks'. apply Ok_inj in Hks'. subst ks'.
  exists (combine ks vs). split; [exact Hraw |].
  rewrite (map_fst_combine ks vs Hlen).
  apply (StronglySorted_nth bytes_lt ks Hs).
Qed.

Lemma make_mo_strictly_sorted_witness :
  exists raw,
    mo_read_bytes
      (image [[Byte.x61]; [Byte.x61; Byte.x62]; [Byte.xc3; Byte.xa9]]
             [[Byte.x33]; [Byte.x32]; [Byte.x31]]) = Some raw /\
    forall i j a b,
      (i < j)%nat ->
      nth_error (map fst raw) i = Some a ->
      nth_error (map fst raw) j = Some b ->
      bytes_ltb a b = true.
Proof.
  apply (make_mo_strictly_sorted
           [([0xE9], py "1"); (py "ab", py "2"); (py "a", py "3")]).
  - exists (3, 90). reflexivity.
  - repeat constructor; simpl; intuition discriminate.
Defined.

(** X10: the output does not depend on the order of the input.  Two
    inputs whose entries that pass the filter are the same up to their
    order, with pairwise distinct original strings, give the same file, the
    same summary and the same exception. *)
Theorem make_mo_order_independent (pairs pairs' : list (str * str)) :
  Permutation (filter keep pairs) (filter keep pairs') ->
  NoDup (map fst (filter keep pairs)) ->
  make_mo pairs = make_mo pairs'.
Proof.
  intros Hperm Hnd.
  assert (E : kept pairs = kept pairs').
  { destruct (kept_cases pairs) as [[Hall (ps & Eps)] | [Hex Eps]];
      destruct (kept_cases pairs') as [[Hall' (ps' & Eps')] | [Hex' Eps']].
    - rewrite Eps, Eps'. f_equal.
      destruct (kept_spec pairs ps Eps) as (P & _).
      destruct (kept_spec pairs' ps' Eps') as (P' & _).
      destruct (kept_strict pairs ps Eps Hnd) as (ks & Hks & Hs).
      assert (Hnd' : NoDup (map fst (filter keep pairs')))
        by apply (Permutation_NoDup (Permutation_map fst Hperm) Hnd).
      destruct (kept_strict pairs' ps' Eps' Hnd') as (ks' & Hks' & Hs').
      apply (sorted_unique ps ps' ks ks' Hks Hks' Hs Hs').
      rewrite P, P'. exact Hperm.
    - exfalso. apply Exists_exists in Hex'. destruct Hex' as (p & Hp & Hu).
      rewrite Forall_forall in Hall.
      rewrite (Hall p) in Hu; [discriminate |].
      apply (Permutation_in _ (Permutation_sym Hperm) Hp).
    - exfalso. apply Exists_exists in Hex. destruct Hex as (p & Hp & Hu).
      rewrite Forall_forall in Hall'.
      rewrite (Hall' p) in Hu; [discriminate |].
      apply (Permutation_in _ Hperm Hp).
    - rewrite Eps, Eps'. reflexivity. }
  rewrite !make_mo_unfold, E. reflexivity.
Qed.

Lemma make_mo_order_independent_witness :
  make_mo [(py "b", py "x"); (py "skip", py ""); (py "a", py "y")]
  = make_mo [(py "a", py "y"); (py "b", py "x")].
Proof.
  apply make_mo_order_independent.
  - apply perm_swap.
  - repeat constructor; simpl; intuition discriminate.
Defined.

Section Stability.

Lemma filter_none {A : Type} (f : A -> bool) (l : list A) :
  Forall (fun x => f x = false) l -> filter f l = [].
Proof.
  induction 1 as [| x l Hx _ IH]; [reflexivity |].
  cbn [filter]. rewrite Hx. exact IH.
Qed.

Lemma filter_keyed (k : str) (bk : bytes) (l : list (bytes * (str * str))) :
  encode k = Ok bk ->
  Forall (fun q => encode (fst (snd q)) = Ok (fst q)) l ->
  filter (fun p => str_eqb (fst p) k) (map snd l)
  = map snd (filter (fun q => bytes_eqb (fst q) bk) l).
Proof.
  intros Hk. induction 1 as [| q l Hq _ IH]; [reflexivity |].
  cbn [map filter]. rewrite IH.
  destruct (bytes_eqb (fst q) bk) eqn:Eb.
  - apply bytes_eqb_eq in Eb. rewrite Eb in Hq.
    rewrite (encode_inj _ _ _ Hq Hk).
    replace (str_eqb k k) with true
      by (symmetry; apply str_eqb_eq; reflexivity).
    reflexivity.
  - destruct (str_eqb (fst (snd q)) k) eqn:Es; [| reflexivity].
    apply str_eqb_eq in Es. rewrite Es, Hk in Hq. apply Ok_inj in Hq.
    rewrite Hq in Eb.
    replace (bytes_eqb (fst q) (fst q)) with true in Eb
      by (symmetry; apply bytes_eqb_eq; reflexivity).
    discriminate.
Qed.

Lemma kept_stable (pairs ps : list (str * str)) (k : str) :
  kept pairs = Ok ps ->
  filter (fun p => str_eqb (fst p) k) ps
  = filter (fun p => str_eqb (fst p) k) (filter keep pairs).
Proof.
  unfold kept, sort_by.
  destruct (keyed _ (filter keep pairs)) as [e | d] eqn:Ed; cbn [rbind];
    [discriminate |].
  intros H. apply Ok_inj in H. subst ps.
  destruct (keyed_spec _ _ _ Ed) as [E F]. rewrite <- E.
  assert (F' : Forall (fun q => encode (fst (snd q)) = Ok (fst q))
                      (sort_keyed d)).
  { rewrite Forall_forall in *. intros q Hq. apply F.
    apply (Permutation_in _ (sort_keyed_perm d) Hq). }
  destruct (encode_cases k) as [[_ (bk & Hk)] | [Hu _]].
  - rewrite (filter_keyed k bk _ Hk F'), (filter_keyed k bk _ Hk F).
    rewrite sort_keyed_stable. reflexivity.
  - assert (G : forall l : list (bytes * (str * str)),
               Forall (fun q => encode (fst (snd q)) = Ok (fst q)) l ->
               filter (fun p => str_eqb (fst p) k) (map snd l) = []).
    { intros l Hl. apply filter_none. apply Forall_forall.
      intros p Hp. apply in_map_iff in Hp. destruct Hp as (q & <- & Hq).
      rewrite Forall_forall in Hl.
      destruct (str_eqb (fst (snd q)) k) eqn:Es; [| reflexivity].
      apply str_eqb_eq in Es.
      pose proof (encode_ok_encodable _ _ (Hl q Hq)) as Henc.
      rewrite Es in Henc. congruence. }
    rewrite (G _ F'), (G _ F). reflexivity.
Qed.

End Stability.

(** X11: entries with the same original string are all kept, and they
    stand in the file in the order of the input (the sort is stable): for
    every string [k], the entries of the produced file whose original is
    [k] are the entries of the input with original [k] that pass the
    filter, in input order. *)
Theorem make_mo_stable (pairs : list (str * str)) (file : bytes) (k : str) :
  produces pairs file ->
  exists ds,
    mo_read file = Some ds /\
    filter (fun p => str_eqb (fst p) k) ds
    = filter (fun p => str_eqb (fst p) k) (filter keep pairs).
Proof.
  intros Hfile.
  destruct (mo_read_produced pairs file Hfile)
    as (ps & ks & vs & Hk & _ & _ & _ & _ & _ & _ & Hread).
  exists ps. split; [exact Hread |]. apply kept_stable, Hk.
Qed.

Lemma make_mo_stable_witness :
  exists ds,
    mo_read (image [[Byte.x61]; [Byte.x62]; [Byte.x62]]
                   [[Byte.x32]; [Byte.x31]; [Byte.x33]]) = Some ds /\
    filter (fun p => str_eqb (fst p) (py "b")) ds
    = filter (fun p => str_eqb (fst p) (py "b"))
             (filter keep [(py "b", py "1"); (py "a", py "2");
                           (py "b", py "3")]).
Proof.
  apply (make_mo_stable [(py "b", py "1"); (py "a", py "2"); (py "b", py "3")]).
  exists (3, 88). reflexivity.
Defined.

(** ** The main block *)

Section Main.

Lemma argv_three (argv : list str) :
  (len argv =? 3) = true ->
  exists prog po mo, argv = [prog; po; mo].
Proof.
  intros H. apply N.eqb_eq in H. unfold len in H.
  destruct argv as [| a [| b [| c [| d l]]]]; cbn [length] in H; try lia.
  eauto.
Qed.

Lemma main_three (w : world) (prog po mo : str) :
  main w [prog; po; mo] =
  match readable w po with
  | None => {| stdout := []; dest := None; ending_of := Traceback OSError |}
  | Some content =>
      match decode content with
      | None => {| stdout := []; dest := None;
                   ending_of := Traceback UnicodeDecodeError |}
      | Some text =>
          match parse_po (text_lines text) with
          | inl e => {| stdout := []; dest := None;
                        ending_of := Traceback (Raised e) |}
          | inr pairs => make_mo_at w pairs mo
          end
      end
  end.
Proof. reflexivity. Qed.

Lemma main_usage (w : world) (argv : list str) :
  (len argv =? 3) = false ->
  main w argv
  = if printable w usage then
      {| stdout := [usage]; dest := None; ending_of := SysExit 1 |}
    else {| stdout := []; dest := None; ending_of := Traceback PrintError |}.
Proof. intros H. unfold main. rewrite H. reflexivity. Qed.

Lemma make_mo_at_finished (w : world) (pairs : list (str * str)) (mo : str) :
  ending_of (make_mo_at w pairs mo) = Finished ->
  writable w mo = true /\
  exists file summary,
    make_mo pairs = {| out_file := Some file; out_result := Ok summary |} /\
    printable w (generated mo summary) = true /\
    make_mo_at w pairs mo
    = {| stdout := [generated mo summary]; dest := Some (mo, file);
         ending_of := Finished |}.
Proof.
  unfold make_mo_at.
  destruct (make_mo_cases pairs)
    as [[_ E] | [_ (ps & ks & vs & _ & _ & _ & _ & _ & H)]].
  - rewrite E. cbn. discriminate.
  - destruct H as [[_ E] | [_ (f & t & E & _)]]; rewrite E;
      cbn [out_file out_result Ok Err]; destruct (writable w mo);
      cbn [ending_of]; try discriminate.
    destruct (printable w _) eqn:Hpr; cbn [ending_of]; [| discriminate].
    intros _. split; [reflexivity |]. eexists. eexists.
    split; [reflexivity |]. split; [exact Hpr | reflexivity].
Qed.

Lemma make_mo_at_dest (w : world) (pairs : list (str * str)) (mo p : str)
      (f : bytes) :
  dest (make_mo_at w pairs mo) = Some (p, f) ->
  p = mo /\ writable w mo = true /\ out_file (make_mo pairs) = Some f.
Proof.
  unfold make_mo_at.
  destruct (out_file (make_mo pairs)) as [f' |].
  - destruct (writable w mo); [| discriminate].
    destruct (out_result (make_mo pairs)) as [e | summary];
      [| destruct (printable w _)]; cbn [dest];
      intros [= <- <-]; auto.
  - destruct (out_result (make_mo pairs)); discriminate.
Qed.

(** The script ends at its last line, with [sys.exit(1)] or with an
    uncaught exception. *)
Lemma main_ending (w : world) (argv : list str) :
  ending_of (main w argv) = Finished \/
  ending_of (main w argv) = SysExit 1 \/
  exists f, ending_of (main w argv) = Traceback f.
Proof.
  unfold main, make_mo_at.
  destruct (negb (len argv =? 3)).
  - destruct (printable w usage); cbn [ending_of]; eauto.
  - repeat
      match goal with
      | |- context [match ?x with _ => _ end] => destruct x
      | |- context [if ?x then _ else _] => destruct x
      end; cbn [ending_of]; eauto.
Qed.

End Main.

(** X12: the contract of the command line.  With a number of arguments
    other than two the program writes no file, whatever the files are; it
    prints the usage line and leaves with [sys.exit(1)], unless [print]
    raises.  The script runs to its end exactly when the input can be
    opened and is UTF-8, [make_mo] returns normally on the parsed catalog,
    the output can be opened and [print] takes the summary line; it has
    then printed that one line and written the complete file.  The exit
    status is 120 when the standard streams cannot be flushed at exit;
    otherwise it is 0 when the script ran to its end and 1 in every other
    run.  A file is written only at the second argument, and only what
    [make_mo] wrote. *)
Theorem main_contract (w : world) (argv : list str) :
  (length argv <> 3%nat ->
   dest (main w argv) = None /\
   (printable w usage = true ->
    main w argv = {| stdout := [usage]; dest := None;
                     ending_of := SysExit 1 |}) /\
   (printable w usage = false ->
    main w argv = {| stdout := []; dest := None;
                     ending_of := Traceback PrintError |})) /\
  (ending_of (main w argv) = Finished <->
   exists prog po mo content text pairs file summary,
     argv = [prog; po; mo] /\
     readable w po = Some content /\ decode content = Some text /\
     parse_po (text_lines text) = Ok pairs /\
     make_mo pairs = {| out_file := Some file; out_result := Ok summary |} /\
     writable w mo = true /\
     printable w (generated mo summary) = true /\
     main w argv = {| stdout := [generated mo summary];
                      dest := Some (mo, file); ending_of := Finished |}) /\
  (flushable w = true ->
   (ending_of (main w argv) = Finished ->
    exit_status w (ending_of (main w argv)) = 0) /\
   (ending_of (main w argv) <> Finished ->
    exit_status w (ending_of (main w argv)) = 1)) /\
  (flushable w = false -> exit_status w (ending_of (main w argv)) = 120) /\
  (forall p f,
      dest (main w argv) = Some (p, f) ->
      nth_error argv 2 = Some p /\ writable w p = true /\
      exists prog po content text pairs,
        argv = [prog; po; p] /\
        readable w po = Some content /\ decode content = Some text /\
        parse_po (text_lines text) = Ok pairs /\
        out_file (make_mo pairs) = Some f).
Proof.
  assert (Hstatus :
            (flushable w = true ->
             (ending_of (main w argv) = Finished ->
              exit_status w (ending_of (main w argv)) = 0) /\
             (ending_of (main w argv) <> Finished ->
              exit_status w (ending_of (main w argv)) = 1)) /\
            (flushable w = false ->
             exit_status w (ending_of (main w argv)) = 120)).
  { unfold exit_status. split; intros ->; [| reflexivity].
    destruct (main_ending w argv) as [E | [E | (f & E)]]; rewrite E;
      split; try reflexivity; try discriminate.
    intros H. exfalso. apply H. reflexivity. }
  destruct Hstatus as [Hst1 Hst2].
  split; [| split; [| split; [exact Hst1 | split; [exact Hst2 |]]]].
  - intros Hne.
    assert (Hargc : (len argv =? 3) = false).
    { apply N.eqb_neq. unfold len. lia. }
    rewrite (main_usage w argv Hargc).
    destruct (printable w usage); cbn [dest];
      repeat split; try reflexivity; discriminate.
  - destruct (len argv =? 3) eqn:Hargc.
    + destruct (argv_three argv Hargc) as (prog & po & mo & ->).
      rewrite main_three.
      destruct (readable w po) as [content |] eqn:Hr.
      2:{ cbn [ending_of]. split; [discriminate |].
          intros (? & ? & ? & ? & ? & ? & ? & ? & E & Hr' & _).
          injection E as <- <- <-. congruence. }
      destruct (decode content) as [text |] eqn:Hd.
      2:{ cbn [ending_of]. split; [discriminate |].
          intros (? & ? & ? & ? & ? & ? & ? & ? & E & Hr' & Hd' & _).
          injection E as <- <- <-. congruence. }
      destruct (parse_po (text_lines text)) as [e | pairs] eqn:Hp.
      { cbn [ending_of]. split; [discriminate |].
        intros (? & ? & ? & ? & ? & ? & ? & ? & E & Hr' & Hd' & Hp' & _).
        injection E as <- <- <-.
        rewrite Hr in Hr'. injection Hr' as <-.
        rewrite Hd in Hd'. injection Hd' as <-.
        rewrite Hp in Hp'. discriminate. }
      split.
      * intros Hfin.
        destruct (make_mo_at_finished w pairs mo Hfin)
          as (Hw & file & summary & Em & Hpr & Erun).
        exists prog, po, mo, content, text, pairs, file, summary.
        repeat split; assumption.
      * intros (? & ? & ? & ? & ? & ? & ? & ? & E & Hr' & Hd' & Hp' & _ & _
                & _ & Er).
        injection E as <- <- <-.
        rewrite Hr in Hr'. injection Hr' as <-.
        rewrite Hd in Hd'. injection Hd' as <-.
        rewrite Hp in Hp'. apply Ok_inj in Hp'. subst.
        rewrite Er. reflexivity.
    + rewrite (main_usage w argv Hargc). split.
      * destruct (printable w usage); discriminate.
      * intros (? & ? & ? & ? & ? & ? & ? & ? & -> & _). discriminate.
  - intros p f Hdest.
    destruct (len argv =? 3) eqn:Hargc.
    + destruct (argv_three argv Hargc) as (prog & po & mo & ->).
      rewrite main_three in Hdest.
      destruct (readable w po) as [content |] eqn:Hr; [| discriminate].
      destruct (decode content) as [text |] eqn:Hd; [| discriminate].
      destruct (parse_po (text_lines text)) as [e | pairs] eqn:Hp;
        [discriminate |].
      destruct (make_mo_at_dest w pairs mo p f Hdest) as (-> & Hw & Hf).
      split; [reflexivity |]. split; [exact Hw |].
      exists prog, po, content, text, pairs. repeat split; assumption.
    + rewrite (main_usage w argv Hargc) in Hdest.
      destruct (printable w usage); discriminate.
Qed.

(** A world in which the input holds one entry and everything works: with
    one argument missing the usage line is printed; with both, the script
    runs to its end, exits with status 0 and leaves a file at the second
    argument. *)
Lemma main_contract_witness :
  main (mk_world
          (fun _ =>
             Some [Byte.x6d; Byte.x73; Byte.x67; Byte.x69; Byte.x64;
                   Byte.x20; Byte.x22; Byte.x61; Byte.x22; Byte.x0a;
                   Byte.x6d; Byte.x73; Byte.x67; Byte.x73; Byte.x74;
                   Byte.x72; Byte.x20; Byte.x22; Byte.xc3; Byte.xa9;
                   Byte.x22; Byte.x0a])
          (fun _ => true) (fun _ => true) true)
       [py "make-mo.py"; py "in.po"]
  = {| stdout := [usage]; dest := None; ending_of := SysExit 1 |} /\
  ending_of
    (main (mk_world
             (fun _ =>
                Some [Byte.x6d; Byte.x73; Byte.x67; Byte.x69; Byte.x64;
                      Byte.x20; Byte.x22; Byte.x61; Byte.x22; Byte.x0a;
                      Byte.x6d; Byte.x73; Byte.x67; Byte.x73; Byte.x74;
                      Byte.x72; Byte.x20; Byte.x22; Byte.xc3; Byte.xa9;
                      Byte.x22; Byte.x0a])
             (fun _ => true) (fun _ => true) true)
          [py "make-mo.py"; py "in.po"; py "out.mo"])
  = Finished /\
  exit_status
    (mk_world
       (fun _ =>
          Some [Byte.x6d; Byte.x73; Byte.x67; Byte.x69; Byte.x64;
                Byte.x20; Byte.x22; Byte.x61; Byte.x22; Byte.x0a;
                Byte.x6d; Byte.x73; Byte.x67; Byte.x73; Byte.x74;
                Byte.x72; Byte.x20; Byte.x22; Byte.xc3; Byte.xa9;
                Byte.x22; Byte.x0a])
       (fun _ => true) (fun _ => true) true)
    (ending_of
       (main (mk_world
                (fun _ =>
                   Some [Byte.x6d; Byte.x73; Byte.x67; Byte.x69; Byte.x64;
                         Byte.x20; Byte.x22; Byte.x61; Byte.x22; Byte.x0a;
                         Byte.x6d; Byte.x73; Byte.x67; Byte.x73; Byte.x74;
                         Byte.x72; Byte.x20; Byte.x22; Byte.xc3; Byte.xa9;
                         Byte.x22; Byte.x0a])
                (fun _ => true) (fun _ => true) true)
             [py "make-mo.py"; py "in.po"; py "out.mo"]))
  = 0.
Proof.
  split; [| split].
  - apply main_contract; [discriminate | reflexivity].
  - apply main_contract.
    exists (py "make-mo.py"), (py "in.po"), (py "out.mo").
    eexists. exists (py "msgid " ++ quoted (py "a") ++ [LF]
                     ++ py "msgstr " ++ quoted [0xE9] ++ [LF]).
    exists [(py "a", [0xE9])].
    exists (image [[Byte.x61]] [[Byte.xc3; Byte.xa9]]), (1, 49).
    repeat split; reflexivity.
  - apply main_contract; [reflexivity |].
    apply main_contract.
    exists (py "make-mo.py"), (py "in.po"), (py "out.mo").
    eexists. exists (py "msgid " ++ quoted (py "a") ++ [LF]
                     ++ py "msgstr " ++ quoted [0xE9] ++ [LF]).
    exists [(py "a", [0xE9])].
    exists (image [[Byte.x61]] [[Byte.xc3; Byte.xa9]]), (1, 49).
    repeat split; reflexivity.
Defined.

Section DecodedText.

Lemma is_scalar_of_bounds (c : char) :
  c < 0xD800 \/ (0xDFFF < c /\ c < 0x110000) -> is_scalar c = true.
Proof.
  unfold is_scalar. intros [H | [H1 H2]].
  - replace (c <? 0xD800) with true by (symmetry; apply N.ltb_lt; lia).
    reflexivity.
  - replace (0xDFFF <? c) with true by (symmetry; apply N.ltb_lt; lia).
    replace (c <? 0x110000) with true by (symmetry; apply N.ltb_lt; lia).
    apply orb_true_r.
Qed.

Lemma encodable_cons (c : char) (s : str) :
  encodable (c :: s) = is_scalar c && encodable s.
Proof. reflexivity. Qed.

(** The text that the decoder yields holds no surrogate. *)
Lemma decode_encodable_bounded (n : nat) :
  forall bs s, (length bs <= n)%nat -> decode bs = Some s ->
               encodable s = true.
Proof.
  induction n as [| n IH]; intros bs s Hn.
  - destruct bs; [| cbn [length] in Hn; lia].
    intros [= <-]. reflexivity.
  - destruct bs as [| b0 r0]; [intros [= <-]; reflexivity |].
    cbn [length] in Hn. rewrite decode_cons. cbv zeta.
    pose proof (Byte.to_N_bounded b0) as B0.
    destruct (Byte.to_N b0 <? 0x80) eqn:E1.
    { destruct (decode r0) as [s' |] eqn:Er; [| discriminate].
      cbn [option_map]. intros [= <-].
      rewrite encodable_cons, (IH r0 s' ltac:(lia) Er), andb_true_r.
      apply N.ltb_lt in E1. apply is_scalar_of_bounds. lia. }
    destruct (Byte.to_N b0 <? 0xC0) eqn:E2; [discriminate |].
    destruct (Byte.to_N b0 <? 0xE0) eqn:E3.
    { destruct r0 as [| b1 r1]; [discriminate |].
      destruct (is_cont b1 && _) eqn:Ec; [| discriminate].
      destruct (decode r1) as [s' |] eqn:Er; [| discriminate].
      cbn [option_map]. intros [= <-].
      cbn [length] in Hn.
      rewrite encodable_cons, (IH r1 s' ltac:(lia) Er), andb_true_r.
      apply andb_true_iff in Ec. destruct Ec as [Hc _].
      unfold is_cont in Hc. apply andb_true_iff in Hc. destruct Hc as [_ Hc].
      apply N.ltb_lt in E3, Hc. apply is_scalar_of_bounds. lia. }
    destruct (Byte.to_N b0 <? 0xF0) eqn:E4.
    { destruct r0 as [| b1 [| b2 r2]]; try discriminate.
      destruct (is_cont b1 && is_cont b2 && _ && negb _) eqn:Ec;
        [| discriminate].
      destruct (decode r2) as [s' |] eqn:Er; [| discriminate].
      cbn [option_map]. intros [= <-].
      cbn [length] in Hn.
      rewrite encodable_cons, (IH r2 s' ltac:(lia) Er), andb_true_r.
      apply andb_true_iff in Ec. destruct Ec as [Ec Hs].
      apply andb_true_iff in Ec. destruct Ec as [Ec _].
      apply andb_true_iff in Ec. destruct Ec as [Hc1 Hc2].
      unfold is_cont in Hc1, Hc2.
      apply andb_true_iff in Hc1. destruct Hc1 as [_ Hc1].
      apply andb_true_iff in Hc2. destruct Hc2 as [_ Hc2].
      apply N.ltb_lt in E4, Hc1, Hc2.
      apply negb_true_iff, andb_false_iff in Hs.
      apply is_scalar_of_bounds.
      destruct Hs as [Hs | Hs]; apply N.leb_gt in Hs; lia. }
    destruct (Byte.to_N b0 <? 0xF8) eqn:E5; [| discriminate].
    destruct r0 as [| b1 [| b2 [| b3 r3]]]; try discriminate.
    destruct (is_cont b1 && is_cont b2 && is_cont b3 && _ && _) eqn:Ec;
      [| discriminate].
    destruct (decode r3) as [s' |] eqn:Er; [| discriminate].
    cbn [option_map]. intros [= <-].
    cbn [length] in Hn.
    rewrite encodable_cons, (IH r3 s' ltac:(lia) Er), andb_true_r.
    apply andb_true_iff in Ec. destruct Ec as [Ec Hhi].
    apply andb_true_iff in Ec. destruct Ec as [_ Hlo].
    apply N.leb_le in Hlo. apply N.ltb_lt in Hhi.
    apply is_scalar_of_bounds. lia.
Qed.

Lemma decode_encodable (bs : bytes) (s : str) :
  decode bs = Some s -> encodable s = true.
Proof. apply (decode_encodable_bounded (length bs)), Nat.le_refl. Qed.

Lemma encodable_rev (s : str) : encodable (rev s) = encodable s.
Proof. apply forallb_rev. Qed.

Lemma text_lines_aux_encodable (text : str) :
  forall cur,
    encodable cur = true -> encodable text = true ->
    Forall (fun l => encodable l = true) (text_lines_aux cur text).
Proof.
  assert (Hline : forall cur, encodable cur = true ->
                              encodable (rev (LF :: cur)) = true).
  { intros cur H. rewrite encodable_rev, encodable_cons, H. reflexivity. }
  induction text as [| c | c0 c text IH1 IH2] using scan_ind;
    intros cur Hcur Htext.
  - cbn [text_lines_aux]. destruct cur; constructor; [| constructor].
    rewrite encodable_rev. exact Hcur.
  - cbn [text_lines_aux].
    destruct (c =? LF);
      [constructor; [apply Hline, Hcur | constructor] |].
    destruct (c =? CR);
      [constructor; [apply Hline, Hcur | constructor] |].
    constructor; [| constructor].
    rewrite encodable_rev, encodable_cons, Hcur, andb_true_r.
    rewrite encodable_cons in Htext. apply andb_true_iff in Htext.
    apply Htext.
  - rewrite encodable_cons in Htext. apply andb_true_iff in Htext.
    destruct Htext as [H0 Htext].
    pose proof Htext as Htext'.
    rewrite encodable_cons in Htext'. apply andb_true_iff in Htext'.
    destruct Htext' as [_ Htext'].
    change (text_lines_aux cur (c0 :: c :: text))
      with (if c0 =? LF
            then rev (LF :: cur) :: text_lines_aux [] (c :: text)
            else if c0 =? CR
                 then if c =? LF
                      then rev (LF :: cur) :: text_lines_aux [] text
                      else rev (LF :: cur) :: text_lines_aux [] (c :: text)
                 else text_lines_aux (c0 :: cur) (c :: text)).
    destruct (c0 =? LF);
      [constructor; [apply Hline, Hcur | apply IH2; [reflexivity | exact Htext]] |].
    destruct (c0 =? CR).
    + destruct (c =? LF); constructor; try (apply Hline, Hcur).
      * apply IH1; [reflexivity | exact Htext'].
      * apply IH2; [reflexivity | exact Htext].
    + apply IH2; [| exact Htext].
      rewrite encodable_cons, H0, Hcur. reflexivity.
Qed.

Lemma text_lines_encodable (text : str) :
  encodable text = true ->
  Forall (fun l => encodable l = true) (text_lines text).
Proof. apply text_lines_aux_encodable. reflexivity. Qed.

End DecodedText.

(** X13: the whole program on a UTF-8 input.  When the input can be
    opened and decoded and the output can be opened, the text is parsed to
    a catalog whose surviving entries can all be encoded, and, when their
    file has at most 2^32 bytes, the program writes that file at the second
    argument, where the reader finds the surviving entries.  It then
    prints the number of surviving entries and the size of the file: when
    [print] takes that line the script runs to its end, and the exit
    status is 0 if the standard streams can be flushed; when [print]
    raises, the file stays and the run ends with that exception. *)
Theorem main_end_to_end (w : world) (prog po mo : str) (content : bytes)
        (text : str) :
  readable w po = Some content -> decode content = Some text ->
  writable w mo = true ->
  exists pairs ps ks vs,
    parse_po (text_lines text) = Ok pairs /\
    kept pairs = Ok ps /\ Permutation ps (filter keep pairs) /\
    encode_all (map fst ps) = Ok ks /\ encode_all (map snd ps) = Ok vs /\
    (data_start (len ps) + data_size ks + data_size vs <= 2 ^ 32 ->
     dest (main w [prog; po; mo]) = Some (mo, image ks vs) /\
     mo_read (image ks vs) = Some ps /\
     (printable w (generated mo (len ps, len (image ks vs))) = true ->
      main w [prog; po; mo]
      = {| stdout := [generated mo (len ps, len (image ks vs))];
           dest := Some (mo, image ks vs); ending_of := Finished |} /\
      (flushable w = true ->
       exit_status w (ending_of (main w [prog; po; mo])) = 0)) /\
     (printable w (generated mo (len ps, len (image ks vs))) = false ->
      main w [prog; po; mo]
      = {| stdout := []; dest := Some (mo, image ks vs);
           ending_of := Traceback PrintError |})).
Proof.
  intros Hr Hd Hw.
  pose proof (text_lines_encodable text (decode_encodable _ _ Hd)) as Hlines.
  destruct (parse_then_make_mo (text_lines text) Hlines)
    as (pairs & ps & ks & vs & Hp & Hk & Hks & Hvs & H).
  destruct (kept_spec pairs ps Hk) as (Hperm & _).
  exists pairs, ps, ks, vs.
  split; [exact Hp |]. split; [exact Hk |]. split; [exact Hperm |].
  split; [exact Hks |]. split; [exact Hvs |].
  intros Hsize. destruct (H Hsize) as [_ Hread].
  assert (Lk : length ks = length ps).
  { rewrite (encode_all_length _ _ Hks), length_map. reflexivity. }
  assert (Lv : length vs = length ps).
  { rewrite (encode_all_length _ _ Hvs), length_map. reflexivity. }
  assert (En : len ks = len ps) by (unfold len; rewrite Lk; reflexivity).
  assert (Hfit : all_fit ks vs = true)
    by (apply all_fit_small; rewrite En; assumption).
  assert (Erun : main w [prog; po; mo]
                 = if printable w (generated mo (len ps, len (image ks vs)))
                   then {| stdout := [generated mo
                                        (len ps, len (image ks vs))];
                           dest := Some (mo, image ks vs);
                           ending_of := Finished |}
                   else {| stdout := []; dest := Some (mo, image ks vs);
                           ending_of := Traceback PrintError |}).
  { rewrite main_three, Hr, Hd, Hp. cbn [Ok].
    unfold make_mo_at.
    rewrite (make_mo_ok pairs ps ks vs Hk Hks Hvs Hfit).
    cbn [out_file out_result Ok]. rewrite Hw.
    rewrite len_image by congruence. rewrite En. reflexivity. }
  rewrite Erun.
  split; [destruct (printable w _); reflexivity |].
  split; [exact Hread |].
  split; intros ->; [| reflexivity].
  split; [reflexivity |].
  intros Hfl. unfold exit_status. rewrite Hfl. reflexivity.
Qed.

(** A file of two lines, the second with a non-ASCII translation, in a
    world where everything works. *)
Lemma main_end_to_end_witness :
  exists pairs ps ks vs,
    parse_po (text_lines (py "msgid " ++ quoted (py "a") ++ [LF]
                          ++ py "msgstr " ++ quoted [0xE9] ++ [LF]))
    = Ok pairs /\
    kept pairs = Ok ps /\ Permutation ps (filter keep pairs) /\
    encode_all (map fst ps) = Ok ks /\ encode_all (map snd ps) = Ok vs /\
    (data_start (len ps) + data_size ks + data_size vs <= 2 ^ 32 ->
     dest (main (mk_world
                   (fun _ =>
                      Some [Byte.x6d; Byte.x73; Byte.x67; Byte.x69;
                            Byte.x64; Byte.x20; Byte.x22; Byte.x61;
                            Byte.x22; Byte.x0a; Byte.x6d; Byte.x73;
                            Byte.x67; Byte.x73; Byte.x74; Byte.x72;
                            Byte.x20; Byte.x22; Byte.xc3; Byte.xa9;
                            Byte.x22; Byte.x0a])
                   (fun _ => true) (fun _ => true) true)
                [py "make-mo.py"; py "in.po"; py "out.mo"])
     = Some (py "out.mo", image ks vs) /\
     mo_read (image ks vs) = Some ps /\
     main (mk_world
             (fun _ =>
                Some [Byte.x6d; Byte.x73; Byte.x67; Byte.x69;
                      Byte.x64; Byte.x20; Byte.x22; Byte.x61;
                      Byte.x22; Byte.x0a; Byte.x6d; Byte.x73;
                      Byte.x67; Byte.x73; Byte.x74; Byte.x72;
                      Byte.x20; Byte.x22; Byte.xc3; Byte.xa9;
                      Byte.x22; Byte.x0a])
             (fun _ => true) (fun _ => true) true)
          [py "make-mo.py"; py "in.po"; py "out.mo"]
     = {| stdout := [generated (py "out.mo") (len ps, len (image ks vs))];
          dest := Some (py "out.mo", image ks vs); ending_of := Finished |}).
Proof.
  destruct (main_end_to_end
              (mk_world
                 (fun _ =>
                    Some [Byte.x6d; Byte.x73; Byte.x67; Byte.x69;
                          Byte.x64; Byte.x20; Byte.x22; Byte.x61;
                          Byte.x22; Byte.x0a; Byte.x6d; Byte.x73;
                          Byte.x67; Byte.x73; Byte.x74; Byte.x72;
                          Byte.x20; Byte.x22; Byte.xc3; Byte.xa9;
                          Byte.x22; Byte.x0a])
                 (fun _ => true) (fun _ => true) true)
              (py "make-mo.py") (py "in.po") (py "out.mo")
              [Byte.x6d; Byte.x73; Byte.x67; Byte.x69; Byte.x64;
               Byte.x20; Byte.x22; Byte.x61; Byte.x22; Byte.x0a;
               Byte.x6d; Byte.x73; Byte.x67; Byte.x73; Byte.x74;
               Byte.x72; Byte.x20; Byte.x22; Byte.xc3; Byte.xa9;
               Byte.x22; Byte.x0a]
              (py "msgid " ++ quoted (py "a") ++ [LF]
               ++ py "msgstr " ++ quoted [0xE9] ++ [LF])
              eq_refl eq_refl eq_refl)
    as (pairs & ps & ks & vs & Hp & Hk & Hperm & Hks & Hvs & H).
  exists pairs, ps, ks, vs.
  split; [exact Hp |]. split; [exact Hk |]. split; [exact Hperm |].
  split; [exact Hks |]. split; [exact Hvs |].
  intros Hsize. destruct (H Hsize) as (Hdest & Hread & Hprint & _).
  split; [exact Hdest |]. split; [exact Hread |].
  apply Hprint. reflexivity.
Defined.

(** ** Line ends *)

Section LineEnds.

Lemma chomp_eol (l eol : str) : is_eol eol = true -> chomp (l ++ eol) = chomp l.
Proof.
  intros H. unfold chomp, rstrip. rewrite rev_app_distr.
  rewrite dropwhile_all by (rewrite forallb_rev; exact H).
  reflexivity.
Qed.

Lemma parse_line_chomp (st : po_state) (l l' : str) :
  chomp l = chomp l' -> parse_line st l = parse_line st l'.
Proof.
  intros E. unfold parse_line. cbv zeta.
  change (rstrip [CR; LF] l) with (chomp l).
  change (rstrip [CR; LF] l') with (chomp l').
  rewrite E. reflexivity.
Qed.

Lemma parse_lines_chomp (f f' : list str) :
  Forall2 (fun l l' => chomp l = chomp l') f f' ->
  forall st, parse_lines st f = parse_lines st f'.
Proof.
  induction 1 as [| l l' f f' E _ IH]; intros st; [reflexivity |].
  cbn [parse_lines]. rewrite (parse_line_chomp st l l' E).
  destruct (parse_line st l') as [e | st1]; [reflexivity | apply IH].
Qed.

End LineEnds.

(** X14: the parser does not see the line ends.  Two files whose lines
    agree once the CR and LF characters at the end of every line are
    removed parse to the same catalog, and adding CR and LF characters at
    the end of a line does not change what is left of it: every line may
    end in LF, in CR LF or in nothing. *)
Theorem parse_po_line_ends :
  (forall f f',
      Forall2 (fun l l' => chomp l = chomp l') f f' ->
      parse_po f = parse_po f') /\
  (forall l eol, is_eol eol = true -> chomp (l ++ eol) = chomp l).
Proof.
  split; [| apply chomp_eol].
  intros f f' H. unfold parse_po.
  rewrite (parse_lines_chomp f f' H). reflexivity.
Qed.

Lemma parse_po_line_ends_witness :
  parse_po [py "msgid " ++ quoted (py "a") ++ [CR; LF];
            py "msgstr " ++ quoted (py "b")]
  = parse_po [py "msgid " ++ quoted (py "a") ++ [LF];
              py "msgstr " ++ quoted (py "b") ++ [LF]].
Proof.
  destruct parse_po_line_ends as [H _].
  apply H. repeat constructor.
Defined.
